(** * Wiktionary audio extension: coordination pipeline

    A shallow embedding of the extension's service worker
    ([background.js]), its offscreen engine page ([offscreen.js]) and the
    discovery and batch code of its content script, with the properties of
    the specification stated over it.

    Conventions.
    - A JavaScript string is the list of its UTF-16 code units ([jsstring]).
    - A [Uint8Array] is a list of [Byte.byte]; a plain JS array of numbers
      is a list of [Z].
    - Asynchronous code is modelled by what it does between two
      suspensions: a handler is a function from the outcomes of the
      operations it awaits to the ordered list of effects it performs, and
      an object that lives across events (the cached load promise, the
      pending transcode futures) is a state with a step function. *)

From Stdlib Require Import String Ascii Bool Arith ZArith NArith Lia List.
From Stdlib Require Strings.Byte.
From Equations Require Import Equations.
Import ListNotations.

(** ** JavaScript strings *)

Module JS.

Definition jsstring := list N.

Definition Uint8Array := list Byte.byte.

(** An ASCII literal as code units. *)
Definition lit (s : string) : jsstring :=
  map N_of_ascii (list_ascii_of_string s).

Definition eqb (a b : jsstring) : bool :=
  if list_eq_dec N.eq_dec a b then true else false.

(** A string is truthy when it is not empty. *)
Definition truthy (s : jsstring) : bool :=
  match s with [] => false | _ :: _ => true end.

Fixpoint dropWhile (p : N -> bool) (s : jsstring) : jsstring :=
  match s with
  | [] => []
  | c :: r => if p c then dropWhile p r else s
  end.

(** [\s] of a regular expression, and the characters [trim] removes:
    ECMAScript WhiteSpace and LineTerminator. *)
Definition isSpace (c : N) : bool :=
  existsb (N.eqb c)
    [9; 10; 11; 12; 13; 32; 160; 5760; 8232; 8233; 8239; 8287; 12288; 65279]%N
  || ((8192 <=? c) && (c <=? 8202))%N.

Definition trimStart (s : jsstring) : jsstring := dropWhile isSpace s.
Definition trimEnd (s : jsstring) : jsstring := rev (dropWhile isSpace (rev s)).
Definition trim (s : jsstring) : jsstring := trimEnd (trimStart s).

(** [s.substring(0, n)] *)
Definition substring0 (n : nat) (s : jsstring) : jsstring := firstn n s.

(** ASCII case folding: what [toLowerCase] does to the letters A-Z, and
    what the [i] flag of a regular expression without the [u] flag
    amounts to for a pattern of ASCII letters (its canonicalization
    never maps a code unit of 128 or more to an ASCII one). *)
Definition lowerUnit (c : N) : N :=
  if ((65 <=? c) && (c <=? 90))%N then (c + 32)%N else c.

(** [toLowerCase], as far as comparing its result with an ASCII string
    goes.  Outside A-Z the only code units whose lower case contains an
    ASCII letter are U+212A (KELVIN SIGN, to [k]) and U+0130 (to [i]
    followed by U+0307); every other code unit of 128 or more has a lower
    case without ASCII units and is left as it is here. *)
Definition toLowerCase (s : jsstring) : jsstring :=
  flat_map (fun c =>
    if (c =? 8490)%N then [107%N]
    else if (c =? 304)%N then [105%N; 775%N]
    else [lowerUnit c]) s.

Fixpoint isPrefix (p s : jsstring) : bool :=
  match p, s with
  | [], _ => true
  | a :: p', b :: s' => (a =? b)%N && isPrefix p' s'
  | _ :: _, [] => false
  end.

Definition endsWith (s suffix : jsstring) : bool :=
  isPrefix (rev suffix) (rev s).

Fixpoint takeWhile (p : N -> bool) (s : jsstring) : jsstring :=
  match s with
  | [] => []
  | c :: r => if p c then c :: takeWhile p r else []
  end.

(** [s.split(sep).pop()] for a separator of one code unit: what follows
    the last separator (the whole string when there is none). *)
Definition lastSegment (sep : N) (s : jsstring) : jsstring :=
  rev (takeWhile (fun c => negb (c =? sep)%N) (rev s)).

(** [parts.join(sep)] *)
Fixpoint join (sep : jsstring) (parts : list jsstring) : jsstring :=
  match parts with
  | [] => []
  | [x] => x
  | x :: rest => x ++ sep ++ join sep rest
  end.

(** *** [decodeURIComponent]

    A built-in: every escape [%XX] is read as an octet, and the octets
    are decoded as UTF-8.  A malformed escape or an ill-formed octet
    sequence raises a [URIError] ([None]). *)

Definition hexValue (c : N) : option N :=
  if ((48 <=? c) && (c <=? 57))%N then Some (c - 48)%N
  else if ((65 <=? c) && (c <=? 70))%N then Some (c - 55)%N
  else if ((97 <=? c) && (c <=? 102))%N then Some (c - 87)%N
  else None.

Inductive Piece : Type :=
| Unit (c : N)     (* a code unit copied as it is *)
| Octet (b : N).   (* the value of an escape *)

Fixpoint percentPieces (s : jsstring) : option (list Piece) :=
  match s with
  | [] => Some []
  | c :: r =>
      if (c =? 37)%N then
        match r with
        | h1 :: h2 :: r' =>
            match hexValue h1, hexValue h2 with
            | Some a, Some b =>
                option_map (cons (Octet (16 * a + b))) (percentPieces r')
            | _, _ => None
            end
        | _ => None
        end
      else option_map (cons (Unit c)) (percentPieces r)
  end.

(** The payload of a continuation octet [10xxxxxx]. *)
Definition continuation (p : Piece) : option N :=
  match p with
  | Octet b => if ((128 <=? b) && (b <? 192))%N then Some (b - 128)%N else None
  | Unit _ => None
  end.

(** A code point as UTF-16. *)
Definition utf16 (v : N) : jsstring :=
  if (v <? 65536)%N then [v]
  else [55296 + (v - 65536) / 1024; 56320 + (v - 65536) mod 1024]%N.

Fixpoint joinOctets (ps : list Piece) : option jsstring :=
  match ps with
  | [] => Some []
  | Unit c :: r => option_map (cons c) (joinOctets r)
  | Octet b :: r =>
      if (b <? 128)%N then option_map (cons b) (joinOctets r)
      else if (b <? 192)%N then None
      else if (b <? 224)%N then
        match r with
        | p1 :: r1 =>
            match continuation p1 with
            | Some c1 =>
                let v := ((b - 192) * 64 + c1)%N in
                if (v <? 128)%N then None
                else option_map (app (utf16 v)) (joinOctets r1)
            | None => None
            end
        | _ => None
        end
      else if (b <? 240)%N then
        match r with
        | p1 :: p2 :: r2 =>
            match continuation p1, continuation p2 with
            | Some c1, Some c2 =>
                let v := ((b - 224) * 4096 + c1 * 64 + c2)%N in
                if ((v <? 2048) || ((55296 <=? v) && (v <=? 57343)))%N then None
                else option_map (app (utf16 v)) (joinOctets r2)
            | _, _ => None
            end
        | _ => None
        end
      else if (b <? 248)%N then
        match r with
        | p1 :: p2 :: p3 :: r3 =>
            match continuation p1, continuation p2, continuation p3 with
            | Some c1, Some c2, Some c3 =>
                let v := ((b - 240) * 262144 + c1 * 4096 + c2 * 64 + c3)%N in
                if ((v <? 65536) || (1114111 <? v))%N then None
                else option_map (app (utf16 v)) (joinOctets r3)
            | _, _, _ => None
            end
        | _ => None
        end
      else None
  end.

Definition decodeURIComponent (s : jsstring) : option jsstring :=
  match percentPieces s with
  | Some ps => joinOctets ps
  | None => None
  end.

End JS.

Import JS.

(** ** [background.js]: pure helpers *)

Module Background.

(** *** [sanitizeFilename] *)

(** The character class of the first [replace]: less-than, greater-than,
    colon, double quote, slash, backslash, vertical bar, question mark
    and asterisk. *)
Definition invalidChars : list N := [60; 62; 58; 34; 47; 92; 124; 63; 42]%N.

Definition isInvalidChar (c : N) : bool := existsb (N.eqb c) invalidChars.

(** The first [replace], with the [g] flag: every invalid character
    becomes an underscore. *)
Definition replaceInvalid (s : jsstring) : jsstring :=
  map (fun c => if isInvalidChar c then 95%N else c) s.

(** [.replace(/\s+/g, ' ')]: every maximal run of white space becomes one
    space.  [inRun] tells that the previous unit was white space. *)
Fixpoint normalizeWhitespace (inRun : bool) (s : jsstring) : jsstring :=
  match s with
  | [] => []
  | c :: r =>
      if isSpace c
      then (if inRun then normalizeWhitespace true r
            else 32%N :: normalizeWhitespace true r)
      else c :: normalizeWhitespace false r
  end.

(** [.replace(/^\.+/, '')] *)
Definition removeLeadingDots (s : jsstring) : jsstring :=
  dropWhile (N.eqb 46) s.

Definition sanitizeFilename (filename : jsstring) : jsstring :=
  substring0 255
    (trim
       (removeLeadingDots
          (normalizeWhitespace false
             (replaceInvalid filename)))).

(** *** [arrayBufferToBase64] *)

(** [bytes.subarray(i, j)] for [i <= j]; both ends are clamped to the
    length. *)
Definition subarray (bytes : Uint8Array) (i j : N) : Uint8Array :=
  firstn (N.to_nat (j - i)) (skipn (N.to_nat i) bytes).

(** [btoa] is a built-in of the browser: base64 of a string whose code
    units are all below 256, an [InvalidCharacterError] ([None])
    otherwise.  It is written out here after RFC 4648. *)
Definition base64Alphabet : jsstring :=
  lit "ABCDEFGHIJKLMNOPQRSTUVWXYZabcdefghijklmnopqrstuvwxyz0123456789+/".

Definition base64Digit (i : N) : N := nth (N.to_nat i) base64Alphabet 0%N.

Fixpoint base64Encode (s : jsstring) : jsstring :=
  match s with
  | [] => []
  | [a] =>
      [base64Digit (N.shiftr a 2);
       base64Digit (N.shiftl (N.land a 3) 4);
       61; 61]%N
  | [a; b] =>
      [base64Digit (N.shiftr a 2);
       base64Digit (N.lor (N.shiftl (N.land a 3) 4) (N.shiftr b 4));
       base64Digit (N.shiftl (N.land b 15) 2);
       61]%N
  | a :: b :: c :: r =>
      base64Digit (N.shiftr a 2)
      :: base64Digit (N.lor (N.shiftl (N.land a 3) 4) (N.shiftr b 4))
      :: base64Digit (N.lor (N.shiftl (N.land b 15) 2) (N.shiftr c 6))
      :: base64Digit (N.land c 63)
      :: base64Encode r
  end.

Definition btoa (s : jsstring) : option jsstring :=
  if forallb (fun c => (c <? 256)%N) s then Some (base64Encode s) else None.

Definition chunkSize : N := 8192.
Definition fastThreshold : N := 65536.

Section ArrayBufferToBase64.

(** The number of arguments a call can be given before the engine
    raises a [RangeError]: the call stack limit the comments of the
    source speak of.  It is a property of the JavaScript engine. *)
Variable maxArguments : N.

(** [String.fromCharCode(...bytes)] *)
Definition fromCharCodeSpread (bytes : Uint8Array) : option jsstring :=
  if (N.of_nat (length bytes) <=? maxArguments)%N
  then Some (map Byte.to_N bytes)
  else None.

(** The [for] loop of the chunked method, from index [i] with the
    string [binary] built so far. *)
Equations? chunkLoop (bytes : Uint8Array) (i : N) (binary : jsstring)
  : option jsstring by wf (length bytes - N.to_nat i) lt :=
  chunkLoop bytes i binary with lt_dec (N.to_nat i) (length bytes) => {
    | right _ => Some binary
    | left _ with fromCharCodeSpread (subarray bytes i (i + chunkSize)) => {
        | None => None
        | Some piece => chunkLoop bytes (i + chunkSize) (binary ++ piece) } }.
Proof. unfold chunkSize. lia. Qed.

(** Every chunk of [bytes] can be spread: the chunk size is within the
    limit of the engine, or the whole buffer is. *)
Definition spreadable (bytes : Uint8Array) : Prop :=
  (chunkSize <= maxArguments)%N
  \/ (N.of_nat (length bytes) <= maxArguments)%N.

(** The chunked method: the loop, then [btoa]. *)
Definition chunkedEncoding (bytes : Uint8Array) : option jsstring :=
  match chunkLoop bytes 0 [] with
  | Some binary => btoa binary
  | None => None
  end.

(** The fast method: one call of [String.fromCharCode] on the whole
    buffer, then [btoa]. *)
Definition directEncoding (bytes : Uint8Array) : option jsstring :=
  match fromCharCodeSpread bytes with
  | Some binary => btoa binary
  | None => None
  end.

(** [arrayBufferToBase64]: the [try] block returns the fast method's
    string for a buffer under the threshold; when the block does not
    return (the buffer is larger, or the fast method threw and the
    [catch] logged it) the chunked method runs.  [None] is an
    exception that leaves the function. *)
Definition arrayBufferToBase64 (arrayBuffer : Uint8Array) : option jsstring :=
  let bytes := arrayBuffer in
  let tried :=
    if (N.of_nat (length bytes) <? fastThreshold)%N
    then directEncoding bytes
    else None in
  match tried with
  | Some base64 => Some base64
  | None => chunkedEncoding bytes
  end.

End ArrayBufferToBase64.

End Background.

(** ** The content script: discovery and batch download *)

Module Content.

(** *** [isAudioFile] *)

Definition audioMimeTypes : list jsstring :=
  map lit
    [ "audio/mpeg"; "audio/mp3"; "audio/ogg"; "audio/wav"; "audio/wave";
      "audio/webm"; "audio/mp4"; "audio/aac"; "audio/x-aac"; "audio/flac";
      "audio/x-flac"; "audio/opus"; "audio/3gpp"; "audio/amr";
      "audio/x-ms-wma"; "video/ogg"; "video/webm" ]%string.

Definition audioExtensions : list jsstring :=
  map lit
    [ "ogg"; "oga"; "opus"; "mp3"; "wav"; "wave"; "webm"; "m4a"; "aac";
      "flac"; "wma"; "amr"; "3gp"; "3ga" ]%string.

(** [audioMimeTypes.includes(mimeType.toLowerCase())] *)
Definition mimeListed (mimeType : jsstring) : bool :=
  existsb (JS.eqb (toLowerCase mimeType)) audioMimeTypes.

(** The test of the extension pattern: a dot and one of the extensions
    at the very end of the name, letters compared without case. *)
Definition extensionMatches (filename : jsstring) : bool :=
  existsb (fun ext => endsWith (map lowerUnit filename) (46%N :: ext))
          audioExtensions.

(** A missing or [null] argument is [None]. *)
Definition isAudioFile (filename mimeType : option jsstring) : bool :=
  if match mimeType with
     | Some m => truthy m && mimeListed m
     | None => false
     end
  then true
  else match filename with
       | Some f => truthy f && extensionMatches f
       | None => false
       end.

(** *** What the endpoints return *)

Definition Metadata := list (jsstring * jsstring).

(** An item of the media list. *)
Record MediaItem : Type := {
  it_title : option jsstring;
  it_audio_type : option jsstring
}.

(** An entry of [imageinfo]. *)
Record ImageInfo : Type := {
  ii_url : option jsstring;
  ii_mime : option jsstring;
  ii_extmetadata : option Metadata
}.

(** A page of [query.pages]. *)
Record Page : Type := {
  pg_title : option jsstring;
  pg_imageinfo : list ImageInfo
}.

Record Candidate : Type := {
  title : option jsstring;
  url : jsstring;
  filename : jsstring;
  license : Metadata
}.

Inductive Request : Type :=
| MediaList (pageTitle : jsstring)
    (* GET /api/rest_v1/page/media-list/<pageTitle> *)
| ImageInfoQuery (titles : jsstring)
    (* action=query, titles=<titles>, prop=imageinfo *)
| GeneratorQuery (pageTitle : jsstring).
    (* action=query, titles=<pageTitle>, generator=images, prop=imageinfo *)

(** The outcome of [fetch] followed by [r.json()]: the request fails, or
    a response arrives with its [ok] flag and a body that parses
    ([Some]) or not. *)
Inductive Fetched (J : Type) : Type :=
| NetworkError
| Response (ok : bool) (json : option J).
Arguments NetworkError {J}.
Arguments Response {J} ok json.

(** The wiki as the script sees it.  The body of a media list is
    [j.items] ([None] when the property is missing); the body of a query
    is [Object.values(j?.query?.pages || {})]. *)
Record Wiki : Type := {
  mediaList : jsstring -> Fetched (option (list MediaItem));
  imageInfoQuery : jsstring -> Fetched (list Page);
  generatorQuery : jsstring -> Fetched (list Page)
}.

(** *** Requests issued so far, and exceptions *)

Definition Discovery (A : Type) : Type := list Request * option A.

Definition ret {A} (a : A) : Discovery A := ([], Some a).
Definition throw {A} : Discovery A := ([], None).
Definition bind {A B} (m : Discovery A) (k : A -> Discovery B) : Discovery B :=
  match m with
  | (t, Some a) => let (t', r) := k a in (t ++ t', r)
  | (t, None) => (t, None)
  end.

Declare Scope discovery_scope.
Delimit Scope discovery_scope with discovery.
Notation "x <- m ;; k" := (bind m (fun x => k))
  (at level 61, m at next level, right associativity) : discovery_scope.
Local Open Scope discovery_scope.

Definition requests {A} (m : Discovery A) : list Request := fst m.
Definition outcome {A} (m : Discovery A) : option A := snd m.

(** [await fetch(...)] of request [q] answered by [answer]: a network
    error rejects. *)
Definition fetched {J} (q : Request) (answer : Fetched J)
  : Discovery (bool * option J) :=
  ([q], match answer with
        | NetworkError => None
        | Response ok json => Some (ok, json)
        end).

(** [await r.json()] *)
Definition parsed {J} (json : option J) : Discovery J :=
  match json with Some j => ret j | None => throw end.

(** *** [listAudioFileTitles] *)

Definition looksAudio (it : MediaItem) : bool :=
  let hasAudioType :=
    match it_audio_type it with
    | Some t => truthy t && negb (JS.eqb t (lit "unknown"))
    | None => false
    end in
  let looksLikeAudio := isAudioFile (it_title it) None in
  hasAudioType || looksLikeAudio.

Definition listAudioFileTitles (w : Wiki) (pageTitle : jsstring)
  : Discovery (list (option jsstring)) :=
  r <- fetched (MediaList pageTitle) (mediaList w pageTitle) ;;
  if negb (fst r) then ret []
  else
    j <- parsed (snd r) ;;
    ret (map it_title
           (filter looksAudio (match j with Some items => items | None => [] end))).

(** *** [resolveDirectUrls] and [fallbackActionApiDiscovery] *)

(** The guard of both loops: [ii?.url && isAudioFile(ii.url, ii.mime)]. *)
Definition acceptsEntry (ii : ImageInfo) : bool :=
  match ii_url ii with
  | Some u => truthy u && isAudioFile (Some u) (ii_mime ii)
  | None => false
  end.

(** The object pushed for an accepted entry; [decodeURIComponent] may
    throw. *)
Definition candidateOf (pg : Page) (ii : ImageInfo) (u : jsstring)
  : option Candidate :=
  let last := lastSegment 47 u in
  match decodeURIComponent (if truthy last then last else lit "audio") with
  | Some name =>
      Some {| title := pg_title pg;
              url := u;
              filename := name;
              license := match ii_extmetadata ii with
                         | Some m => m
                         | None => []
                         end |}
  | None => None
  end.

(** The loop over the pages, which the two functions share word for
    word: [ii] is the first entry of [imageinfo]. *)
Fixpoint collectCandidates (pages : list Page) : option (list Candidate) :=
  match pages with
  | [] => Some []
  | pg :: rest =>
      match hd_error (pg_imageinfo pg) with
      | Some ii =>
          if acceptsEntry ii
          then match ii_url ii with
               | Some u =>
                   match candidateOf pg ii u with
                   | Some c => option_map (cons c) (collectCandidates rest)
                   | None => None
                   end
               | None => collectCandidates rest
               end
          else collectCandidates rest
      | None => collectCandidates rest
      end
  end.

Definition collected (pages : list Page) : Discovery (list Candidate) :=
  match collectCandidates pages with
  | Some out => ret out
  | None => throw
  end.

(** A title that is [undefined] is joined as the empty string. *)
Definition joinTitles (fileTitles : list (option jsstring)) : jsstring :=
  join (lit "|")
    (map (fun t => match t with Some s => s | None => [] end) fileTitles).

Definition resolveDirectUrls (w : Wiki) (fileTitles : list (option jsstring))
  : Discovery (list Candidate) :=
  match fileTitles with
  | [] => ret []
  | _ :: _ =>
      let titles := joinTitles fileTitles in
      r <- fetched (ImageInfoQuery titles) (imageInfoQuery w titles) ;;
      j <- parsed (snd r) ;;
      collected j
  end.

Definition fallbackActionApiDiscovery (w : Wiki) (pageTitle : jsstring)
  : Discovery (list Candidate) :=
  r <- fetched (GeneratorQuery pageTitle) (generatorQuery w pageTitle) ;;
  j <- parsed (snd r) ;;
  collected j.

(** *** Main execution *)

(** The first two stages: the media list, then the resolution of the
    titles it gave. *)
Definition listAndResolve (w : Wiki) (pageTitle : jsstring)
  : Discovery (list Candidate) :=
  files <- listAudioFileTitles w pageTitle ;;
  match files with
  | _ :: _ => resolveDirectUrls w files
  | [] => ret []
  end.

Definition discover (w : Wiki) (pageTitle : jsstring)
  : Discovery (list Candidate) :=
  resolved <- listAndResolve w pageTitle ;;
  match resolved with
  | [] => fallbackActionApiDiscovery w pageTitle
  | _ :: _ => ret resolved
  end.

(** The body of the script: the requests it issues and the items the
    panel is created with ([None]: no panel; an exception is caught
    and logged). *)
Definition main (w : Wiki) (pageTitle : jsstring)
  : list Request * option (list Candidate) :=
  if negb (truthy pageTitle) then ([], None)
  else
    match discover w pageTitle with
    | (t, Some (c :: cs)) => (t, Some (c :: cs))
    | (t, _) => (t, None)
    end.

(** *** [downloadAllFiles] *)

(** The message of type [DOWNLOAD_AUDIO]. *)
Record DownloadMessage : Type := {
  dm_url : jsstring;
  dm_originalFilename : jsstring;
  dm_mode : jsstring
}.

(** How [safeSendMessage] settles: it rejects (the extension context is
    gone, its timer fires first, or [chrome.runtime.lastError] is set)
    or it resolves with the response, [None] for a response that is
    [undefined] and [Some ok] for one whose [ok] is truthy or not. *)
Inductive SendError : Type :=
| ContextInvalidated
| MessageTimeout
| RuntimeError (message : jsstring).

Inductive SendOutcome : Type :=
| SendRejected (e : SendError)
| SendResolved (response : option bool).

(** The extension as the page sees it: the stored mode with its default
    applied ([None] when [chrome.storage.sync.get] rejects), and how the
    [n]-th message of a batch, sent with a given timeout, settles. *)
Record Extension : Type := {
  storedMode : option jsstring;
  answer : nat -> DownloadMessage -> Z -> SendOutcome
}.

Inductive FeedbackText : Type :=
| DownloadedCount (successCount total : nat)   (* check mark, n/total *)
| FailedText.                                  (* cross, failed *)

Inductive BatchEvent : Type :=
| Sent (message : DownloadMessage) (timeoutMs : Z)
| Settled (o : SendOutcome)
| Feedback (text : FeedbackText) (isSuccess : bool).

Definition messageFor (mode : jsstring) (item : Candidate) : DownloadMessage :=
  {| dm_url := url item;
     dm_originalFilename := filename item;
     dm_mode := mode |}.

Definition timeoutFor (mode : jsstring) : Z :=
  if JS.eqb mode (lit "convert") then 120000%Z else 90000%Z.

(** [response && response.ok] *)
Definition responseOk (o : SendOutcome) : bool :=
  match o with
  | SendResolved (Some true) => true
  | _ => false
  end.

(** The [for] loop of the batch, from the [n]-th message on, with the
    two counters: each item is sent and awaited inside its own
    [try]/[catch] before the next one is looked at. *)
Fixpoint batchLoop (ext : Extension) (mode : jsstring) (items : list Candidate)
    (n successCount failCount : nat) : list BatchEvent * (nat * nat) :=
  match items with
  | [] => ([], (successCount, failCount))
  | item :: rest =>
      let timeoutMs := timeoutFor mode in
      let message := messageFor mode item in
      let o := answer ext n message timeoutMs in
      let '(t, counts) :=
        if responseOk o
        then batchLoop ext mode rest (S n) (S successCount) failCount
        else batchLoop ext mode rest (S n) successCount (S failCount) in
      (Sent message timeoutMs :: Settled o :: t, counts)
  end.

(** The loop of the outer [catch]: every item in original mode with the
    default timeout, inside one [try], so that the first rejection ends
    it. *)
Fixpoint fallbackLoop (ext : Extension) (items : list Candidate) (n : nat)
  : list BatchEvent :=
  match items with
  | [] => []
  | item :: rest =>
      let message := messageFor (lit "original") item in
      let o := answer ext n message 90000%Z in
      Sent message 90000%Z :: Settled o ::
        match o with
        | SendRejected _ => []
        | SendResolved _ => fallbackLoop ext rest (S n)
        end
  end.

(** The events of a batch and the final counters ([None] when the loop
    that counts did not run). *)
Definition downloadAllFiles (ext : Extension) (items : list Candidate)
  : list BatchEvent * option (nat * nat) :=
  match storedMode ext with
  | Some mode =>
      let '(t, (successCount, failCount)) := batchLoop ext mode items 0 0 0 in
      (t ++ [if 0 <? successCount
             then Feedback (DownloadedCount successCount (length items)) true
             else Feedback FailedText false],
       Some (successCount, failCount))
  | None =>
      (Feedback FailedText false :: fallbackLoop ext items 0, None)
  end.

End Content.

(** ** Messages between the service worker and the offscreen page *)

Module Wire.

(** What the offscreen page receives on the port named [ffmpeg]. *)
Record PortRequest : Type := {
  rq_type : option jsstring;
  rq_srcUrl : option jsstring;
  rq_outBase : option jsstring
}.

(** What the offscreen page posts back on the port. *)
Record PortReply : Type := {
  reply_ok : bool;
  reply_error : jsstring
}.

(** A message of [chrome.runtime.sendMessage], with the fields the
    service worker reads.  [rm_audioBytes] is [Some] for a JavaScript
    array, whose elements are numbers; an array of integers goes through
    the serialization of the message unchanged. *)
Record RuntimeMessage : Type := {
  rm_type : jsstring;
  rm_ok : bool;
  rm_filename : option jsstring;
  rm_audioBytes : option (list Z);
  rm_error : option jsstring
}.

Definition TRANSCODE_TO_WAV : jsstring := lit "FFMPEG_TRANSCODE_TO_WAV".
Definition TRANSCODE_COMPLETE : jsstring := lit "FFMPEG_TRANSCODE_COMPLETE".

End Wire.

Import Wire.

(** ** [offscreen.js] *)

Module Offscreen.

(** A thrown value: [error.constructor.name] and [error.message]. *)
Record Error : Type := {
  err_name : jsstring;
  err_message : jsstring
}.

(** [new Error(message)] *)
Definition newError (message : jsstring) : Error :=
  {| err_name := lit "Error"; err_message := message |}.

(** *** The body of the load *)

Inductive Probe : Type :=
| ProbeRejected (e : Error)
| ProbeResponse (ok : bool) (status statusText : jsstring).

(** [ffmpeg.load] against the timer of 60 seconds: it resolves, it
    rejects, or the timer fires first. *)
Inductive EngineLoad : Type :=
| EngineLoaded
| EngineThrew (e : Error)
| EngineSilent.

(** The outcomes of what one load attempt awaits.  The worker script is
    not probed: [USE_MULTITHREAD] is [false] and [workerURL] is
    [undefined]. *)
Record LoadWorld : Type := {
  coreProbe : Probe;            (* fetch(coreURL) of the pre-flight loop *)
  wasmProbe : Probe;            (* fetch(wasmURL) of the pre-flight loop *)
  wasmBuffer : Error + N;       (* the second fetch of wasmURL and its
                                   arrayBuffer(): the byte length *)
  wasmCompile : option Error;   (* WebAssembly.compile *)
  engineLoad : EngineLoad
}.

Definition checkProbe (name : jsstring) (p : Probe) : option Error :=
  let inaccessible (message : jsstring) :=
    newError (lit "Core file " ++ name ++ lit " is not accessible: " ++ message) in
  match p with
  | ProbeRejected e => Some (inaccessible (err_message e))
  | ProbeResponse ok status statusText =>
      if ok then None
      else Some (inaccessible (lit "HTTP " ++ status ++ lit ": " ++ statusText))
  end.

Definition precompile (w : LoadWorld) : option Error :=
  let invalid (message : jsstring) :=
    newError (lit "WASM file is invalid: " ++ message) in
  match wasmBuffer w with
  | inl e => Some (invalid (err_message e))
  | inr byteLength =>
      if (byteLength =? 0)%N then Some (invalid (lit "WASM file is empty"))
      else match wasmCompile w with
           | Some e => Some (invalid (err_message e))
           | None => None
           end
  end.

(** The [try] block of the cached promise: [None] when it reaches
    [loaded = true], the error it rethrows otherwise. *)
Definition loadBody (w : LoadWorld) : option Error :=
  match checkProbe (lit "coreURL") (coreProbe w) with
  | Some e => Some e
  | None =>
      match checkProbe (lit "wasmURL") (wasmProbe w) with
      | Some e => Some e
      | None =>
          match precompile w with
          | Some e => Some e
          | None =>
              match engineLoad w with
              | EngineLoaded => None
              | EngineThrew e => Some e
              | EngineSilent =>
                  Some (newError (lit "FFmpeg load timeout after 60 seconds"))
              end
          end
      end
  end.

(** *** [loadFFmpeg] and the cached promise *)

Inductive PromiseState : Type :=
| Pending
| Fulfilled
| RejectedWith (e : Error).

(** The two globals [loaded] and [loadPromise] ([None] is [null]), the
    callers suspended at an [await loadPromise], and what has been
    observed: how many times the body of the load was started, and the
    calls of [loadFFmpeg] that completed, in order, each with [None]
    for a normal return or the error thrown. *)
Record Engine : Type := {
  loaded : bool;
  loadPromise : option PromiseState;
  awaiting : list nat;
  attempts : nat;
  completed : list (nat * option Error)
}.

Definition unloaded : Engine :=
  {| loaded := false; loadPromise := None; awaiting := [];
     attempts := 0; completed := [] |}.

Definition complete (caller : nat) (r : option Error) (e : Engine) : Engine :=
  {| loaded := loaded e; loadPromise := loadPromise e;
     awaiting := awaiting e; attempts := attempts e;
     completed := completed e ++ [(caller, r)] |}.

Definition suspend (caller : nat) (e : Engine) : Engine :=
  {| loaded := loaded e; loadPromise := loadPromise e;
     awaiting := awaiting e ++ [caller]; attempts := attempts e;
     completed := completed e |}.

(** A call of [loadFFmpeg] by [caller], up to its first suspension. *)
Definition loadFFmpeg (caller : nat) (e : Engine) : Engine :=
  if loaded e then complete caller None e
  else
    match loadPromise e with
    | Some Pending => suspend caller e
    | Some Fulfilled => complete caller None e
    | Some (RejectedWith err) => complete caller (Some err) e
    | None =>
        suspend caller
          {| loaded := loaded e; loadPromise := Some Pending;
             awaiting := awaiting e; attempts := S (attempts e);
             completed := completed e |}
    end.

(** The load in flight runs to its end in world [w]: on success
    [loaded] is set and the promise fulfils; on failure [loadPromise] is
    reset to [null] and the promise rejects.  Either way every caller
    suspended on that promise resumes with its outcome. *)
Definition settleLoad (w : LoadWorld) (e : Engine) : Engine :=
  match loadPromise e with
  | Some Pending =>
      let r := loadBody w in
      {| loaded := match r with None => true | Some _ => loaded e end;
         loadPromise := match r with None => Some Fulfilled | Some _ => None end;
         awaiting := [];
         attempts := attempts e;
         completed := completed e ++ map (fun c => (c, r)) (awaiting e) |}
  | _ => e
  end.

Inductive LoadEvent : Type :=
| Call (caller : nat)
| Settle (w : LoadWorld).

Definition loadStep (e : Engine) (ev : LoadEvent) : Engine :=
  match ev with
  | Call caller => loadFFmpeg caller e
  | Settle w => settleLoad w e
  end.

Definition loadRun (evs : list LoadEvent) (e : Engine) : Engine :=
  fold_left loadStep evs e.

(** What holds of the two globals in every state the page can reach: the
    cached promise is never a rejected one, [loaded] tells that it is
    fulfilled, and callers wait only on a pending promise. *)
Definition consistent (e : Engine) : Prop :=
  match loadPromise e with
  | None => loaded e = false /\ awaiting e = []
  | Some Pending => loaded e = false
  | Some Fulfilled => loaded e = true /\ awaiting e = []
  | Some (RejectedWith _) => False
  end.

(** *** The listener of the port *)

Inductive FetchResult : Type :=
| FetchRejected (e : Error)
| FetchResponse (ok : bool) (status statusText : jsstring)
                (body : Error + Uint8Array).

(** The outcomes of what one job awaits. *)
Record JobWorld : Type := {
  sourceFetch : FetchResult;       (* fetch(srcUrl), response.arrayBuffer() *)
  ffmpegLoad : option Error;       (* await loadFFmpeg() *)
  writeFile : option Error;        (* ffmpeg.writeFile *)
  exec : Error + Z;                (* ffmpeg.exec: its exit code *)
  readFile : Error + Uint8Array;   (* ffmpeg.readFile *)
  deleteIn : option Error;         (* ffmpeg.deleteFile(inName) *)
  deleteOut : option Error         (* ffmpeg.deleteFile(outName) *)
}.

Inductive Effect : Type :=
| FetchSource (srcUrl : jsstring)
| LoadFFmpeg
| WriteFile (name : jsstring) (data : Uint8Array)
| Exec (args : list jsstring)
| ReadFile (name : jsstring)
| DeleteFile (name : jsstring)
| PortPostMessage (reply : PortReply)
| RuntimeSendMessage (message : RuntimeMessage)
| PortDisconnect.

(** Effects performed so far, and a value or the exception thrown. *)
Definition Job (A : Type) : Type := list Effect * (Error + A).

Definition done {A} (a : A) : Job A := ([], inr a).
Definition raise {A} (e : Error) : Job A := ([], inl e).
Definition andThen {A B} (m : Job A) (k : A -> Job B) : Job B :=
  match m with
  | (t, inr a) => let (t', r) := k a in (t ++ t', r)
  | (t, inl e) => (t, inl e)
  end.
Definition tryCatch {A} (m : Job A) (handler : Error -> Job A) : Job A :=
  match m with
  | (t, inr a) => (t, inr a)
  | (t, inl e) => let (t', r) := handler e in (t ++ t', r)
  end.

Declare Scope job_scope.
Delimit Scope job_scope with job.
Notation "x <- m ;; k" := (andThen m (fun x => k))
  (at level 61, m at next level, right associativity) : job_scope.
Notation "m ;; k" := (andThen m (fun _ => k))
  (at level 61, right associativity) : job_scope.
Local Open Scope job_scope.

(** An awaited operation: its effect, then its outcome. *)
Definition await {A} (eff : Effect) (r : Error + A) : Job A := ([eff], r).
Definition awaitUnit (eff : Effect) (r : option Error) : Job unit :=
  ([eff], match r with Some e => inl e | None => inr tt end).
Definition perform (eff : Effect) : Job unit := ([eff], inr tt).

Definition failure (message : jsstring) : PortReply :=
  {| reply_ok := false; reply_error := message |}.

(** The first [try] block: fetch the source and read its body. *)
Definition fetchAudio (w : JobWorld) (srcUrl : jsstring) : Job Uint8Array :=
  await (FetchSource srcUrl)
    match sourceFetch w with
    | FetchRejected e => inl e
    | FetchResponse ok status statusText body =>
        if ok then body
        else inl (newError (lit "Fetch failed: " ++ status ++ lit " " ++ statusText))
    end.

Definition inName : jsstring := lit "in.bin".

(** The name of the output: [msg.outBase], or [audio] when it is missing
    or empty, followed by [.wav]. *)
Definition outNameOf (msg : PortRequest) : jsstring :=
  match rq_outBase msg with
  | Some (c :: base) => (c :: base) ++ lit ".wav"
  | _ => lit "audio.wav"
  end.

Definition execArguments (outName : jsstring) : list jsstring :=
  [lit "-i"; inName; lit "-vn"; lit "-ac"; lit "1"; lit "-ar"; lit "48000";
   lit "-sample_fmt"; lit "s16"; lit "-y"; outName].

(** [Array.from(out)] *)
Definition arrayFrom (out : Uint8Array) : list Z :=
  map (fun b => Z.of_N (Byte.to_N b)) out.

Definition completion (outName : jsstring) (out : Uint8Array) : RuntimeMessage :=
  {| rm_type := TRANSCODE_COMPLETE;
     rm_ok := true;
     rm_filename := Some outName;
     rm_audioBytes := Some (arrayFrom out);
     rm_error := None |}.

(** The second [try] block with its [catch]. *)
Definition transcode (w : JobWorld) (msg : PortRequest) (audioBytes : Uint8Array)
  : Job unit :=
  let outName := outNameOf msg in
  tryCatch
    (awaitUnit LoadFFmpeg (ffmpegLoad w) ;;
     awaitUnit (WriteFile inName audioBytes) (writeFile w) ;;
     _ <- await (Exec (execArguments outName)) (exec w) ;;
     out <- await (ReadFile outName) (readFile w) ;;
     tryCatch
       (awaitUnit (DeleteFile inName) (deleteIn w) ;;
        awaitUnit (DeleteFile outName) (deleteOut w))
       (fun _ => done tt) ;;
     perform (RuntimeSendMessage (completion outName (out : Uint8Array))) ;;
     perform PortDisconnect)
    (fun error =>
       perform (DeleteFile inName) ;;
       perform (DeleteFile outName) ;;
       perform (PortPostMessage
                  (failure (err_name error ++ lit ": " ++ err_message error)))).

(** The listener of [port.onMessage]: the effects of one message. *)
Definition onPortMessage (w : JobWorld) (msg : PortRequest) : list Effect :=
  match rq_type msg with
  | Some t =>
      if JS.eqb t TRANSCODE_TO_WAV then
        match rq_srcUrl msg with
        | Some (c :: u) =>
            let srcUrl := c :: u in
            match fetchAudio w srcUrl with
            | (t1, inl fetchError) =>
                t1 ++ [PortPostMessage
                         (failure (lit "Failed to fetch audio: "
                                   ++ err_message fetchError))]
            | (t1, inr audioBytes) =>
                match audioBytes with
                | [] =>
                    t1 ++ [PortPostMessage
                             (failure (lit "No audio data received after fetch"))]
                | _ :: _ => t1 ++ fst (transcode w msg audioBytes)
                end
            end
        | _ => [PortPostMessage (failure (lit "No audio URL provided"))]
        end
      else [PortPostMessage (failure (lit "Unknown message type"))]
  | None => [PortPostMessage (failure (lit "Unknown message type"))]
  end.

(** The runtime messages among the effects, in order. *)
Definition broadcasts (effects : list Effect) : list RuntimeMessage :=
  flat_map (fun eff => match eff with
                       | RuntimeSendMessage m => [m]
                       | _ => []
                       end) effects.

(** The effects that touch the engine. *)
Definition usesEngine (eff : Effect) : bool :=
  match eff with
  | LoadFFmpeg | WriteFile _ _ | Exec _ | ReadFile _ | DeleteFile _ => true
  | _ => false
  end.

(** The source cannot be used: the fetch rejects, the status is not ok,
    the body cannot be read, or the body is empty. *)
Definition sourceUnusable (w : JobWorld) : bool :=
  match sourceFetch w with
  | FetchRejected _ => true
  | FetchResponse ok _ _ body =>
      negb ok || match body with
                 | inl _ => true
                 | inr [] => true
                 | inr (_ :: _) => false
                 end
  end.

(** A request the listener takes up. *)
Definition request (srcUrl outBase : jsstring) : PortRequest :=
  {| rq_type := Some TRANSCODE_TO_WAV;
     rq_srcUrl := Some srcUrl;
     rq_outBase := Some outBase |}.

End Offscreen.

(** ** [background.js]: the transcode coordinator *)

Module Coordinator.

(** How the promise of [transcodeToWav] settles. *)
Inductive Settlement : Type :=
| Resolved (filename : option jsstring) (arrayBuffer : Uint8Array)
| Rejected (message : jsstring).

(** The conversion of a number to an element of a [Uint8Array]: modulo
    256. *)
Definition toUint8 (z : Z) : Byte.byte :=
  match Byte.of_N (Z.to_N (z mod 256)) with
  | Some b => b
  | None => Byte.x00
  end.

(** [new Uint8Array(audioBytes)] *)
Definition newUint8Array (audioBytes : list Z) : Uint8Array :=
  map toUint8 audioBytes.

Definition timeoutMessage : jsstring :=
  lit "Transcoding timeout - FFmpeg load or conversion took too long".

(** The body of [messageListener] for a message of type
    [FFMPEG_TRANSCODE_COMPLETE]: what it resolves or rejects with. *)
Definition settlementOf (message : RuntimeMessage) : Settlement :=
  if negb (rm_ok message) then
    Rejected (match rm_error message with
              | Some (c :: e) => c :: e
              | _ => lit "Transcode failed"
              end)
  else
    match rm_audioBytes message with
    | Some (b :: bs) => Resolved (rm_filename message) (newUint8Array (b :: bs))
    | _ => Rejected (lit "Invalid audio data received from conversion")
    end.

(** One call of [transcodeToWav]: its timer ([None] once cleared or
    fired), whether its [messageListener] is registered, and how its
    promise has settled, if it has. *)
Record Transcode : Type := {
  timer : option Z;
  listening : bool;
  settled : option Settlement
}.

(** [resolve] and [reject] act on a pending promise only. *)
Definition settle (s : Settlement) (j : Transcode) : Transcode :=
  {| timer := timer j;
     listening := listening j;
     settled := match settled j with Some old => Some old | None => Some s end |}.

(** The callback of [setTimeout]: it rejects, and leaves the listener
    registered. *)
Definition fire (t : Z) (j : Transcode) : Transcode :=
  match timer j with
  | Some due =>
      if (due <=? t)%Z
      then settle (Rejected timeoutMessage)
             {| timer := None; listening := listening j; settled := settled j |}
      else j
  | None => j
  end.

(** [messageListener]: on a completion message it clears the timer,
    removes itself and settles; it ignores any other message. *)
Definition messageListener (message : RuntimeMessage) (j : Transcode) : Transcode :=
  if listening j && JS.eqb (rm_type message) TRANSCODE_COMPLETE
  then settle (settlementOf message)
         {| timer := None; listening := false; settled := settled j |}
  else j.

(** The answer to the ping: none within 5 seconds, a runtime error, or
    a response with its [ready] and [loaded] fields ([None] for a
    response that is [undefined]). *)
Inductive Ping : Type :=
| PingTimeout
| PingError (message : jsstring)
| PingResponse (response : option (bool * bool)).

(** The service worker: its clock in milliseconds, the global
    [offscreenReady], the calls of [transcodeToWav] in order, and the
    requests posted on ports. *)
Record Worker : Type := {
  clock : Z;
  offscreenReady : bool;
  transcodes : list Transcode;
  posted : list PortRequest
}.

Definition initial : Worker :=
  {| clock := 0; offscreenReady := false; transcodes := []; posted := [] |}.

(** [ensureOffscreenAndReady]: the new value of [offscreenReady] and
    [None] when it resolves, the message of the error when it rejects.
    [created] tells that [createDocument] made a new document. *)
Definition ensureOffscreenAndReady (created : bool) (ping : Ping) (ready : bool)
  : bool * option jsstring :=
  let ready := if created then false else ready in
  match ping with
  | PingTimeout =>
      (ready, Some (lit "Offscreen document failed to respond within 5 seconds"))
  | PingError message =>
      (ready, Some (lit "Offscreen ping failed: " ++ message))
  | PingResponse (Some (true, _)) => (true, None)
  | PingResponse _ => (ready, Some (lit "Offscreen document not ready"))
  end.

Definition transcodeDeadline : Z := 90000.

(** [transcodeToWav(audioUrl, baseName)]: when the page is ready, a
    timer of 90 seconds is armed, the listener is registered and the
    request is posted; otherwise the promise rejects at once. *)
Definition transcodeToWav (created : bool) (ping : Ping)
    (audioUrl baseName : jsstring) (w : Worker) : Worker :=
  match ensureOffscreenAndReady created ping (offscreenReady w) with
  | (ready, None) =>
      {| clock := clock w;
         offscreenReady := ready;
         transcodes := transcodes w ++
           [{| timer := Some (clock w + transcodeDeadline)%Z;
               listening := true;
               settled := None |}];
         posted := posted w ++
           [{| rq_type := Some TRANSCODE_TO_WAV;
               rq_srcUrl := Some audioUrl;
               rq_outBase := Some baseName |}] |}
  | (ready, Some message) =>
      {| clock := clock w;
         offscreenReady := ready;
         transcodes := transcodes w ++
           [{| timer := None; listening := false;
               settled := Some (Rejected message) |}];
         posted := posted w |}
  end.

Inductive Event : Type :=
| Dispatch (created : bool) (ping : Ping) (audioUrl baseName : jsstring)
| Elapse (t : Z)                       (* the clock reaches [t] *)
| OnMessage (message : RuntimeMessage) (* a runtime message arrives *)
| OnPortMessage (reply : PortReply).   (* a message arrives on a port *)

(** No listener is ever added to a port of the service worker, so a
    message on a port changes nothing. *)
Definition step (w : Worker) (ev : Event) : Worker :=
  match ev with
  | Dispatch created ping audioUrl baseName =>
      transcodeToWav created ping audioUrl baseName w
  | Elapse t =>
      {| clock := Z.max (clock w) t;
         offscreenReady := offscreenReady w;
         transcodes := map (fire t) (transcodes w);
         posted := posted w |}
  | OnMessage message =>
      {| clock := clock w;
         offscreenReady := offscreenReady w;
         transcodes := map (messageListener message) (transcodes w);
         posted := posted w |}
  | OnPortMessage _ => w
  end.

Definition run (evs : list Event) (w : Worker) : Worker :=
  fold_left step evs w.

(** How the [id]-th call of [transcodeToWav] has settled. *)
Definition settledAt (id : nat) (w : Worker) : option Settlement :=
  match nth_error (transcodes w) id with
  | Some j => settled j
  | None => None
  end.

(** What the offscreen page emits, as events of the service worker. *)
Definition arrivals (effects : list Offscreen.Effect) : list Event :=
  flat_map (fun eff =>
              match eff with
              | Offscreen.RuntimeSendMessage m => [OnMessage m]
              | Offscreen.PortPostMessage r => [OnPortMessage r]
              | _ => []
              end) effects.

(** What an event does to one call of [transcodeToWav] already made. *)
Definition jobStep (ev : Event) (j : Transcode) : Transcode :=
  match ev with
  | Elapse t => fire t j
  | OnMessage message => messageListener message j
  | _ => j
  end.

Definition jobRun (evs : list Event) (j : Transcode) : Transcode :=
  fold_left (fun j ev => jobStep ev j) evs j.

(** An event that is not the arrival of a completion message. *)
Definition quiet (ev : Event) : bool :=
  match ev with
  | OnMessage message => negb (JS.eqb (rm_type message) TRANSCODE_COMPLETE)
  | _ => true
  end.

(** The clock reaches [due] during [evs]. *)
Definition reaches (due : Z) (evs : list Event) : bool :=
  existsb (fun ev => match ev with
                     | Elapse t => (due <=? t)%Z
                     | _ => false
                     end) evs.

(** A ping answered by a page that is ready; [engineLoaded] is the
    [loaded] field of the answer, [false] when the next job is the
    first one after a load. *)
Definition readyPing (engineLoaded : bool) : Ping :=
  PingResponse (Some (true, engineLoaded)).

End Coordinator.

(** ** Reading a batch *)

Module Batch.
Import Content.

(** How the messages of a batch settle, in order, when the first of
    them is the [n]-th message. *)
Fixpoint batchOutcomes (ext : Extension) (mode : jsstring)
    (items : list Candidate) (n : nat) : list SendOutcome :=
  match items with
  | [] => []
  | item :: rest =>
      answer ext n (messageFor mode item) (timeoutFor mode)
      :: batchOutcomes ext mode rest (S n)
  end.

(** A request fails when its message rejects or its response is not
    ok. *)
Definition failures (os : list SendOutcome) : nat :=
  length (filter (fun o => negb (responseOk o)) os).

(** One request after the other: each message is sent and has settled
    before the next is sent. *)
Fixpoint inSequence (mode : jsstring) (items : list Candidate)
    (os : list SendOutcome) : list BatchEvent :=
  match items, os with
  | item :: rest, o :: os' =>
      Sent (messageFor mode item) (timeoutFor mode) :: Settled o
      :: inSequence mode rest os'
  | _, _ => []
  end.

Definition report (successCount total : nat) : BatchEvent :=
  if 0 <? successCount
  then Feedback (DownloadedCount successCount total) true
  else Feedback FailedText false.

(** The message rejected, which is what reaches a [catch]. *)
Definition rejected (o : SendOutcome) : bool :=
  match o with
  | SendRejected _ => true
  | SendResolved _ => false
  end.

End Batch.

(** ** Sample inputs *)

Module Samples.
Import Content.

(** An Ogg file as the wiki describes it: the MIME type
    [application/ogg] is not one of [audioMimeTypes]. *)
Definition waterUrl : jsstring :=
  lit "https://upload.wikimedia.org/wikipedia/commons/a/a1/En-us-water.ogg".

Definition waterInfo : ImageInfo :=
  {| ii_url := Some waterUrl;
     ii_mime := Some (lit "application/ogg");
     ii_extmetadata := None |}.

Definition waterPage : Page :=
  {| pg_title := Some (lit "File:En-us-water.ogg");
     pg_imageinfo := [waterInfo] |}.

Definition waterCandidate : Candidate :=
  {| title := Some (lit "File:En-us-water.ogg");
     url := waterUrl;
     filename := lit "En-us-water.ogg";
     license := [] |}.

(** A wiki whose media list names that file and whose queries return
    its page. *)
Definition waterWiki : Wiki :=
  {| mediaList := fun _ =>
       Response true
         (Some (Some [{| it_title := Some (lit "File:En-us-water.ogg");
                         it_audio_type := Some (lit "generic") |}]));
     imageInfoQuery := fun _ => Response true (Some [waterPage]);
     generatorQuery := fun _ => Response true (Some [waterPage]) |}.

(** A wiki whose media list is empty. *)
Definition bareWiki : Wiki :=
  {| mediaList := fun _ => Response true (Some (Some []));
     imageInfoQuery := fun _ => Response true (Some []);
     generatorQuery := fun _ => Response true (Some [waterPage]) |}.

(** A page of the wiki served as HTML. *)
Definition htmlInfo : ImageInfo :=
  {| ii_url := Some (lit "https://en.wiktionary.org/wiki/water");
     ii_mime := Some (lit "text/html");
     ii_extmetadata := None |}.

(** Five bytes of a buffer. *)
Definition sampleBytes : Uint8Array :=
  [Byte.x4d; Byte.x61; Byte.x6e; Byte.xff; Byte.x00].

(** Three candidates, the second of which cannot be converted. *)
Definition threeItems : list Candidate :=
  [waterCandidate; waterCandidate; waterCandidate].

Definition secondFails : Extension :=
  {| storedMode := Some (lit "convert");
     answer := fun n _ _ =>
       match n with
       | 1 => SendResolved (Some false)
       | _ => SendResolved (Some true)
       end |}.

(** An extension whose settings cannot be read, and whose second
    message times out. *)
Definition modeUnreadable : Extension :=
  {| storedMode := None;
     answer := fun n _ _ =>
       match n with
       | 1 => SendRejected MessageTimeout
       | _ => SendResolved (Some true)
       end |}.

(** An extension in original mode on which every download is answered
    as failed. *)
Definition allFail : Extension :=
  {| storedMode := Some (lit "original");
     answer := fun _ _ _ => SendResolved (Some false) |}.

(** A job whose source answers 404. *)
Definition notFound : Offscreen.JobWorld :=
  {| Offscreen.sourceFetch :=
       Offscreen.FetchResponse false (lit "404") (lit "Not Found") (inr []);
     Offscreen.ffmpegLoad := None;
     Offscreen.writeFile := None;
     Offscreen.exec := inr 0%Z;
     Offscreen.readFile := inr [];
     Offscreen.deleteIn := None;
     Offscreen.deleteOut := None |}.

Definition sourceBytes : Uint8Array := [Byte.x4f; Byte.x67; Byte.x67; Byte.x53].
Definition wavBytes : Uint8Array :=
  [Byte.x52; Byte.x49; Byte.x46; Byte.x46; Byte.x00; Byte.xff; Byte.x80].

(** A job on which every step succeeds. *)
Definition converts : Offscreen.JobWorld :=
  {| Offscreen.sourceFetch :=
       Offscreen.FetchResponse true (lit "200") (lit "OK") (inr sourceBytes);
     Offscreen.ffmpegLoad := None;
     Offscreen.writeFile := None;
     Offscreen.exec := inr 0%Z;
     Offscreen.readFile := inr wavBytes;
     Offscreen.deleteIn := None;
     Offscreen.deleteOut := None |}.

Definition waterRequest : PortRequest :=
  Offscreen.request waterUrl (lit "En-us-water").

(** The service worker after a first dispatch, at time 0, to a page
    whose engine is not loaded yet. *)
Definition coldDispatch : Coordinator.Worker :=
  Coordinator.transcodeToWav true (Coordinator.readyPing false)
    waterUrl (lit "En-us-water") Coordinator.initial.

Definition lateCompletion : RuntimeMessage :=
  Offscreen.completion (lit "En-us-water.wav") wavBytes.

(** A load in which every step succeeds, and one whose engine never
    answers. *)
Definition loads : Offscreen.LoadWorld :=
  {| Offscreen.coreProbe := Offscreen.ProbeResponse true (lit "200") (lit "OK");
     Offscreen.wasmProbe := Offscreen.ProbeResponse true (lit "200") (lit "OK");
     Offscreen.wasmBuffer := inr 32000000%N;
     Offscreen.wasmCompile := None;
     Offscreen.engineLoad := Offscreen.EngineLoaded |}.

Definition hangs : Offscreen.LoadWorld :=
  {| Offscreen.coreProbe := Offscreen.ProbeResponse true (lit "200") (lit "OK");
     Offscreen.wasmProbe := Offscreen.ProbeResponse true (lit "200") (lit "OK");
     Offscreen.wasmBuffer := inr 32000000%N;
     Offscreen.wasmCompile := None;
     Offscreen.engineLoad := Offscreen.EngineSilent |}.

End Samples.

(** ** Reading the effects of a job and the events of a load *)

Module Observed.
Import Offscreen.

(** An answer to the service worker: a reply on the port or a runtime
    message. *)
Definition isReply (eff : Effect) : bool :=
  match eff with
  | PortPostMessage _ | RuntimeSendMessage _ => true
  | _ => false
  end.

(** The world [w] with another exit code of [ffmpeg.exec]. *)
Definition withExitCode (code : Z) (w : JobWorld) : JobWorld :=
  {| sourceFetch := sourceFetch w;
     ffmpegLoad := ffmpegLoad w;
     writeFile := writeFile w;
     exec := inr code;
     readFile := readFile w;
     deleteIn := deleteIn w;
     deleteOut := deleteOut w |}.

(** The [try] block of [transcode] runs to its end. *)
Definition converted (w : JobWorld) : bool :=
  match ffmpegLoad w, writeFile w, exec w, readFile w with
  | None, None, inr _, inr _ => true
  | _, _, _, _ => false
  end.

(** The loads of [evs] that end in an error. *)
Definition failedSettles (evs : list LoadEvent) : nat :=
  length (filter (fun ev => match ev with
                            | Settle w => match loadBody w with
                                          | Some _ => true
                                          | None => false
                                          end
                            | Call _ => false
                            end) evs).

(** The callers of [evs], in order. *)
Definition callers (evs : list LoadEvent) : list nat :=
  flat_map (fun ev => match ev with Call c => [c] | Settle _ => [] end) evs.

End Observed.

(** ** The readiness probe *)

Module Readiness.
Import Coordinator.

Definition OFFSCREEN_PING : jsstring := lit "OFFSCREEN_PING".

(** [offscreen.js]: the listener of runtime messages.  A ping is answered
    with [ready: true] and the value of [loaded]; any other message gets
    no answer from the page ([None]). *)
Definition onRuntimeMessage (msgType : option jsstring) (e : Offscreen.Engine)
  : option (bool * bool) :=
  match msgType with
  | Some t => if JS.eqb t OFFSCREEN_PING then Some (true, Offscreen.loaded e) else None
  | None => None
  end.

(** The answer lets [ensureOffscreenAndReady] resolve. *)
Definition pingAccepted (ping : Ping) : bool :=
  match ping with
  | PingResponse (Some (true, _)) => true
  | _ => false
  end.

(** The error [ensureOffscreenAndReady] rejects with. *)
Definition pingFailure (ping : Ping) : jsstring :=
  match ping with
  | PingTimeout => lit "Offscreen document failed to respond within 5 seconds"
  | PingError message => lit "Offscreen ping failed: " ++ message
  | PingResponse _ => lit "Offscreen document not ready"
  end.

(** The message of an event is a completion. *)
Definition isCompletion (message : RuntimeMessage) : bool :=
  JS.eqb (rm_type message) TRANSCODE_COMPLETE.

End Readiness.

(** ** The shape of a file name *)

Module NameShape.
Import Background.

(** Every white-space unit of [s] is a plain space, and no two of them
    are next to each other. *)
Fixpoint singleSpaced (s : jsstring) : bool :=
  match s with
  | [] => true
  | c :: r =>
      (negb (isSpace c)
       || ((c =? 32)%N && match r with
                          | d :: _ => negb (isSpace d)
                          | [] => true
                          end))
      && singleSpaced r
  end.

(** The first unit of [s] satisfies [p]. *)
Definition startsWith (p : N -> bool) (s : jsstring) : bool :=
  match s with
  | c :: _ => p c
  | [] => false
  end.

(** A name [sanitizeFilename] has nothing to do on: no invalid character,
    single spaces only, no white space at either end, no leading dot, and
    at most 255 code units. *)
Definition clean (s : jsstring) : Prop :=
  Forall (fun c => isInvalidChar c = false) s
  /\ singleSpaced s = true
  /\ startsWith isSpace s = false
  /\ startsWith isSpace (rev s) = false
  /\ startsWith (N.eqb 46) s = false
  /\ length s <= 255.

End NameShape.

(** ** [background.js]: the listener of download requests *)

Module Handler.
Import Background Coordinator.

(** The message a page sends.  The content script always gives [url] and
    [originalFilename] as strings; [mode] is whatever the settings
    hold. *)
Record ClientMessage : Type := {
  cm_type : option jsstring;
  cm_url : jsstring;
  cm_originalFilename : jsstring;
  cm_mode : option jsstring
}.

Definition DOWNLOAD_AUDIO : jsstring := lit "DOWNLOAD_AUDIO".

(** The outcomes of what the listener awaits: how [transcodeToWav]
    settles, whether [chrome.downloads.download] rejects, and the
    argument limit of the engine that [arrayBufferToBase64] runs on. *)
Record HandlerWorld : Type := {
  transcodeResult : Settlement;
  downloadError : option Offscreen.Error;
  maxArguments : N
}.

Inductive HandlerEffect : Type :=
| CallTranscode (audioUrl baseName : jsstring)
| CallDownload (url filename : jsstring) (saveAs : option bool)
| Respond (ok : bool) (error : option jsstring).

(** The first [replace] of the listener: a dot followed by one or more
    units other than a dot, at the very end of the name, is removed.
    Only the last dot of the name can start such a match. *)
Definition stripExtension (name : jsstring) : jsstring :=
  let r := rev name in
  match takeWhile (fun c => negb (c =? 46)%N) r,
        dropWhile (fun c => negb (c =? 46)%N) r with
  | _ :: _, _ :: stem => rev stem
  | _, _ => name
  end.

(** [String(e)] for an error object. *)
Definition errorToString (e : Offscreen.Error) : jsstring :=
  match Offscreen.err_name e, Offscreen.err_message e with
  | [], message => message
  | name, [] => name
  | name, message => name ++ lit ": " ++ message
  end.

Definition dataUrlOf (base64 : jsstring) : jsstring :=
  lit "data:audio/wav;base64," ++ base64.

(** The errors the engine raises by itself, with the texts of V8. *)
Definition stackOverflow : Offscreen.Error :=
  {| Offscreen.err_name := lit "RangeError";
     Offscreen.err_message := lit "Maximum call stack size exceeded" |}.

Definition replaceOfUndefined : Offscreen.Error :=
  {| Offscreen.err_name := lit "TypeError";
     Offscreen.err_message :=
       lit "Cannot read properties of undefined (reading 'replace')" |}.

(** The [try] block of convert mode, after [transcodeToWav] has settled:
    the effects, and the exception if one leaves the block. *)
Definition afterTranscode (hw : HandlerWorld)
  : list HandlerEffect * option Offscreen.Error :=
  match transcodeResult hw with
  | Rejected message => ([], Some (Offscreen.newError message))
  | Resolved filename arrayBuffer =>
      match arrayBuffer with
      | [] =>
          ([], Some (Offscreen.newError
                       (lit "Invalid audio data received from conversion")))
      | _ :: _ =>
          match arrayBufferToBase64 (maxArguments hw) arrayBuffer with
          | None => ([], Some stackOverflow)
          | Some base64 =>
              match filename with
              | None => ([], Some replaceOfUndefined)
              | Some name =>
                  ([CallDownload (dataUrlOf base64) (sanitizeFilename name)
                      (Some false)],
                   downloadError hw)
              end
          end
      end
  end.

(** The body of the listener, before the final [catch]. *)
Definition handle (hw : HandlerWorld) (msg : ClientMessage)
  : list HandlerEffect * option Offscreen.Error :=
  match cm_type msg with
  | Some t =>
      if JS.eqb t DOWNLOAD_AUDIO then
        let base := sanitizeFilename (stripExtension (cm_originalFilename msg)) in
        if match cm_mode msg with
           | Some mode => JS.eqb mode (lit "convert")
           | None => false
           end
        then
          match afterTranscode hw with
          | (t1, Some e) => (CallTranscode (cm_url msg) base :: t1, Some e)
          | (t1, None) =>
              (CallTranscode (cm_url msg) base :: t1 ++ [Respond true None], None)
          end
        else
          let sanitizedOriginal := sanitizeFilename (cm_originalFilename msg) in
          match downloadError hw with
          | Some e => ([CallDownload (cm_url msg) sanitizedOriginal None], Some e)
          | None =>
              ([CallDownload (cm_url msg) sanitizedOriginal None;
                Respond true None], None)
          end
      else ([Respond false (Some (lit "Unknown message type"))], None)
  | None => ([Respond false (Some (lit "Unknown message type"))], None)
  end.

(** The listener: an exception that leaves the body is answered by the
    final [catch]. *)
Definition onMessage (hw : HandlerWorld) (msg : ClientMessage)
  : list HandlerEffect :=
  match handle hw msg with
  | (t, None) => t
  | (t, Some e) => t ++ [Respond false (Some (errorToString e))]
  end.

Definition isRespond (eff : HandlerEffect) : bool :=
  match eff with Respond _ _ => true | _ => false end.

Definition isDownload (eff : HandlerEffect) : bool :=
  match eff with CallDownload _ _ _ => true | _ => false end.

Definition isTranscode (eff : HandlerEffect) : bool :=
  match eff with CallTranscode _ _ => true | _ => false end.

(** A request to download [url], named [originalFilename], in [mode]. *)
Definition downloadRequest (url originalFilename mode : jsstring) : ClientMessage :=
  {| cm_type := Some DOWNLOAD_AUDIO;
     cm_url := url;
     cm_originalFilename := originalFilename;
     cm_mode := Some mode |}.

End Handler.

(** ** The content script: one download, feedback, language *)

Module PageUI.
Import Content.

(** *** [downloadFile] *)

Inductive FileFeedback : Type :=
| PreparingText      (* the converter is being prepared *)
| DownloadedText     (* check mark, downloaded *)
| FailedMark.        (* cross, failed *)

Inductive FileEvent : Type :=
| FileSent (message : DownloadMessage) (timeoutMs : Z)
| FileSettled (o : SendOutcome)
| FileFeedbackShown (text : FileFeedback) (isSuccess : bool).

(** The [catch] of [downloadFile]: the failure is shown, and the item is
    sent once more, in original mode with the default timeout, as the
    [n]-th message; what becomes of that message is only logged. *)
Definition fileFallback (ext : Extension) (item : Candidate) (n : nat)
  : list FileEvent :=
  let message := messageFor (lit "original") item in
  [FileFeedbackShown FailedMark false;
   FileSent message 90000%Z;
   FileSettled (answer ext n message 90000%Z)].

Definition downloadFile (ext : Extension) (item : Candidate) : list FileEvent :=
  match storedMode ext with
  | None => fileFallback ext item 0
  | Some mode =>
      let preparing :=
        if JS.eqb mode (lit "convert")
        then [FileFeedbackShown PreparingText true] else [] in
      let timeoutMs := timeoutFor mode in
      let message := messageFor mode item in
      let o := answer ext 0 message timeoutMs in
      preparing ++ FileSent message timeoutMs :: FileSettled o ::
        match o with
        | SendResolved _ =>
            [if responseOk o
             then FileFeedbackShown DownloadedText true
             else FileFeedbackShown FailedMark false]
        | SendRejected _ => fileFallback ext item 1
        end
  end.

(** The messages sent, in order. *)
Definition fileMessages (evs : list FileEvent) : list (DownloadMessage * Z) :=
  flat_map (fun ev => match ev with
                      | FileSent m t => [(m, t)]
                      | _ => []
                      end) evs.

(** *** [showDownloadFeedback] *)

(** A button with the two properties the function stores on it. *)
Record Button : Type := {
  textContent : jsstring;
  background : jsstring;
  disabled : bool;
  originalText : option jsstring;
  feedbackTimeout : option nat
}.

(** The button, the timers that are pending (identifier and time due),
    the identifier the next [setTimeout] returns, and the clock. *)
Record Screen : Type := {
  button : Button;
  timers : list (nat * Z);
  nextTimer : nat;
  time : Z
}.

Definition blue : jsstring := lit "#1a73e8".
Definition green : jsstring := lit "#34a853".
Definition red : jsstring := lit "#ea4335".

Definition clearTimeout (id : nat) (ts : list (nat * Z)) : list (nat * Z) :=
  filter (fun t => negb (fst t =? id)) ts.

Definition showDownloadFeedback (message : jsstring) (isSuccess : bool)
    (s : Screen) : Screen :=
  let b := button s in
  let ts := match feedbackTimeout b with
            | Some (S n) => clearTimeout (S n) (timers s)
            | _ => timers s
            end in
  let original := match originalText b with
                  | Some (c :: t) => Some (c :: t)
                  | _ => Some (textContent b)
                  end in
  {| button := {| textContent := message;
                  background := if isSuccess then green else red;
                  disabled := true;
                  originalText := original;
                  feedbackTimeout := Some (nextTimer s) |};
     timers := ts ++ [(nextTimer s, time s + 2000)%Z];
     nextTimer := S (nextTimer s);
     time := time s |}.

(** The callback of the timer. *)
Definition restoreButton (b : Button) : Button :=
  {| textContent := match originalText b with Some t => t | None => [] end;
     background := blue;
     disabled := false;
     originalText := None;
     feedbackTimeout := None |}.

(** The clock reaches [t]: the timers that are due fire. *)
Definition tick (t : Z) (s : Screen) : Screen :=
  {| button := fold_left (fun b _ => restoreButton b)
                 (filter (fun d => (snd d <=? t)%Z) (timers s)) (button s);
     timers := filter (fun d => negb (snd d <=? t)%Z) (timers s);
     nextTimer := nextTimer s;
     time := Z.max (time s) t |}.

Inductive ScreenEvent : Type :=
| Show (message : jsstring) (isSuccess : bool)
| Tick (t : Z).

Definition screenStep (s : Screen) (ev : ScreenEvent) : Screen :=
  match ev with
  | Show message isSuccess => showDownloadFeedback message isSuccess s
  | Tick t => tick t s
  end.

Definition screenRun (evs : list ScreenEvent) (s : Screen) : Screen :=
  fold_left screenStep evs s.

(** A button as [createUI] makes it, labelled [label], on a page whose
    next timer identifier is [next]. *)
Definition freshScreen (label : jsstring) (next : nat) (now : Z) : Screen :=
  {| button := {| textContent := label; background := blue; disabled := false;
                  originalText := None; feedbackTimeout := None |};
     timers := [];
     nextTimer := next;
     time := now |}.

(** What holds of a screen whose button started with the label [label]:
    either nothing is shown, or one feedback is, with its one timer. *)
Definition showing (label : jsstring) (s : Screen) : Prop :=
  1 <= nextTimer s
  /\ ((button s = button (freshScreen label 1 0) /\ timers s = [])
      \/ exists id due message color,
           1 <= id
           /\ button s = {| textContent := message; background := color;
                            disabled := true; originalText := Some label;
                            feedbackTimeout := Some id |}
           /\ timers s = [(id, due)]
           /\ (due <= time s + 2000)%Z).

(** *** [getCurrentLanguage] *)

Definition languages : list jsstring :=
  map lit ["en"; "de"; "fr"; "es"; "it"; "ja"; "zh"]%string.

Definition isLowerLetter (c : N) : bool := ((97 <=? c) && (c <=? 122))%N.

(** The match of the host name against the pattern: two or three
    lower-case letters, then [.wiktionary.org], and nothing else. *)
Definition hostLanguage (hostname : jsstring) : option jsstring :=
  let attempt (n : nat) :=
    let prefix := firstn n hostname in
    if (length prefix =? n) && forallb isLowerLetter prefix
       && JS.eqb (skipn n hostname) (lit ".wiktionary.org")
    then Some prefix else None in
  match attempt 3 with
  | Some prefix => Some prefix
  | None => attempt 2
  end.

Definition getCurrentLanguage (hostname : jsstring) : jsstring :=
  let lang := match hostLanguage hostname with
              | Some l => l
              | None => lit "en"
              end in
  if existsb (JS.eqb lang) languages then lang else lit "en".

End PageUI.

(** ** [popup.js] *)

Module Popup.

Record Radio : Type := {
  value : jsstring;
  checked : bool
}.

Inductive StatusKind : Type := SuccessKind | ErrorKind.

(** The status line: its text, which of the classes [success] and
    [error] it has, and whether it is displayed. *)
Record Status : Type := {
  statusText : jsstring;
  statusKind : option StatusKind;
  displayed : bool
}.

(** The popup: the radios named [mode], whether the warning has the class
    [show], the status line, the global [statusTimerId], the pending
    timers, the identifier of the next timer, and the clock. *)
Record Page : Type := {
  radios : list Radio;
  warningShown : bool;
  status : Status;
  statusTimerId : option nat;
  timers : list (nat * Z);
  nextTimer : nat;
  time : Z
}.

(** The stored settings: the value under the key [mode], if any. *)
Definition Storage := option jsstring.

(** [chrome.storage.sync.get] with the default [original]. *)
Definition storedMode (storage : Storage) : jsstring :=
  match storage with
  | Some mode => mode
  | None => lit "original"
  end.

(** The value of the first radio that is checked, [original] when none
    is. *)
Definition selectedMode (rs : list Radio) : jsstring :=
  match find checked rs with
  | Some r => value r
  | None => lit "original"
  end.

Definition uncheck (r : Radio) : Radio := {| value := value r; checked := false |}.

(** Checking the first radio whose value is [mode]: the radios share one
    name, so that all the others are unchecked. *)
Fixpoint checkFirst (mode : jsstring) (rs : list Radio) : list Radio :=
  match rs with
  | [] => []
  | r :: rest =>
      if JS.eqb (value r) mode
      then {| value := value r; checked := true |} :: map uncheck rest
      else uncheck r :: checkFirst mode rest
  end.

Definition clearTimeout (id : nat) (ts : list (nat * Z)) : list (nat * Z) :=
  filter (fun t => negb (fst t =? id)) ts.

Definition showStatus (message : jsstring) (kind : StatusKind) (duration : Z)
    (p : Page) : Page :=
  {| radios := radios p;
     warningShown := warningShown p;
     status := {| statusText := message; statusKind := Some kind;
                  displayed := true |};
     statusTimerId := Some (nextTimer p);
     timers := match statusTimerId p with
               | Some (S n) => clearTimeout (S n) (timers p)
               | _ => timers p
               end ++ [(nextTimer p, time p + duration)%Z];
     nextTimer := S (nextTimer p);
     time := time p |}.

(** The callback of the timer of [showStatus]. *)
Definition hideStatus (p : Page) : Page :=
  {| radios := radios p;
     warningShown := warningShown p;
     status := {| statusText := statusText (status p);
                  statusKind := statusKind (status p);
                  displayed := false |};
     statusTimerId := None;
     timers := timers p;
     nextTimer := nextTimer p;
     time := time p |}.

(** The clock reaches [t]: the timers that are due fire. *)
Definition tick (t : Z) (p : Page) : Page :=
  let fired :=
    fold_left (fun q _ => hideStatus q)
      (filter (fun d => (snd d <=? t)%Z) (timers p)) p in
  {| radios := radios fired;
     warningShown := warningShown fired;
     status := status fired;
     statusTimerId := statusTimerId fired;
     timers := filter (fun d => negb (snd d <=? t)%Z) (timers p);
     nextTimer := nextTimer p;
     time := Z.max (time p) t |}.

Definition updateWarningVisibility (p : Page) : Page :=
  {| radios := radios p;
     warningShown := JS.eqb (selectedMode (radios p)) (lit "convert");
     status := status p;
     statusTimerId := statusTimerId p;
     timers := timers p;
     nextTimer := nextTimer p;
     time := time p |}.

Definition withRadios (rs : list Radio) (p : Page) : Page :=
  {| radios := rs;
     warningShown := warningShown p;
     status := status p;
     statusTimerId := statusTimerId p;
     timers := timers p;
     nextTimer := nextTimer p;
     time := time p |}.

(** [loadSettings]; [getOk] tells that reading the storage succeeds. *)
Definition loadSettings (getOk : bool) (storage : Storage) (p : Page) : Page :=
  if getOk then
    let mode := storedMode storage in
    updateWarningVisibility
      (if existsb (fun r => JS.eqb (value r) mode) (radios p)
       then withRadios (checkFirst mode (radios p)) p
       else p)
  else showStatus (lit "Could not load settings") ErrorKind 3000 p.

(** [saveSettings]; [getOk] and [setOk] tell that reading and writing the
    storage succeed.  The result is the storage and the page. *)
Definition saveSettings (getOk setOk : bool) (storage : Storage) (p : Page)
  : Storage * Page :=
  let mode := selectedMode (radios p) in
  let failed := showStatus (lit "Failed to save settings") ErrorKind 3000 p in
  if getOk then
    let current := storedMode storage in
    if JS.eqb mode current then (storage, updateWarningVisibility p)
    else if setOk
         then (Some mode,
               updateWarningVisibility
                 (showStatus (lit "Settings saved!") SuccessKind 2000 p))
         else (storage, failed)
  else (storage, failed).

Inductive StatusEvent : Type :=
| ShowStatus (message : jsstring) (kind : StatusKind) (duration : Z)
| StatusTick (t : Z).

Definition statusStep (p : Page) (ev : StatusEvent) : Page :=
  match ev with
  | ShowStatus message kind duration => showStatus message kind duration p
  | StatusTick t => tick t p
  end.

Definition statusRun (evs : list StatusEvent) (p : Page) : Page :=
  fold_left statusStep evs p.

(** The popup as it opens: no status timer, identifiers from [next]. *)
Definition opened (rs : list Radio) (next : nat) (now : Z) : Page :=
  {| radios := rs;
     warningShown := false;
     status := {| statusText := []; statusKind := None; displayed := false |};
     statusTimerId := None;
     timers := [];
     nextTimer := next;
     time := now |}.

(** What holds of the status timer: none is pending and the global is
    [null], or exactly one is pending, the one the global names, and the
    status is displayed. *)
Definition oneTimer (p : Page) : Prop :=
  1 <= nextTimer p
  /\ ((statusTimerId p = None /\ timers p = [])
      \/ exists id due,
           1 <= id /\ statusTimerId p = Some id /\ timers p = [(id, due)]
           /\ displayed (status p) = true).

End Popup.

(* ================================================================== *)
(** * Properties *)

Module JSFacts.

Lemma eqb_eq a b : JS.eqb a b = true <-> a = b.
Proof.
  unfold JS.eqb. destruct (list_eq_dec N.eq_dec a b); split; congruence.
Qed.

Lemma eqb_refl a : JS.eqb a a = true.
Proof. apply eqb_eq. reflexivity. Qed.

Lemma Forall_dropWhile (P : N -> Prop) p s :
  Forall P s -> Forall P (dropWhile p s).
Proof.
  induction 1 as [|c r Hc Hr IH]; simpl; [constructor|].
  destruct (p c); [exact IH | constructor; assumption].
Qed.

Lemma Forall_substring0 (P : N -> Prop) n s :
  Forall P s -> Forall P (substring0 n s).
Proof.
  unfold substring0. intros H. revert n.
  induction H as [|c r Hc Hr IH]; intros [|n]; simpl; auto.
Qed.

Lemma Forall_trim (P : N -> Prop) s : Forall P s -> Forall P (trim s).
Proof.
  intros H. unfold trim, trimEnd, trimStart.
  apply Forall_rev, Forall_dropWhile, Forall_rev, Forall_dropWhile, H.
Qed.

End JSFacts.

(** ** Base64 of a buffer: the two methods agree *)

Module Base64Facts.
Import Background.

Lemma bytes_below_256 (bytes : Uint8Array) :
  forallb (fun c => (c <? 256)%N) (map Byte.to_N bytes) = true.
Proof.
  apply forallb_forall. intros c Hc.
  apply in_map_iff in Hc. destruct Hc as [b [<- _]].
  pose proof (Byte.to_N_bounded b). apply N.ltb_lt. lia.
Qed.

Lemma btoa_bytes (bytes : Uint8Array) :
  btoa (map Byte.to_N bytes) = Some (base64Encode (map Byte.to_N bytes)).
Proof. unfold btoa. rewrite bytes_below_256. reflexivity. Qed.

Lemma subarray_chunk (bytes : Uint8Array) i :
  subarray bytes i (i + chunkSize)
  = firstn (N.to_nat chunkSize) (skipn (N.to_nat i) bytes).
Proof. unfold subarray. f_equal. lia. Qed.

Lemma subarray_length (bytes : Uint8Array) i :
  (N.of_nat (length (subarray bytes i (i + chunkSize)))
   <= N.min chunkSize (N.of_nat (length bytes)))%N.
Proof.
  rewrite subarray_chunk, length_firstn, length_skipn. lia.
Qed.

Section WithEngine.
Variable maxArguments : N.

Lemma chunkLoop_spec bytes i binary :
  spreadable maxArguments bytes ->
  chunkLoop maxArguments bytes i binary
  = Some (binary ++ map Byte.to_N (skipn (N.to_nat i) bytes)).
Proof.
  intros Hmax. funelim (chunkLoop maxArguments bytes i binary).
  - rewrite skipn_all2 by lia. simpl. rewrite app_nil_r. reflexivity.
  - unfold fromCharCodeSpread in Heq.
    destruct (N.of_nat (length (subarray bytes i (i + chunkSize)))
              <=? maxArguments)%N; [|discriminate].
    injection Heq as <-.
    rewrite H by assumption.
    rewrite <- app_assoc, <- map_app, subarray_chunk. do 3 f_equal.
    replace (N.to_nat (i + chunkSize))
      with (N.to_nat chunkSize + N.to_nat i) by lia.
    rewrite <- skipn_skipn. apply firstn_skipn.
  - exfalso. unfold fromCharCodeSpread in Heq.
    pose proof (subarray_length bytes i) as Hlen.
    destruct (N.leb_spec
                (N.of_nat (length (subarray bytes i (i + chunkSize))))
                maxArguments) as [Hle|Hgt]; [discriminate|].
    destruct Hmax; lia.
Qed.

Lemma chunkedEncoding_spec bytes :
  spreadable maxArguments bytes ->
  chunkedEncoding maxArguments bytes
  = Some (base64Encode (map Byte.to_N bytes)).
Proof.
  intros Hmax. unfold chunkedEncoding.
  rewrite chunkLoop_spec by assumption. simpl.
  apply btoa_bytes.
Qed.

Lemma directEncoding_spec bytes :
  (N.of_nat (length bytes) <= maxArguments)%N ->
  directEncoding maxArguments bytes
  = Some (base64Encode (map Byte.to_N bytes)).
Proof.
  intros Hlen. unfold directEncoding, fromCharCodeSpread.
  apply N.leb_le in Hlen. rewrite Hlen. apply btoa_bytes.
Qed.

Lemma directEncoding_chunked bytes base64 :
  directEncoding maxArguments bytes = Some base64 ->
  chunkedEncoding maxArguments bytes = Some base64.
Proof.
  unfold directEncoding, fromCharCodeSpread.
  destruct (N.leb_spec (N.of_nat (length bytes)) maxArguments) as [Hle|Hgt];
    [|discriminate].
  rewrite btoa_bytes. intros <-.
  apply chunkedEncoding_spec. right. assumption.
Qed.

Lemma arrayBufferToBase64_chunked bytes :
  arrayBufferToBase64 maxArguments bytes = chunkedEncoding maxArguments bytes.
Proof.
  unfold arrayBufferToBase64. cbv zeta.
  destruct (N.of_nat (length bytes) <? fastThreshold)%N; [|reflexivity].
  destruct (directEncoding maxArguments bytes) as [base64|] eqn:Hd;
    [|reflexivity].
  symmetry. apply directEncoding_chunked. assumption.
Qed.

End WithEngine.

End Base64Facts.

Module Base64Claim.
Import Background Base64Facts Samples.

(** C10.  For every byte buffer, on an engine that can spread one chunk
    of 8192 arguments, [arrayBufferToBase64] returns the base64 string of
    the bytes whichever path it takes: the chunked method yields the
    single-call encoding of the whole buffer, the fast method equals the
    chunked one whenever its own spread of the whole buffer does not
    overflow, and so the result does not depend on the 65536 threshold
    or on the path. *)
Theorem arrayBufferToBase64_paths_agree (maxArguments : N) (bytes : Uint8Array) :
  (chunkSize <= maxArguments)%N ->
  chunkedEncoding maxArguments bytes = btoa (map Byte.to_N bytes)
  /\ ((N.of_nat (length bytes) <= maxArguments)%N ->
      directEncoding maxArguments bytes = chunkedEncoding maxArguments bytes)
  /\ arrayBufferToBase64 maxArguments bytes
     = Some (base64Encode (map Byte.to_N bytes)).
Proof.
  intros Hmax.
  assert (Hs : spreadable maxArguments bytes) by (left; exact Hmax).
  repeat split.
  - rewrite btoa_bytes. apply chunkedEncoding_spec, Hs.
  - intros Hlen. rewrite directEncoding_spec by assumption.
    symmetry. apply chunkedEncoding_spec, Hs.
  - rewrite arrayBufferToBase64_chunked. apply chunkedEncoding_spec, Hs.
Qed.

Lemma arrayBufferToBase64_paths_agree_witness :
  (chunkSize <= 100000)%N
  /\ chunkedEncoding 100000 sampleBytes = Some (lit "TWFu/wA=")
  /\ directEncoding 100000 sampleBytes = chunkedEncoding 100000 sampleBytes
  /\ arrayBufferToBase64 100000 sampleBytes = Some (lit "TWFu/wA=").
Proof.
  assert (H : (chunkSize <= 100000)%N) by (vm_compute; discriminate).
  destruct (arrayBufferToBase64_paths_agree 100000 sampleBytes H)
    as [Hc [Hd Ha]].
  split; [exact H|].
  split; [exact Hc|].
  split; [apply Hd; vm_compute; discriminate | exact Ha].
Defined.

End Base64Claim.

(** ** [sanitizeFilename] *)

Module SanitizeFacts.
Import Background JSFacts.

Lemma sanitizeFilename_length s : length (sanitizeFilename s) <= 255.
Proof. unfold sanitizeFilename, substring0. apply firstn_le_length. Qed.

Lemma normalizeWhitespace_valid inRun s :
  Forall (fun c => isInvalidChar c = false) s ->
  Forall (fun c => isInvalidChar c = false) (normalizeWhitespace inRun s).
Proof.
  intros H. revert inRun.
  induction H as [|c r Hc Hr IH]; intros inRun; simpl; [constructor|].
  destruct (isSpace c); [destruct inRun|]; auto.
Qed.

Lemma replaceInvalid_valid s :
  Forall (fun c => isInvalidChar c = false) (replaceInvalid s).
Proof.
  unfold replaceInvalid. apply Forall_map, Forall_forall. intros c _.
  destruct (isInvalidChar c) eqn:E; [reflexivity | exact E].
Qed.

(** No invalid character is left in a sanitized name. *)
Lemma sanitizeFilename_valid s :
  Forall (fun c => isInvalidChar c = false) (sanitizeFilename s).
Proof.
  unfold sanitizeFilename, removeLeadingDots.
  apply Forall_substring0, Forall_trim, Forall_dropWhile,
    normalizeWhitespace_valid, replaceInvalid_valid.
Qed.

End SanitizeFacts.

Module SanitizeClaim.
Import Background.

(** C4.  The claim asks that a sanitized name has no leading dot and
    that sanitizing twice equals sanitizing once.  On the name made of
    a space, a dot and the letter a, the leading dots are removed
    before the name is trimmed: the result is the name [.a], which
    starts with a dot, and sanitizing it again gives [a]. *)
Theorem sanitizeFilename_keeps_dot_after_space :
  sanitizeFilename (lit " .a") = lit ".a"
  /\ sanitizeFilename (sanitizeFilename (lit " .a")) = lit "a"
  /\ sanitizeFilename (sanitizeFilename (lit " .a"))
     <> sanitizeFilename (lit " .a").
Proof.
  repeat split; try reflexivity. vm_compute. discriminate.
Qed.

(** The cut at 255 code units also breaks idempotence: it can leave a
    trailing space that a second pass trims. *)
Lemma sanitizeFilename_cut_leaves_space :
  let s := repeat 97%N 254 ++ lit " b" in
  sanitizeFilename s = repeat 97%N 254 ++ [32%N]
  /\ sanitizeFilename (sanitizeFilename s) = repeat 97%N 254.
Proof. split; vm_compute; reflexivity. Qed.

End SanitizeClaim.

(** ** Discovery *)

Module DiscoveryFacts.
Import Content JSFacts.

Lemma mimeListed_In m :
  mimeListed m = true <-> In (toLowerCase m) audioMimeTypes.
Proof.
  unfold mimeListed. rewrite existsb_exists. split.
  - intros [x [Hx He]]. apply eqb_eq in He. subst x. exact Hx.
  - intros H. exists (toLowerCase m). split; [exact H | apply eqb_eq; reflexivity].
Qed.

Lemma truthy_cons (s : jsstring) : truthy s = true <-> s <> [].
Proof. destruct s; simpl; split; congruence. Qed.

(** The guard of the two loops, spelled out. *)
Lemma acceptsEntry_iff ii :
  acceptsEntry ii = true <->
  exists u, ii_url ii = Some u /\ u <> [] /\
    ((exists m, ii_mime ii = Some m /\ In (toLowerCase m) audioMimeTypes)
     \/ extensionMatches u = true).
Proof.
  unfold acceptsEntry, isAudioFile. split.
  - destruct (ii_url ii) as [u|]; [|discriminate].
    intros H. apply andb_true_iff in H. destruct H as [Hu H].
    exists u. split; [reflexivity|]. split; [apply truthy_cons, Hu|].
    destruct (ii_mime ii) as [m|].
    + destruct (truthy m && mimeListed m) eqn:E.
      * left. exists m. split; [reflexivity|].
        apply andb_true_iff in E. apply mimeListed_In, E.
      * right. rewrite Hu in H. exact H.
    + right. rewrite Hu in H. exact H.
  - intros [u [-> [Hu H]]]. apply truthy_cons in Hu. rewrite Hu. simpl.
    destruct H as [[m [-> Hm]] | He].
    + assert (Ht : truthy m = true).
      { destruct m; [|reflexivity]. exfalso. revert Hm.
        vm_compute. intuition discriminate. }
      apply mimeListed_In in Hm. rewrite Ht, Hm. reflexivity.
    + rewrite He. destruct (ii_mime ii) as [m|]; [|reflexivity].
      destruct (truthy m && mimeListed m); reflexivity.
Qed.

(** Every candidate of the loop comes from the first [imageinfo] entry
    of a page, and that entry passed the guard. *)
Lemma collectCandidates_sound pages :
  forall out c,
    collectCandidates pages = Some out -> In c out ->
    exists pg ii,
      In pg pages /\ hd_error (pg_imageinfo pg) = Some ii
      /\ acceptsEntry ii = true /\ ii_url ii = Some (url c)
      /\ title c = pg_title pg.
Proof.
  induction pages as [|pg rest IH]; intros out c Hout Hin; simpl in Hout.
  - injection Hout as <-. destruct Hin.
  - assert (Hrest : forall out', collectCandidates rest = Some out' -> In c out' ->
              exists pg0 ii, In pg0 (pg :: rest)
                /\ hd_error (pg_imageinfo pg0) = Some ii
                /\ acceptsEntry ii = true /\ ii_url ii = Some (url c)
                /\ title c = pg_title pg0).
    { intros out' H1 H2. destruct (IH out' c H1 H2) as [pg0 [ii [Hp H]]].
      exists pg0, ii. split; [right; exact Hp | exact H]. }
    destruct (hd_error (pg_imageinfo pg)) as [ii|] eqn:Hhd; [|eauto].
    destruct (acceptsEntry ii) eqn:Hacc; [|eauto].
    destruct (ii_url ii) as [u|] eqn:Hu; [|eauto].
    destruct (candidateOf pg ii u) as [c0|] eqn:Hc0; [|discriminate].
    destruct (collectCandidates rest) as [out'|] eqn:Hout'; [|discriminate].
    simpl in Hout. injection Hout as <-.
    destruct Hin as [<- | Hin]; [|eauto].
    exists pg, ii. split; [left; reflexivity|].
    unfold candidateOf in Hc0.
    destruct (decodeURIComponent _); [|discriminate].
    injection Hc0 as <-. simpl. auto.
Qed.

Lemma collected_requests pages : requests (collected pages) = [].
Proof. unfold collected. destruct (collectCandidates pages); reflexivity. Qed.

Lemma collected_outcome pages : outcome (collected pages) = collectCandidates pages.
Proof. unfold collected. destruct (collectCandidates pages); reflexivity. Qed.

Lemma listAudioFileTitles_requests w pageTitle :
  requests (listAudioFileTitles w pageTitle) = [MediaList pageTitle].
Proof.
  unfold listAudioFileTitles, fetched, bind, parsed, requests.
  destruct (mediaList w pageTitle) as [|ok json]; [reflexivity|].
  destruct ok; simpl; [|reflexivity].
  destruct json; reflexivity.
Qed.

Lemma resolveDirectUrls_no_generator w files q :
  ~ In (GeneratorQuery q) (requests (resolveDirectUrls w files)).
Proof.
  destruct files as [|f files]; [intros []|].
  unfold resolveDirectUrls, fetched, bind, parsed, requests.
  destruct (imageInfoQuery w _) as [|ok json]; simpl.
  - intros [H|[]]; discriminate.
  - destruct json as [pages|]; simpl.
    + pose proof (collected_requests pages) as Hr. unfold requests in Hr.
      destruct (collected pages) as [t r]. simpl in *. subst t.
      intros [H|[]]; discriminate.
    + intros [H|[]]; discriminate.
Qed.

Lemma listAndResolve_no_generator w pageTitle q :
  ~ In (GeneratorQuery q) (requests (listAndResolve w pageTitle)).
Proof.
  unfold listAndResolve.
  pose proof (listAudioFileTitles_requests w pageTitle) as Hl.
  unfold requests in *. unfold bind.
  destruct (listAudioFileTitles w pageTitle) as [t [files|]]; simpl in *; subst t.
  - destruct files as [|f files].
    + simpl. intros [H|[]]; discriminate.
    + pose proof (@resolveDirectUrls_no_generator w (f :: files) q) as Hn.
      unfold requests in Hn.
      destruct (resolveDirectUrls w (f :: files)) as [t' r']. simpl in *.
      intros [H|H]; [discriminate | exact (Hn H)].
  - intros [H|[]]; discriminate.
Qed.

Lemma fallback_requests w pageTitle :
  requests (fallbackActionApiDiscovery w pageTitle) = [GeneratorQuery pageTitle].
Proof.
  unfold fallbackActionApiDiscovery, fetched, bind, parsed, requests.
  destruct (generatorQuery w pageTitle) as [|ok json]; [reflexivity|].
  destruct json as [pages|]; [|reflexivity]. simpl.
  pose proof (collected_requests pages) as Hr. unfold requests in Hr.
  destruct (collected pages) as [t r]. simpl in *. subst t. reflexivity.
Qed.

(** The requests of [main] are those of [discover]. *)
Lemma main_requests w pageTitle :
  truthy pageTitle = true ->
  fst (main w pageTitle) = requests (discover w pageTitle).
Proof.
  intros Ht. unfold main, requests. rewrite Ht. simpl.
  destruct (discover w pageTitle) as [t [[|c cs]|]]; reflexivity.
Qed.

Lemma discover_generator w pageTitle q :
  In (GeneratorQuery q) (requests (discover w pageTitle))
  <-> q = pageTitle /\ outcome (listAndResolve w pageTitle) = Some [].
Proof.
  unfold discover.
  pose proof (@listAndResolve_no_generator w pageTitle q) as Hn.
  unfold requests, outcome, bind in *.
  destruct (listAndResolve w pageTitle) as [t [[|c cs]|]]; simpl in *.
  - pose proof (fallback_requests w pageTitle) as Hf. unfold requests in Hf.
    destruct (fallbackActionApiDiscovery w pageTitle) as [t' r']. simpl in *.
    subst t'. rewrite in_app_iff. simpl. split.
    + intros [H|[H|[]]]; [contradiction|]. injection H as <-. auto.
    + intros [-> _]. right. left. reflexivity.
  - rewrite app_nil_r. split; [contradiction | intros [_ H]; discriminate].
  - split; [contradiction | intros [_ H]; discriminate].
Qed.

End DiscoveryFacts.

Module DiscoveryClaims.
Import Content DiscoveryFacts Samples.

(** C3, as the code has it.  Every candidate the resolver returns comes
    from the first [imageinfo] entry of a page of the response; that
    entry has a non-empty URL, and its MIME type, in lower case, is in
    the audio allowlist, or its URL ends in one of the audio extensions
    (whether or not a MIME type is present).  In particular an entry of
    MIME [text/html] whose URL has no audio extension is rejected. *)
Theorem resolver_accepts_by_mime_or_extension
    (w : Wiki) (fileTitles : list (option jsstring))
    (out : list Candidate) (c : Candidate) :
  outcome (resolveDirectUrls w fileTitles) = Some out ->
  In c out ->
  (exists ok pages pg ii,
      imageInfoQuery w (joinTitles fileTitles) = Response ok (Some pages)
      /\ In pg pages
      /\ hd_error (pg_imageinfo pg) = Some ii
      /\ ii_url ii = Some (url c) /\ url c <> []
      /\ ((exists m, ii_mime ii = Some m /\ In (toLowerCase m) audioMimeTypes)
          \/ extensionMatches (url c) = true))
  /\ (forall ii u,
         ii_url ii = Some u -> ii_mime ii = Some (lit "text/html") ->
         extensionMatches u = false -> acceptsEntry ii = false).
Proof.
  intros Hout Hin. split.
  - destruct fileTitles as [|f files].
    { simpl in Hout. injection Hout as <-. destruct Hin. }
    unfold resolveDirectUrls, fetched, bind, parsed, outcome in Hout.
    destruct (imageInfoQuery w (joinTitles (f :: files))) as [|ok json] eqn:Hq;
      [discriminate|].
    destruct json as [pages|]; [|discriminate]. simpl in Hout.
    pose proof (collected_outcome pages) as Hc. unfold outcome in Hc.
    destruct (collected pages) as [t r]. simpl in Hout, Hc. rewrite Hc in Hout.
    destruct (collectCandidates_sound pages out c Hout Hin)
      as [pg [ii [Hpg [Hhd [Hacc [Hu _]]]]]].
    apply acceptsEntry_iff in Hacc. destruct Hacc as [u [Hu' [Hne Hor]]].
    rewrite Hu in Hu'. injection Hu' as <-.
    exists ok, pages, pg, ii. repeat split; assumption.
  - intros ii u Hu Hm He. unfold acceptsEntry, isAudioFile.
    rewrite Hu, Hm, He. simpl. destruct (truthy u); reflexivity.
Qed.

Lemma resolver_accepts_by_mime_or_extension_witness :
  outcome (resolveDirectUrls waterWiki [Some (lit "File:En-us-water.ogg")])
  = Some [waterCandidate]
  /\ extensionMatches (url waterCandidate) = true
  /\ acceptsEntry htmlInfo = false.
Proof.
  assert (Hout : outcome (resolveDirectUrls waterWiki
                            [Some (lit "File:En-us-water.ogg")])
                 = Some [waterCandidate]) by reflexivity.
  destruct (resolver_accepts_by_mime_or_extension
              waterWiki [Some (lit "File:En-us-water.ogg")]
              [waterCandidate] waterCandidate Hout (or_introl eq_refl))
    as [_ Hhtml].
  split; [exact Hout|]. split; [reflexivity|].
  apply (Hhtml htmlInfo (lit "https://en.wiktionary.org/wiki/water"));
    reflexivity.
Defined.

(** C3 as stated fails: the entry of an Ogg file whose MIME type is
    present and not in the allowlist ([application/ogg]) is accepted by
    its extension. *)
Lemma resolver_accepts_unlisted_mime :
  outcome (resolveDirectUrls waterWiki [Some (lit "File:En-us-water.ogg")])
  = Some [waterCandidate]
  /\ acceptsEntry waterInfo = true
  /\ ~ (In (lit "application/ogg") audioMimeTypes
        \/ (ii_mime waterInfo = None /\ extensionMatches waterUrl = true)).
Proof.
  split; [reflexivity|]. split; [reflexivity|].
  intros [H | [H _]]; [|discriminate].
  revert H. vm_compute. intuition discriminate.
Qed.

(** C5.  The generator query of the fallback stage is among the
    requests of the script exactly when the page title is not empty and
    the List and Resolve stages returned, without an exception, zero
    candidates; so whenever they yield at least one candidate the
    fallback query is not issued, and the panel shows those
    candidates. *)
Theorem fallback_only_after_empty_resolution (w : Wiki) (pageTitle q : jsstring) :
  (In (GeneratorQuery q) (fst (main w pageTitle))
   <-> pageTitle <> [] /\ q = pageTitle
       /\ outcome (listAndResolve w pageTitle) = Some [])
  /\ (forall c cs,
        pageTitle <> [] ->
        outcome (listAndResolve w pageTitle) = Some (c :: cs) ->
        ~ In (GeneratorQuery q) (fst (main w pageTitle))
        /\ snd (main w pageTitle) = Some (c :: cs)).
Proof.
  assert (Hiff : In (GeneratorQuery q) (fst (main w pageTitle))
                 <-> pageTitle <> [] /\ q = pageTitle
                     /\ outcome (listAndResolve w pageTitle) = Some []).
  { destruct (truthy pageTitle) eqn:Ht.
    - rewrite main_requests by exact Ht. rewrite discover_generator.
      apply truthy_cons in Ht. tauto.
    - unfold main. rewrite Ht. simpl.
      assert (pageTitle = []) by (destruct pageTitle; [reflexivity|discriminate]).
      tauto. }
  split; [exact Hiff|].
  intros c cs Hne Hsome. split.
  - rewrite Hiff. intros [_ [_ H]]. rewrite H in Hsome. discriminate.
  - apply truthy_cons in Hne. unfold main. rewrite Hne. simpl.
    unfold discover, bind. unfold outcome in Hsome.
    destruct (listAndResolve w pageTitle) as [t r]. simpl in Hsome. subst r.
    reflexivity.
Qed.

Lemma fallback_only_after_empty_resolution_witness :
  ~ In (GeneratorQuery (lit "water")) (fst (main waterWiki (lit "water")))
  /\ snd (main waterWiki (lit "water")) = Some [waterCandidate]
  /\ In (GeneratorQuery (lit "water")) (fst (main bareWiki (lit "water"))).
Proof.
  destruct (fallback_only_after_empty_resolution waterWiki (lit "water") (lit "water"))
    as [_ Hsome].
  destruct (fallback_only_after_empty_resolution bareWiki (lit "water") (lit "water"))
    as [Hiff _].
  split; [|split].
  - apply (Hsome waterCandidate []); [discriminate | reflexivity].
  - apply (Hsome waterCandidate []); [discriminate | reflexivity].
  - apply Hiff. split; [discriminate|]. split; reflexivity.
Defined.

End DiscoveryClaims.

(** ** Batch download *)

Module BatchFacts.
Import Content Batch.

Lemma failures_le os : failures os <= length os.
Proof. unfold failures. apply filter_length_le. Qed.

Lemma batchOutcomes_length ext mode items n :
  length (batchOutcomes ext mode items n) = length items.
Proof.
  revert n. induction items as [|item rest IH]; intros n; simpl;
    [reflexivity | rewrite IH; reflexivity].
Qed.

(** The loop sends every item in turn and adds the successes and the
    failures to its two counters. *)
Lemma failures_cons o os :
  failures (o :: os) = (if responseOk o then 0 else 1) + failures os.
Proof. unfold failures. simpl. destruct (responseOk o); reflexivity. Qed.

(** The loop sends every item in turn and adds the successes and the
    failures to its two counters. *)
Lemma batchLoop_spec ext mode items :
  forall n successCount failCount,
    let os := batchOutcomes ext mode items n in
    batchLoop ext mode items n successCount failCount
    = (inSequence mode items os,
       (successCount + (length items - failures os),
        failCount + failures os)).
Proof.
  induction items as [|item rest IH]; intros n sc fc;
    cbn [batchLoop batchOutcomes inSequence length].
  - unfold failures. simpl. rewrite !Nat.add_0_r. reflexivity.
  - pose proof (failures_le (batchOutcomes ext mode rest (S n))) as Hle.
    rewrite batchOutcomes_length in Hle.
    rewrite failures_cons.
    destruct (responseOk (answer ext n (messageFor mode item) (timeoutFor mode)));
      rewrite IH; cbv zeta; f_equal; f_equal; lia.
Qed.

Lemma inSequence_nil mode items : inSequence mode items [] = [].
Proof. destruct items; reflexivity. Qed.

(** The loop of the outer [catch] sends the items in original mode, in
    order, up to and including the first message that rejects. *)
Lemma fallbackLoop_spec ext items :
  forall n,
    exists attempted rest,
      batchOutcomes ext (lit "original") items n = attempted ++ rest
      /\ Forall (fun o => rejected o = false) (removelast attempted)
      /\ (rest <> [] ->
          exists e, last attempted (SendResolved None) = SendRejected e)
      /\ fallbackLoop ext items n = inSequence (lit "original") items attempted.
Proof.
  induction items as [|item items IH]; intros n.
  - exists [], []. repeat split; [constructor | intros H; contradiction].
  - cbn [batchOutcomes fallbackLoop].
    change (timeoutFor (lit "original")) with 90000%Z.
    destruct (answer ext n (messageFor (lit "original") item) 90000) as [e|r] eqn:Ho.
    + exists [SendRejected e], (batchOutcomes ext (lit "original") items (S n)).
      split; [reflexivity|]. split; [constructor|].
      split; [intros _; exists e; reflexivity|].
      cbn [inSequence]. rewrite inSequence_nil. reflexivity.
    + destruct (IH (S n)) as [attempted [rest [Hos [Hall [Hlast Hloop]]]]].
      exists (SendResolved r :: attempted), rest.
      split; [rewrite Hos; reflexivity|].
      split.
      { destruct attempted as [|o attempted]; [constructor|].
        cbn [removelast]. constructor; [reflexivity | exact Hall]. }
      split.
      { intros Hrest. destruct (Hlast Hrest) as [e He].
        destruct attempted as [|o attempted]; [discriminate|].
        exists e. exact He. }
      cbn [inSequence]. rewrite Hloop. reflexivity.
Qed.

End BatchFacts.

Module BatchClaim.
Import Content Batch BatchFacts Samples.

(** C7, as the code has it.  A batch of K items is processed one request
    after the other, each message settled before the next is sent.
    When the mode has been read, all K items are sent whatever fails;
    with M of them failing (the message rejects, or its response is not
    ok) the counters end at K - M successes and M failures; and the one
    feedback shown is the success count out of K when at least one item
    succeeded, and the failure mark alone otherwise: the failure count
    is never shown.  When the mode cannot be read, the failure mark is
    shown first, nothing is counted, and the items are sent in original
    mode with the timeout of 90 seconds, in order, up to and including
    the first message that rejects: the items after it are not sent,
    while a response that is not ok stops nothing. *)
Theorem batch_counts_or_falls_back (ext : Extension) (items : list Candidate) :
  let K := length items in
  match storedMode ext with
  | Some mode =>
      let os := batchOutcomes ext mode items 0 in
      let M := failures os in
      length os = K /\ M <= K
      /\ snd (downloadAllFiles ext items) = Some (K - M, M)
      /\ fst (downloadAllFiles ext items)
         = inSequence mode items os
           ++ [if 0 <? K - M
               then Feedback (DownloadedCount (K - M) K) true
               else Feedback FailedText false]
  | None =>
      exists attempted rest,
        batchOutcomes ext (lit "original") items 0 = attempted ++ rest
        /\ Forall (fun o => rejected o = false) (removelast attempted)
        /\ (rest <> [] ->
            exists e, last attempted (SendResolved None) = SendRejected e)
        /\ timeoutFor (lit "original") = 90000%Z
        /\ fst (downloadAllFiles ext items)
           = Feedback FailedText false
             :: inSequence (lit "original") items attempted
        /\ snd (downloadAllFiles ext items) = None
  end.
Proof.
  intros K. unfold downloadAllFiles.
  destruct (storedMode ext) as [mode|].
  - cbv zeta.
    set (os := batchOutcomes ext mode items 0).
    set (M := failures os).
    assert (Hlen : length os = K) by apply batchOutcomes_length.
    split; [exact Hlen|].
    split; [rewrite <- Hlen; apply failures_le|].
    rewrite (batchLoop_spec ext mode items 0 0 0). simpl.
    fold os. fold M. fold K. split; reflexivity.
  - destruct (fallbackLoop_spec ext items 0)
      as [attempted [rest [Hos [Hall [Hlast Hloop]]]]].
    exists attempted, rest.
    split; [exact Hos|]. split; [exact Hall|]. split; [exact Hlast|].
    split; [reflexivity|]. simpl. rewrite Hloop. split; reflexivity.
Qed.

Lemma batch_counts_or_falls_back_witness :
  snd (downloadAllFiles secondFails threeItems) = Some (2, 1)
  /\ fst (downloadAllFiles secondFails threeItems)
     = inSequence (lit "convert") threeItems
         [SendResolved (Some true); SendResolved (Some false);
          SendResolved (Some true)]
       ++ [Feedback (DownloadedCount 2 3) true]
  /\ exists attempted,
       fst (downloadAllFiles modeUnreadable threeItems)
       = Feedback FailedText false
         :: inSequence (lit "original") threeItems attempted
       /\ last attempted (SendResolved None) = SendRejected MessageTimeout.
Proof.
  pose proof (batch_counts_or_falls_back secondFails threeItems) as Hread.
  pose proof (batch_counts_or_falls_back modeUnreadable threeItems) as Hnot.
  cbv zeta in Hread, Hnot.
  change (storedMode secondFails) with (Some (lit "convert")) in Hread.
  change (storedMode modeUnreadable) with (@None jsstring) in Hnot.
  cbv iota beta in Hread, Hnot.
  destruct Hread as [_ [_ [Hc Ht]]].
  destruct Hnot as [attempted [rest [Hos [_ [Hlast [_ [Hf _]]]]]]].
  split; [exact Hc|]. split; [exact Ht|].
  exists attempted. split; [exact Hf|].
  destruct attempted as [|o1 [|o2 [|o3 attempted]]].
  - vm_compute in Hf. discriminate.
  - vm_compute in Hf. discriminate.
  - vm_compute in Hos. injection Hos as _ <- Hrest. reflexivity.
  - vm_compute in Hf. discriminate.
Defined.

(** C7 as stated fails.  With the settings unreadable and the second of
    three messages timing out, the third item is never sent and nothing
    is counted; and in a batch whose three downloads all fail, the
    feedback is the failure mark, with no count of failures or of
    successes in it. *)
Lemma batch_stops_at_rejection_without_mode :
  length threeItems = 3
  /\ downloadAllFiles modeUnreadable threeItems
     = ([Feedback FailedText false;
         Sent (messageFor (lit "original") waterCandidate) 90000;
         Settled (SendResolved (Some true));
         Sent (messageFor (lit "original") waterCandidate) 90000;
         Settled (SendRejected MessageTimeout)],
        None)
  /\ downloadAllFiles allFail threeItems
     = ([Sent (messageFor (lit "original") waterCandidate) 90000;
         Settled (SendResolved (Some false));
         Sent (messageFor (lit "original") waterCandidate) 90000;
         Settled (SendResolved (Some false));
         Sent (messageFor (lit "original") waterCandidate) 90000;
         Settled (SendResolved (Some false));
         Feedback FailedText false],
        Some (0, 3)).
Proof. repeat split; reflexivity. Qed.

(** When the mode cannot be read the loop that counts does not run: the
    outer [catch] sends the items in original mode, and stops at the
    first message that rejects. *)
Lemma batch_without_mode_falls_back :
  let ext := {| storedMode := None;
                answer := fun _ _ _ => SendRejected ContextInvalidated |} in
  downloadAllFiles ext threeItems
  = ([Feedback FailedText false;
      Sent (messageFor (lit "original") waterCandidate) 90000;
      Settled (SendRejected ContextInvalidated)],
     None).
Proof. reflexivity. Qed.

End BatchClaim.

(** ** The engine load *)

Module LoadFacts.
Import Offscreen.

(** Calls that find a load in flight wait for it and start nothing. *)
Lemma calls_join_pending_load (cs : list nat) :
  forall e,
    loaded e = false -> loadPromise e = Some Pending ->
    loadRun (map Call cs) e
    = {| loaded := false; loadPromise := Some Pending;
         awaiting := awaiting e ++ cs; attempts := attempts e;
         completed := completed e |}.
Proof.
  induction cs as [|c cs IH]; intros e Hl Hp.
  - simpl. rewrite app_nil_r. destruct e; simpl in *. subst. reflexivity.
  - assert (Hc : loadFFmpeg c e = suspend c e).
    { unfold loadFFmpeg. rewrite Hl, Hp. reflexivity. }
    change (loadRun (map Call (c :: cs)) e)
      with (loadRun (map Call cs) (loadFFmpeg c e)).
    rewrite Hc, IH by assumption. simpl.
    rewrite <- app_assoc. reflexivity.
Qed.

Lemma loadStep_consistent e ev : consistent e -> consistent (loadStep e ev).
Proof.
  unfold consistent. destruct ev as [c|w]; simpl.
  - unfold loadFFmpeg.
    destruct (loaded e) eqn:Hl; simpl; [rewrite Hl; trivial|].
    destruct (loadPromise e) as [[| |err]|] eqn:Hp; simpl;
      rewrite ?Hp, ?Hl; simpl; tauto.
  - unfold settleLoad.
    destruct (loadPromise e) as [[| |err]|] eqn:Hp; simpl; rewrite ?Hp; trivial.
    intros Hl. destruct (loadBody w); simpl; auto.
Qed.

Lemma loadRun_consistent evs :
  forall e, consistent e -> consistent (loadRun evs e).
Proof.
  induction evs as [|ev evs IH]; intros e He; simpl; [exact He|].
  apply IH, loadStep_consistent, He.
Qed.

Lemma reachable_consistent evs : consistent (loadRun evs unloaded).
Proof. apply loadRun_consistent. unfold consistent. simpl. auto. Qed.

(** Only a call that finds neither an engine nor a cached promise
    starts a load. *)
Lemma loadStep_attempts e ev :
  attempts (loadStep e ev)
  = match ev with
    | Call _ =>
        if loaded e then attempts e
        else match loadPromise e with
             | None => S (attempts e)
             | Some _ => attempts e
             end
    | Settle _ => attempts e
    end.
Proof.
  destruct ev as [c|w]; simpl.
  - unfold loadFFmpeg. destruct (loaded e); [reflexivity|].
    destruct (loadPromise e) as [[| |err]|]; reflexivity.
  - unfold settleLoad.
    destruct (loadPromise e) as [[| |err]|]; reflexivity.
Qed.

End LoadFacts.

Module LoadClaim.
Import Offscreen LoadFacts Samples.

(** C6.  Starting from the page as it is loaded (no engine, no cached
    promise), when any number of callers, at least one, call
    [loadFFmpeg] before the load settles, exactly one load attempt is
    started and all of them are suspended on it; when that load
    settles, every caller completes, in the order of the calls, with
    the same outcome: all return normally, or all get the same
    error. *)
Theorem load_is_single_flight (c : nat) (cs : list nat) (w : LoadWorld) :
  let calls := map Call (c :: cs) in
  (attempts (loadRun calls unloaded) = 1
   /\ awaiting (loadRun calls unloaded) = c :: cs
   /\ completed (loadRun calls unloaded) = [])
  /\ (attempts (loadRun (calls ++ [Settle w]) unloaded) = 1
      /\ awaiting (loadRun (calls ++ [Settle w]) unloaded) = []
      /\ completed (loadRun (calls ++ [Settle w]) unloaded)
         = map (fun caller => (caller, loadBody w)) (c :: cs)).
Proof.
  intros calls. unfold calls.
  assert (Hcalls : loadRun (map Call (c :: cs)) unloaded
                   = {| loaded := false; loadPromise := Some Pending;
                        awaiting := c :: cs; attempts := 1;
                        completed := [] |}).
  { change (loadRun (map Call (c :: cs)) unloaded)
      with (loadRun (map Call cs) (loadFFmpeg c unloaded)).
    rewrite calls_join_pending_load by reflexivity. reflexivity. }
  split.
  - rewrite Hcalls. simpl. auto.
  - unfold loadRun in *. rewrite fold_left_app, Hcalls. simpl.
    unfold settleLoad. simpl. auto.
Qed.

(** After a failed load the cached promise is gone, and the next call
    starts a second attempt. *)
Lemma load_retries_after_failure :
  let e := loadRun [Call 1; Call 2; Settle hangs; Call 3] unloaded in
  attempts e = 2 /\ loadPromise e = Some Pending /\ awaiting e = [3]
  /\ map fst (completed e) = [1; 2].
Proof. vm_compute. auto. Qed.

End LoadClaim.

(** ** A job in the offscreen page *)

Module JobFacts.
Import Offscreen.

Lemma fetchAudio_effects w srcUrl :
  fst (fetchAudio w srcUrl) = [FetchSource srcUrl].
Proof. reflexivity. Qed.

(** When the source cannot be used, [fetchAudio] throws or returns no
    bytes. *)
Lemma fetchAudio_unusable w srcUrl :
  sourceUnusable w = true ->
  (exists e, snd (fetchAudio w srcUrl) = inl e)
  \/ snd (fetchAudio w srcUrl) = inr [].
Proof.
  unfold sourceUnusable, fetchAudio, await. simpl.
  destruct (sourceFetch w) as [e|ok status statusText body]; [eauto|].
  destruct ok; simpl; [|eauto].
  destruct body as [e|[|b bs]]; [eauto | auto | discriminate].
Qed.

(** The runtime messages of [transcode]: one, the completion carrying
    the bytes read back, when the [try] block runs to its end; none when
    anything in it throws. *)
Lemma transcode_broadcasts w msg audioBytes :
  broadcasts (fst (transcode w msg audioBytes))
  = match ffmpegLoad w, writeFile w, exec w, readFile w with
    | None, None, inr _, inr out => [completion (outNameOf msg) out]
    | _, _, _, _ => []
    end.
Proof.
  unfold transcode, tryCatch, andThen, awaitUnit, await, perform, done.
  destruct (ffmpegLoad w); [reflexivity|].
  destruct (writeFile w); [reflexivity|].
  destruct (exec w); [reflexivity|].
  destruct (readFile w) as [e|out]; [reflexivity|].
  destruct (deleteIn w); [reflexivity|].
  destruct (deleteOut w); reflexivity.
Qed.

Lemma broadcasts_app a b : broadcasts (a ++ b) = broadcasts a ++ broadcasts b.
Proof. unfold broadcasts. apply flat_map_app. Qed.

Lemma In_broadcasts m effects :
  In (RuntimeSendMessage m) effects <-> In m (broadcasts effects).
Proof.
  unfold broadcasts. rewrite in_flat_map. split.
  - intros H. exists (RuntimeSendMessage m). split; [exact H | left; reflexivity].
  - intros [eff [Hin Hm]]. destruct eff; simpl in Hm; try contradiction.
    destruct Hm as [<- | []]. exact Hin.
Qed.

(** The runtime messages of the listener. *)
Lemma onPortMessage_broadcasts w msg :
  broadcasts (onPortMessage w msg) = []
  \/ exists out,
       readFile w = inr out
       /\ broadcasts (onPortMessage w msg) = [completion (outNameOf msg) out].
Proof.
  unfold onPortMessage.
  destruct (rq_type msg) as [t|]; [|left; reflexivity].
  destruct (JS.eqb t TRANSCODE_TO_WAV); [|left; reflexivity].
  destruct (rq_srcUrl msg) as [[|c u]|]; try (left; reflexivity).
  destruct (fetchAudio w (c :: u)) as [t1 r] eqn:Hf.
  assert (Ht1 : t1 = [FetchSource (c :: u)]).
  { pose proof (fetchAudio_effects w (c :: u)) as H. rewrite Hf in H. exact H. }
  subst t1.
  destruct r as [e|[|b bs]]; try (left; reflexivity).
  rewrite broadcasts_app, transcode_broadcasts. simpl.
  destruct (ffmpegLoad w); [left; reflexivity|].
  destruct (writeFile w); [left; reflexivity|].
  destruct (exec w); [left; reflexivity|].
  destruct (readFile w) as [e|out]; [left; reflexivity|].
  right. exists out. split; reflexivity.
Qed.

(** A reply that reports a failure is posted on the port; a runtime
    message always reports a success. *)
Lemma broadcast_reports_success w msg m :
  In (RuntimeSendMessage m) (onPortMessage w msg) ->
  rm_ok m = true /\ rm_type m = TRANSCODE_COMPLETE.
Proof.
  rewrite In_broadcasts.
  destruct (onPortMessage_broadcasts w msg) as [H | [out [_ H]]]; rewrite H.
  - intros [].
  - intros [<- | []]. split; reflexivity.
Qed.

End JobFacts.

Module FetchClaim.
Import Offscreen JobFacts Samples.

(** C8.  When the source of a job cannot be used (the fetch rejects,
    the response is not ok, its body cannot be read, or the body has no
    byte), the listener fetches, posts a failure that names the fetch on
    the port, and does nothing else: [loadFFmpeg] is not called, nothing
    is written to the file system of the engine, and no other engine
    operation takes place. *)
Theorem unusable_source_stops_before_engine
    (w : JobWorld) (srcUrl outBase : jsstring) :
  srcUrl <> [] ->
  sourceUnusable w = true ->
  let effects := onPortMessage w (request srcUrl outBase) in
  (exists message,
      effects = [FetchSource srcUrl; PortPostMessage (failure message)]
      /\ (message = lit "No audio data received after fetch"
          \/ exists reason, message = lit "Failed to fetch audio: " ++ reason))
  /\ ~ In LoadFFmpeg effects
  /\ (forall name data, ~ In (WriteFile name data) effects)
  /\ existsb usesEngine effects = false.
Proof.
  intros Hne Hw effects.
  assert (Hshape : exists message,
             effects = [FetchSource srcUrl; PortPostMessage (failure message)]
             /\ (message = lit "No audio data received after fetch"
                 \/ exists reason, message = lit "Failed to fetch audio: " ++ reason)).
  { unfold effects, onPortMessage, request. cbn [rq_type rq_srcUrl].
    rewrite JSFacts.eqb_refl.
    destruct srcUrl as [|c u]; [contradiction|].
    pose proof (fetchAudio_effects w (c :: u)) as Ht.
    destruct (fetchAudio_unusable w (c :: u) Hw) as [[e He] | He];
      destruct (fetchAudio w (c :: u)) as [t1 r]; simpl in Ht, He; subst t1 r.
    - eexists. split; [reflexivity|]. right. eexists. reflexivity.
    - eexists. split; [reflexivity|]. left. reflexivity. }
  destruct Hshape as [message [Heq Hm]].
  split; [exists message; split; assumption|].
  rewrite Heq. repeat split.
  - intros [H|[H|[]]]; discriminate.
  - intros name data [H|[H|[]]]; discriminate.
Qed.

Lemma unusable_source_stops_before_engine_witness :
  onPortMessage notFound waterRequest
  = [FetchSource waterUrl;
     PortPostMessage
       (failure (lit "Failed to fetch audio: Fetch failed: 404 Not Found"))]
  /\ ~ In LoadFFmpeg (onPortMessage notFound waterRequest).
Proof.
  assert (Hne : waterUrl <> []) by discriminate.
  destruct (unusable_source_stops_before_engine notFound waterUrl
              (lit "En-us-water") Hne eq_refl) as [_ [Hload _]].
  split; [reflexivity | exact Hload].
Defined.

End FetchClaim.

(** ** The coordinator *)

Module CoordinatorFacts.
Import Offscreen Coordinator.

Lemma toUint8_byte b : toUint8 (Z.of_N (Byte.to_N b)) = b.
Proof.
  unfold toUint8. pose proof (Byte.to_N_bounded b) as Hb.
  rewrite Z.mod_small by lia.
  rewrite N2Z.id, Byte.of_to_N. reflexivity.
Qed.

(** Rebuilding the typed array from the plain array gives the bytes
    back. *)
Lemma newUint8Array_arrayFrom out : newUint8Array (arrayFrom out) = out.
Proof.
  unfold newUint8Array, arrayFrom. rewrite map_map.
  induction out as [|b out IH]; simpl; [reflexivity|].
  rewrite toUint8_byte, IH. reflexivity.
Qed.

(** A promise settles once. *)
Lemma settle_keeps s j old :
  settled j = Some old -> settled (settle s j) = Some old.
Proof. unfold settle. simpl. intros ->. reflexivity. Qed.

Lemma jobStep_keeps ev j old :
  settled j = Some old -> settled (jobStep ev j) = Some old.
Proof.
  intros H. destruct ev as [created ping a b | t | m | r]; simpl; try exact H.
  - unfold fire. destruct (timer j) as [due|]; [|exact H].
    destruct (due <=? t)%Z; [|exact H]. apply settle_keeps. exact H.
  - unfold messageListener.
    destruct (listening j && JS.eqb (rm_type m) TRANSCODE_COMPLETE); [|exact H].
    apply settle_keeps. exact H.
Qed.

Lemma jobRun_keeps evs :
  forall j old, settled j = Some old -> settled (jobRun evs j) = Some old.
Proof.
  induction evs as [|ev evs IH]; intros j old H; simpl; [exact H|].
  apply IH, jobStep_keeps, H.
Qed.

(** An event acts on each call already made through [jobStep], and on
    nothing else of it. *)
Lemma step_transcodes w ev id j :
  nth_error (transcodes w) id = Some j ->
  nth_error (transcodes (step w ev)) id = Some (jobStep ev j).
Proof.
  intros H. destruct ev as [created ping a b | t | m | r]; simpl.
  - unfold transcodeToWav.
    destruct (ensureOffscreenAndReady created ping (offscreenReady w))
      as [ready [message|]]; simpl;
      (rewrite nth_error_app1; [exact H | apply nth_error_Some; congruence]).
  - rewrite nth_error_map, H. reflexivity.
  - rewrite nth_error_map, H. reflexivity.
  - exact H.
Qed.

Lemma run_transcodes evs :
  forall w id j,
    nth_error (transcodes w) id = Some j ->
    nth_error (transcodes (run evs w)) id = Some (jobRun evs j).
Proof.
  induction evs as [|ev evs IH]; intros w id j H; simpl; [exact H|].
  apply IH, step_transcodes, H.
Qed.

(** The call that a dispatch to a ready page adds. *)
Lemma dispatched_transcode created engineLoaded audioUrl baseName w :
  nth_error
    (transcodes (transcodeToWav created (readyPing engineLoaded)
                   audioUrl baseName w))
    (length (transcodes w))
  = Some {| timer := Some (clock w + 90000)%Z;
            listening := true; settled := None |}.
Proof.
  unfold transcodeToWav, readyPing. simpl.
  rewrite nth_error_app2 by lia. rewrite Nat.sub_diag. reflexivity.
Qed.

(** A call whose timer has fired stays as it is while no completion
    message arrives. *)
Lemma timed_out_stays evs :
  Forall (fun ev => quiet ev = true) evs ->
  jobRun evs {| timer := None; listening := true;
                settled := Some (Rejected timeoutMessage) |}
  = {| timer := None; listening := true;
       settled := Some (Rejected timeoutMessage) |}.
Proof.
  induction 1 as [|ev evs Hq Hrest IH]; simpl; [reflexivity|].
  destruct ev as [created ping a b | t | m | r]; simpl; try exact IH.
  unfold messageListener. simpl in Hq |- *.
  apply negb_true_iff in Hq. rewrite Hq. exact IH.
Qed.

(** A call waiting for a completion that does not arrive: nothing
    happens to it until the clock reaches the time its timer is due,
    and then it is rejected with the timeout. *)
Lemma armed_until_due due evs :
  Forall (fun ev => quiet ev = true) evs ->
  jobRun evs {| timer := Some due; listening := true; settled := None |}
  = if reaches due evs
    then {| timer := None; listening := true;
            settled := Some (Rejected timeoutMessage) |}
    else {| timer := Some due; listening := true; settled := None |}.
Proof.
  induction 1 as [|ev evs Hq Hrest IH]; simpl; [reflexivity|].
  destruct ev as [created ping a b | t | m | r]; simpl; try exact IH.
  - unfold fire. simpl. destruct (due <=? t)%Z; simpl; [|exact IH].
    apply timed_out_stays. exact Hrest.
  - unfold messageListener. simpl in Hq |- *.
    apply negb_true_iff in Hq. rewrite Hq. exact IH.
Qed.

End CoordinatorFacts.

Module CoordinatorClaims.
Import Offscreen Coordinator JobFacts CoordinatorFacts Samples.

(** C2, as the code has it.  Whether or not the job is the first one
    after a load of the engine, the promise of a dispatch to a ready
    page stays pending, while no completion message of any job arrives,
    until the clock reaches 90 seconds after the dispatch, and is
    rejected with the timeout then.  Completion messages carry no job
    id: one that arrives before the 90 seconds, from whichever job,
    settles the dispatch with what it carries.  After the timeout the
    listener of the dispatch is still registered; a completion message
    that arrives then removes that listener, and neither it nor anything
    else that happens later changes how the dispatch settled. *)
Theorem transcode_rejects_at_90s
    (w : Worker) (created engineLoaded : bool) (audioUrl baseName : jsstring)
    (evs later : list Event) (m : RuntimeMessage) :
  let id := length (transcodes w) in
  let w1 := transcodeToWav created (readyPing engineLoaded) audioUrl baseName w in
  Forall (fun ev => quiet ev = true) evs ->
  JS.eqb (rm_type m) TRANSCODE_COMPLETE = true ->
  settledAt id (run evs w1)
  = (if reaches (clock w + 90000) evs
     then Some (Rejected timeoutMessage) else None)
  /\ (reaches (clock w + 90000) evs = false ->
      settledAt id (step (run evs w1) (OnMessage m)) = Some (settlementOf m))
  /\ (reaches (clock w + 90000) evs = true ->
      nth_error (transcodes (run evs w1)) id
      = Some {| timer := None; listening := true;
                settled := Some (Rejected timeoutMessage) |}
      /\ nth_error (transcodes (step (run evs w1) (OnMessage m))) id
         = Some {| timer := None; listening := false;
                   settled := Some (Rejected timeoutMessage) |}
      /\ settledAt id (run later (run evs w1)) = Some (Rejected timeoutMessage)).
Proof.
  intros id w1 Hq Hm.
  pose proof (dispatched_transcode created engineLoaded audioUrl baseName w) as Hj.
  fold w1 in Hj. fold id in Hj.
  pose proof (run_transcodes evs w1 id _ Hj) as Hr.
  rewrite armed_until_due in Hr by exact Hq.
  assert (Hfirst : settledAt id (run evs w1)
                   = if reaches (clock w + 90000) evs
                     then Some (Rejected timeoutMessage) else None).
  { unfold settledAt. rewrite Hr.
    destruct (reaches (clock w + 90000) evs); reflexivity. }
  split; [exact Hfirst|].
  split; intros Hdue; rewrite Hdue in Hr.
  - unfold settledAt.
    rewrite (step_transcodes _ (OnMessage m) id _ Hr).
    cbn [jobStep]. unfold messageListener. cbn [listening andb].
    rewrite Hm. reflexivity.
  - split; [exact Hr|]. split.
    + rewrite (step_transcodes _ (OnMessage m) id _ Hr).
      cbn [jobStep]. unfold messageListener. cbn [listening andb].
      rewrite Hm. reflexivity.
    + unfold settledAt. rewrite (run_transcodes later _ id _ Hr).
      apply jobRun_keeps. reflexivity.
Qed.

Lemma transcode_rejects_at_90s_witness :
  settledAt 0 (run [Elapse 89999] coldDispatch) = None
  /\ settledAt 0 (step (run [Elapse 89999] coldDispatch) (OnMessage lateCompletion))
     = Some (Resolved (Some (lit "En-us-water.wav")) wavBytes)
  /\ settledAt 0 (run [Elapse 90000] coldDispatch)
     = Some (Rejected timeoutMessage)
  /\ nth_error
       (transcodes (step (run [Elapse 90000] coldDispatch) (OnMessage lateCompletion)))
       0
     = Some {| timer := None; listening := false;
               settled := Some (Rejected timeoutMessage) |}
  /\ settledAt 0 (run [OnMessage lateCompletion] (run [Elapse 90000] coldDispatch))
     = Some (Rejected timeoutMessage).
Proof.
  assert (Hq : forall t, Forall (fun ev => quiet ev = true) [Elapse t])
    by (intros t; repeat constructor).
  destruct (transcode_rejects_at_90s initial true false waterUrl
              (lit "En-us-water") [Elapse 89999] [] lateCompletion
              (Hq 89999%Z) eq_refl) as [Ha [Hb _]].
  destruct (transcode_rejects_at_90s initial true false waterUrl
              (lit "En-us-water") [Elapse 90000] [OnMessage lateCompletion]
              lateCompletion (Hq 90000%Z) eq_refl) as [Hc [_ Hd]].
  destruct (Hd eq_refl) as [_ [He Hf]].
  split; [exact Ha|]. split; [exact (Hb eq_refl)|].
  split; [exact Hc|]. split; [exact He | exact Hf].
Defined.

(** C2 as stated fails, in three ways.  The first dispatch to a page
    whose engine is not loaded is rejected when the clock reaches 90
    seconds, not 120.  The listener of that dispatch is still registered
    then, so that a completion message arriving later changes the state
    of the service worker (it unregisters the listener).  And a dispatch
    whose own job never sends a completion (its source answers 404) does
    not wait for its deadline when another job completes: with the clock
    still at 0, the completion of a second dispatch resolves the first
    with the bytes of the second. *)
Lemma cold_dispatch_rejected_at_90s :
  settledAt 0 (run [Elapse 90000] coldDispatch) = Some (Rejected timeoutMessage)
  /\ (90000 < 120000)%Z
  /\ step (run [Elapse 90000] coldDispatch) (OnMessage lateCompletion)
     <> run [Elapse 90000] coldDispatch
  /\ broadcasts (onPortMessage notFound waterRequest) = []
  /\ clock (run (arrivals (onPortMessage notFound waterRequest)
                 ++ [Dispatch false (readyPing true) waterUrl (lit "other")]
                 ++ arrivals (onPortMessage converts
                                (request waterUrl (lit "other"))))
               coldDispatch) = 0%Z
  /\ settledAt 0 (run (arrivals (onPortMessage notFound waterRequest)
                       ++ [Dispatch false (readyPing true) waterUrl (lit "other")]
                       ++ arrivals (onPortMessage converts
                                      (request waterUrl (lit "other"))))
                     coldDispatch)
     = Some (Resolved (Some (lit "other.wav")) wavBytes).
Proof.
  split; [reflexivity|]. split; [reflexivity|].
  split; [vm_compute; discriminate|].
  repeat split; reflexivity.
Qed.

(** A completion message carries no job id: sent for a job that has
    timed out, it settles the next job that is waiting. *)
Lemma late_completion_settles_next_job :
  let w := run [Elapse 90000;
                Dispatch false (readyPing true) waterUrl (lit "other");
                OnMessage lateCompletion] coldDispatch in
  settledAt 0 w = Some (Rejected timeoutMessage)
  /\ settledAt 1 w = Some (Resolved (Some (lit "En-us-water.wav")) wavBytes).
Proof. split; reflexivity. Qed.

(** C1.  The claim asks for a completion message whatever the outcome
    of the job.  For a job whose source answers 404 the listener of the
    port posts the failure on the port and sends no runtime message;
    the service worker has no listener on the port, so the promise of
    the dispatch stays pending and is rejected by its own timer at 90
    seconds, with the message of the timeout rather than of the
    failure. *)
Theorem failed_job_sends_no_completion :
  let effects := onPortMessage notFound waterRequest in
  effects
  = [FetchSource waterUrl;
     PortPostMessage
       (failure (lit "Failed to fetch audio: Fetch failed: 404 Not Found"))]
  /\ broadcasts effects = []
  /\ run (arrivals effects) coldDispatch = coldDispatch
  /\ settledAt 0 (run (arrivals effects) coldDispatch) = None
  /\ settledAt 0 (run (arrivals effects ++ [Elapse 90000]) coldDispatch)
     = Some (Rejected timeoutMessage).
Proof. repeat split; reflexivity. Qed.

(** C9.  The runtime message of a job is the completion built from the
    bytes read back from the engine: its [audioBytes] are the plain
    array of those bytes, the typed array rebuilt from it equals them
    byte for byte, and, when there is at least one byte, the listener
    of a pending dispatch resolves it with exactly those bytes. *)
Theorem completion_round_trip
    (w : JobWorld) (msg : PortRequest) (m : RuntimeMessage) :
  In (RuntimeSendMessage m) (onPortMessage w msg) ->
  exists out,
    readFile w = inr out
    /\ rm_audioBytes m = Some (arrayFrom out)
    /\ newUint8Array (arrayFrom out) = out
    /\ (out <> [] ->
        forall j, listening j = true -> settled j = None ->
          settled (messageListener m j)
          = Some (Resolved (Some (outNameOf msg)) out)).
Proof.
  rewrite In_broadcasts.
  destruct (onPortMessage_broadcasts w msg) as [H | [out [Hread H]]]; rewrite H.
  - intros [].
  - intros [<- | []]. exists out.
    split; [exact Hread|]. split; [reflexivity|].
    split; [apply newUint8Array_arrayFrom|].
    intros Hne j Hl Hs. unfold messageListener. rewrite Hl.
    cbn [completion rm_type andb]. rewrite JSFacts.eqb_refl.
    unfold settle. cbn [settled]. rewrite Hs.
    unfold settlementOf. cbn [completion rm_ok rm_audioBytes rm_filename negb].
    destruct out as [|b out]; [contradiction|].
    cbn [arrayFrom map].
    change (Z.of_N (Byte.to_N b) :: map (fun b0 => Z.of_N (Byte.to_N b0)) out)
      with (arrayFrom (b :: out)).
    rewrite newUint8Array_arrayFrom. reflexivity.
Qed.

Lemma completion_round_trip_witness :
  In (RuntimeSendMessage lateCompletion) (onPortMessage converts waterRequest)
  /\ newUint8Array (arrayFrom wavBytes) = wavBytes
  /\ settledAt 0 (run (arrivals (onPortMessage converts waterRequest)) coldDispatch)
     = Some (Resolved (Some (lit "En-us-water.wav")) wavBytes).
Proof.
  assert (Hin : In (RuntimeSendMessage lateCompletion)
                   (onPortMessage converts waterRequest)).
  { vm_compute. do 7 right. left. reflexivity. }
  destruct (completion_round_trip converts waterRequest lateCompletion Hin)
    as [out [Hread [_ [Hround _]]]].
  injection Hread as <-.
  split; [exact Hin|]. split; [exact Hround | reflexivity].
Defined.

End CoordinatorClaims.

(** ** More on a job in the offscreen page *)

Module JobExtras.
Import Offscreen Observed JobFacts.

Lemma outName_not_inName msg : outNameOf msg <> inName.
Proof.
  unfold outNameOf, inName. intros H.
  apply (f_equal (@rev N)) in H.
  destruct (rq_outBase msg) as [[|c base]|]; try discriminate H.
  rewrite rev_app_distr in H. discriminate H.
Qed.

(** X1.  Whatever the request and whatever happens to the job, the
    listener of the port answers exactly once: with one reply on the port
    or with one runtime message, never with both and never with
    neither. *)
Theorem port_message_answered_once (w : JobWorld) (msg : PortRequest) :
  length (filter isReply (onPortMessage w msg)) = 1.
Proof.
  unfold onPortMessage.
  destruct (rq_type msg) as [t|]; [|reflexivity].
  destruct (JS.eqb t TRANSCODE_TO_WAV); [|reflexivity].
  destruct (rq_srcUrl msg) as [[|c u]|]; try reflexivity.
  unfold fetchAudio, await.
  destruct (match sourceFetch w with
            | FetchRejected e => inl e
            | FetchResponse ok status statusText body =>
                if ok then body
                else inl (newError (lit "Fetch failed: " ++ status
                                    ++ lit " " ++ statusText))
            end) as [e|[|b bs]]; try reflexivity.
  unfold transcode, tryCatch, andThen, awaitUnit, await, perform, done.
  destruct (ffmpegLoad w); [reflexivity|].
  destruct (writeFile w); [reflexivity|].
  destruct (exec w); [reflexivity|].
  destruct (readFile w); [reflexivity|].
  destruct (deleteIn w); [reflexivity|].
  destruct (deleteOut w); reflexivity.
Qed.

(** The effects of a request that is taken up, whose source gives at
    least one byte. *)
Lemma onPortMessage_usable w srcUrl outBase :
  srcUrl <> [] -> sourceUnusable w = false ->
  exists b bs,
    onPortMessage w (request srcUrl outBase)
    = FetchSource srcUrl :: fst (transcode w (request srcUrl outBase) (b :: bs)).
Proof.
  intros Hne Hs. unfold onPortMessage, request. cbn [rq_type rq_srcUrl].
  rewrite JSFacts.eqb_refl.
  destruct srcUrl as [|c u]; [contradiction|].
  unfold sourceUnusable in Hs. unfold fetchAudio, await.
  destruct (sourceFetch w) as [e|ok status statusText body]; [discriminate|].
  destruct ok; [|discriminate]. simpl in Hs.
  destruct body as [e|[|b bs]]; try discriminate.
  exists b, bs. reflexivity.
Qed.

(** X2.  The exit code of [ffmpeg.exec] is never looked at: the effects of
    a job are the same for every exit code, and a job whose source, load
    and write succeed is reported as a success, with the bytes read back,
    whatever the exit code. *)
Theorem exit_code_is_ignored
    (w : JobWorld) (srcUrl outBase : jsstring) (code code' : Z) (out : Uint8Array) :
  srcUrl <> [] -> sourceUnusable w = false ->
  ffmpegLoad w = None -> writeFile w = None -> readFile w = inr out ->
  onPortMessage (withExitCode code w) (request srcUrl outBase)
  = onPortMessage (withExitCode code' w) (request srcUrl outBase)
  /\ broadcasts (onPortMessage (withExitCode code w) (request srcUrl outBase))
     = [completion (outNameOf (request srcUrl outBase)) out].
Proof.
  intros Hne Hs Hl Hw Hr. split.
  - unfold onPortMessage, request. cbn [rq_type rq_srcUrl].
    destruct (JS.eqb TRANSCODE_TO_WAV TRANSCODE_TO_WAV); [|reflexivity].
    destruct srcUrl; reflexivity.
  - destruct (onPortMessage_usable (withExitCode code w) srcUrl outBase Hne Hs)
      as [b [bs Heq]].
    rewrite Heq.
    change (FetchSource srcUrl
            :: fst (transcode (withExitCode code w) (request srcUrl outBase) (b :: bs)))
      with ([FetchSource srcUrl]
            ++ fst (transcode (withExitCode code w) (request srcUrl outBase) (b :: bs))).
    rewrite broadcasts_app, transcode_broadcasts.
    unfold withExitCode. cbn [ffmpegLoad writeFile exec readFile].
    rewrite Hl, Hw, Hr. reflexivity.
Qed.

Lemma exit_code_is_ignored_witness :
  broadcasts (onPortMessage (withExitCode 1 Samples.converts) Samples.waterRequest)
  = [completion (lit "En-us-water.wav") Samples.wavBytes].
Proof.
  assert (Hne : Samples.waterUrl <> []) by discriminate.
  destruct (exit_code_is_ignored Samples.converts Samples.waterUrl
              (lit "En-us-water") 1 0 Samples.wavBytes Hne
              eq_refl eq_refl eq_refl eq_refl) as [_ Hok].
  exact Hok.
Defined.

(** X3.  Once the engine has been asked to load, the input file is always
    deleted, whether the job succeeds or fails; the output file is deleted
    too, except in one case: the job succeeded and deleting the input file
    threw, which skips the second deletion. *)
Theorem cleanup_is_attempted (w : JobWorld) (msg : PortRequest) :
  In LoadFFmpeg (onPortMessage w msg) ->
  In (DeleteFile inName) (onPortMessage w msg)
  /\ (In (DeleteFile (outNameOf msg)) (onPortMessage w msg)
      <-> ~ (converted w = true /\ deleteIn w <> None)).
Proof.
  unfold onPortMessage.
  destruct (rq_type msg) as [t|]; [|intros [H|[]]; discriminate].
  destruct (JS.eqb t TRANSCODE_TO_WAV); [|intros [H|[]]; discriminate].
  destruct (rq_srcUrl msg) as [[|c u]|]; try (intros [H|[]]; discriminate).
  unfold fetchAudio, await.
  destruct (match sourceFetch w with
            | FetchRejected e => inl e
            | FetchResponse ok status statusText body =>
                if ok then body
                else inl (newError (lit "Fetch failed: " ++ status
                                    ++ lit " " ++ statusText))
            end) as [e|[|b bs]]; try (intros [H|[H|[]]]; discriminate).
  intros _. pose proof (outName_not_inName msg) as Hneq.
  unfold converted, transcode, tryCatch, andThen, awaitUnit, await, perform, done.
  destruct (ffmpegLoad w); [simpl; split; [tauto|]; split; [intros _ [H _]; discriminate | tauto]|].
  destruct (writeFile w); [simpl; split; [tauto|]; split; [intros _ [H _]; discriminate | tauto]|].
  destruct (exec w); [simpl; split; [tauto|]; split; [intros _ [H _]; discriminate | tauto]|].
  destruct (readFile w); [simpl; split; [tauto|]; split; [intros _ [H _]; discriminate | tauto]|].
  destruct (deleteIn w) as [e|].
  - simpl. split; [tauto|]. split.
    + intros [H|[H|[H|[H|[H|[H|[H|[H|[]]]]]]]]]; try discriminate.
      injection H as H. exfalso. apply Hneq. symmetry. exact H.
    + intros H. exfalso. apply H. split; [reflexivity | discriminate].
  - destruct (deleteOut w); simpl; (split; [tauto|]);
      (split; [intros _ [_ H]; apply H; reflexivity | tauto]).
Qed.

Lemma cleanup_is_attempted_witness :
  In (DeleteFile inName) (onPortMessage Samples.converts Samples.waterRequest)
  /\ In (DeleteFile (lit "En-us-water.wav"))
        (onPortMessage Samples.converts Samples.waterRequest).
Proof.
  assert (Hin : In LoadFFmpeg (onPortMessage Samples.converts Samples.waterRequest)).
  { vm_compute. right. left. reflexivity. }
  destruct (cleanup_is_attempted Samples.converts Samples.waterRequest Hin)
    as [Hi Ho].
  split; [exact Hi|]. apply Ho. intros [_ H]. apply H. reflexivity.
Defined.

(** A message of another type, or one without a source URL, is
    answered with a failure on the port and nothing else: no fetch, no
    engine operation, no runtime message. *)
Theorem malformed_request_is_refused (w : JobWorld) (msg : PortRequest) :
  rq_type msg <> Some TRANSCODE_TO_WAV
  \/ rq_srcUrl msg = None \/ rq_srcUrl msg = Some [] ->
  onPortMessage w msg
  = [PortPostMessage
       (failure (if match rq_type msg with
                    | Some t => JS.eqb t TRANSCODE_TO_WAV
                    | None => false
                    end
                 then lit "No audio URL provided"
                 else lit "Unknown message type"))].
Proof.
  unfold onPortMessage. intros H.
  destruct (rq_type msg) as [t|]; [|reflexivity].
  destruct (JS.eqb t TRANSCODE_TO_WAV) eqn:Ht; [|reflexivity].
  apply JSFacts.eqb_eq in Ht. subst t.
  destruct H as [H | [H | H]]; [contradiction | rewrite H; reflexivity
                                | rewrite H; reflexivity].
Qed.

Lemma malformed_request_is_refused_witness :
  onPortMessage Samples.converts
    {| rq_type := Some (lit "OFFSCREEN_PING"); rq_srcUrl := None;
       rq_outBase := None |}
  = [PortPostMessage (failure (lit "Unknown message type"))].
Proof.
  apply (malformed_request_is_refused Samples.converts
           {| rq_type := Some (lit "OFFSCREEN_PING"); rq_srcUrl := None;
              rq_outBase := None |}).
  left. discriminate.
Defined.

End JobExtras.

(** ** More on the engine load *)

Module LoadExtras.
Import Offscreen Observed LoadFacts.

Lemma loadRun_app evs later e :
  loadRun (evs ++ later) e = loadRun later (loadRun evs e).
Proof. unfold loadRun. apply fold_left_app. Qed.

(** X4.  In every state the offscreen page can reach from its start, the
    cached promise is never a rejected promise, [loaded] is true exactly
    when the cached promise is fulfilled, and callers are suspended only
    while a load is pending. *)
Theorem load_state_is_consistent (evs : list LoadEvent) :
  let e := loadRun evs unloaded in
  (forall err, loadPromise e <> Some (RejectedWith err))
  /\ (loaded e = true <-> loadPromise e = Some Fulfilled)
  /\ (awaiting e <> [] -> loadPromise e = Some Pending).
Proof.
  intros e.
  assert (He : consistent e).
  { apply loadRun_consistent. unfold consistent. simpl. auto. }
  unfold consistent in He.
  destruct (loadPromise e) as [[| |err]|]; [| | contradiction |].
  - split; [discriminate|]. split; [|reflexivity].
    rewrite He. split; discriminate.
  - destruct He as [Hl Ha]. split; [discriminate|]. split; [tauto|].
    intros H. contradiction.
  - destruct He as [Hl Ha]. split; [discriminate|]. split.
    + rewrite Hl. split; discriminate.
    + intros H. contradiction.
Qed.

(** Once the engine is loaded, events only add calls that return at
    once. *)
Lemma loaded_run evs :
  forall e,
    consistent e -> loaded e = true ->
    loadRun evs e
    = {| loaded := true; loadPromise := loadPromise e; awaiting := awaiting e;
         attempts := attempts e;
         completed := completed e ++ map (fun c => (c, None)) (callers evs) |}.
Proof.
  induction evs as [|ev evs IH]; intros e He Hl.
  - simpl. rewrite app_nil_r. destruct e; simpl in *. subst. reflexivity.
  - assert (Hstep : loadStep e ev
                    = match ev with
                      | Call c => complete c None e
                      | Settle _ => e
                      end).
    { destruct ev as [c|w]; simpl.
      - unfold loadFFmpeg. rewrite Hl. reflexivity.
      - unfold settleLoad. unfold consistent in He.
        destruct (loadPromise e) as [[| |err]|]; try reflexivity.
        rewrite He in Hl. discriminate. }
    change (loadRun (ev :: evs) e) with (loadRun evs (loadStep e ev)).
    rewrite IH.
    + rewrite Hstep. destruct ev as [c|w]; simpl; [|reflexivity].
      rewrite <- app_assoc. reflexivity.
    + apply loadStep_consistent, He.
    + rewrite Hstep. destruct ev; simpl; exact Hl.
Qed.

Lemma load_state_is_consistent_witness :
  loaded (loadRun [Call 1; Call 2; Settle Samples.loads] unloaded) = true
  /\ awaiting (loadRun [Call 1; Call 2; Settle Samples.loads] unloaded) = [].
Proof.
  destruct (load_state_is_consistent [Call 1; Call 2; Settle Samples.loads])
    as [_ [Hloaded _]].
  split; [apply Hloaded|]; reflexivity.
Defined.

(** X5.  Once a load has succeeded the engine stays loaded: whatever
    happens afterwards, no further load attempt is started, and every
    later call of [loadFFmpeg] returns normally at once. *)
Theorem loaded_engine_is_never_reloaded (before after : list LoadEvent) :
  loaded (loadRun before unloaded) = true ->
  let e := loadRun before unloaded in
  let e' := loadRun (before ++ after) unloaded in
  loaded e' = true
  /\ attempts e' = attempts e
  /\ completed e' = completed e ++ map (fun c => (c, None)) (callers after).
Proof.
  intros Hl e e'. unfold e'. rewrite loadRun_app. fold e.
  rewrite loaded_run; [simpl; auto | | exact Hl].
  apply loadRun_consistent. unfold consistent. simpl. auto.
Qed.

Lemma loaded_engine_is_never_reloaded_witness :
  attempts (loadRun ([Call 1; Settle Samples.loads] ++ [Call 2; Call 3]) unloaded) = 1
  /\ completed (loadRun ([Call 1; Settle Samples.loads] ++ [Call 2; Call 3]) unloaded)
     = [(1, None); (2, None); (3, None)].
Proof.
  destruct (loaded_engine_is_never_reloaded
              [Call 1; Settle Samples.loads] [Call 2; Call 3] eq_refl)
    as [_ [Ha Hc]].
  split; [exact Ha | exact Hc].
Defined.

(** X6.  A failed load is not final.  When a first group of callers has
    seen a load fail, a second group calling afterwards starts exactly one
    new attempt, which runs on its own: the first callers all got the
    error of the first load, the second callers all get the outcome of
    the second, and the engine is loaded if the second succeeds. *)
Theorem failed_load_can_be_retried
    (c : nat) (cs : list nat) (w : LoadWorld)
    (c2 : nat) (cs2 : list nat) (w2 : LoadWorld) (err : Error) :
  loadBody w = Some err ->
  let e := loadRun (map Call (c :: cs) ++ [Settle w]
                    ++ map Call (c2 :: cs2) ++ [Settle w2]) unloaded in
  attempts e = 2
  /\ completed e
     = map (fun caller => (caller, Some err)) (c :: cs)
       ++ map (fun caller => (caller, loadBody w2)) (c2 :: cs2)
  /\ loaded e = match loadBody w2 with None => true | Some _ => false end.
Proof.
  intros Hw e. unfold e. clear e.
  rewrite loadRun_app.
  assert (H1 : loadRun (map Call (c :: cs)) unloaded
               = {| loaded := false; loadPromise := Some Pending;
                    awaiting := c :: cs; attempts := 1; completed := [] |}).
  { change (loadRun (map Call (c :: cs)) unloaded)
      with (loadRun (map Call cs) (loadFFmpeg c unloaded)).
    rewrite calls_join_pending_load by reflexivity. reflexivity. }
  rewrite H1. rewrite loadRun_app.
  assert (H2 : loadRun [Settle w]
                 {| loaded := false; loadPromise := Some Pending;
                    awaiting := c :: cs; attempts := 1; completed := [] |}
               = {| loaded := false; loadPromise := None; awaiting := [];
                    attempts := 1;
                    completed := map (fun caller => (caller, Some err)) (c :: cs) |}).
  { simpl. unfold settleLoad. simpl. rewrite Hw. reflexivity. }
  rewrite H2. rewrite loadRun_app.
  set (e1 := {| loaded := false; loadPromise := None; awaiting := [];
                attempts := 1;
                completed := map (fun caller => (caller, Some err)) (c :: cs) |}).
  assert (H3 : loadRun (map Call (c2 :: cs2)) e1
               = {| loaded := false; loadPromise := Some Pending;
                    awaiting := c2 :: cs2; attempts := 2;
                    completed := completed e1 |}).
  { change (loadRun (map Call (c2 :: cs2)) e1)
      with (loadRun (map Call cs2) (loadFFmpeg c2 e1)).
    rewrite calls_join_pending_load by reflexivity. reflexivity. }
  rewrite H3. simpl. unfold settleLoad. simpl.
  destruct (loadBody w2); simpl; auto.
Qed.

Lemma failed_load_can_be_retried_witness :
  let e := loadRun (map Call [1; 2] ++ [Settle Samples.hangs]
                    ++ map Call [3] ++ [Settle Samples.loads]) unloaded in
  attempts e = 2 /\ loaded e = true.
Proof.
  destruct (failed_load_can_be_retried 1 [2] Samples.hangs 3 [] Samples.loads
              (newError (lit "FFmpeg load timeout after 60 seconds")) eq_refl)
    as [Ha [_ Hl]].
  split; [exact Ha | exact Hl].
Defined.

(** What the number of attempts is bounded by, given the failures so
    far. *)
Lemma attempts_bound evs :
  forall e F,
    match loadPromise e with
    | None => attempts e <= F
    | Some _ => attempts e <= S F
    end ->
    match loadPromise (loadRun evs e) with
    | None => attempts (loadRun evs e) <= F + failedSettles evs
    | Some _ => attempts (loadRun evs e) <= S (F + failedSettles evs)
    end.
Proof.
  induction evs as [|ev evs IH]; intros e F H.
  - simpl. unfold failedSettles. simpl. rewrite Nat.add_0_r. exact H.
  - change (loadRun (ev :: evs) e) with (loadRun evs (loadStep e ev)).
    destruct ev as [c|w].
    + change (failedSettles (Call c :: evs)) with (failedSettles evs).
      apply IH. simpl. unfold loadFFmpeg.
      destruct (loaded e); [exact H|].
      destruct (loadPromise e) as [[| |err]|] eqn:Hp; simpl in H |- *;
        rewrite ?Hp; simpl; try exact H. lia.
    + assert (Hf : failedSettles (Settle w :: evs)
                   = (match loadBody w with Some _ => 1 | None => 0 end)
                     + failedSettles evs).
      { unfold failedSettles. simpl. destruct (loadBody w); reflexivity. }
      rewrite Hf.
      replace (F + ((match loadBody w with Some _ => 1 | None => 0 end)
                    + failedSettles evs))
        with ((F + match loadBody w with Some _ => 1 | None => 0 end)
              + failedSettles evs) by lia.
      apply IH. simpl. unfold settleLoad.
      destruct (loadPromise e) as [[| |err]|] eqn:Hp; simpl in H |- *;
        rewrite ?Hp; try (destruct (loadBody w); simpl; lia).
Qed.

(** X7.  Whatever the order of calls and of loads that settle, the number
    of load attempts ever started is at most one more than the number of
    loads that failed: a new attempt starts only after a failure (or at
    the very first call). *)
Theorem attempts_follow_failures (evs : list LoadEvent) :
  attempts (loadRun evs unloaded) <= S (failedSettles evs).
Proof.
  pose proof (attempts_bound evs unloaded 0) as H. simpl in H.
  specialize (H (le_n 0)).
  destruct (loadPromise (loadRun evs unloaded)); lia.
Qed.

End LoadExtras.

(** ** More on the coordinator *)

Module CoordinatorExtras.
Import Offscreen Coordinator Readiness CoordinatorFacts.

(** X8.  When the offscreen page does not answer the ping as ready (no
    answer within 5 seconds, a runtime error, or an answer that is not
    ready), the dispatch is rejected with the matching error: no request
    is posted on a port, no timer of 90 seconds is armed, no listener is
    registered, and nothing that happens later changes the rejection. *)
Theorem unready_page_rejects_dispatch
    (w : Worker) (created : bool) (ping : Ping) (audioUrl baseName : jsstring)
    (later : list Event) :
  pingAccepted ping = false ->
  let w1 := transcodeToWav created ping audioUrl baseName w in
  posted w1 = posted w
  /\ nth_error (transcodes w1) (length (transcodes w))
     = Some {| timer := None; listening := false;
               settled := Some (Rejected (pingFailure ping)) |}
  /\ settledAt (length (transcodes w)) (run later w1)
     = Some (Rejected (pingFailure ping)).
Proof.
  intros Hp w1.
  assert (Hj : nth_error (transcodes w1) (length (transcodes w))
               = Some {| timer := None; listening := false;
                         settled := Some (Rejected (pingFailure ping)) |}
               /\ posted w1 = posted w).
  { unfold w1, transcodeToWav, ensureOffscreenAndReady.
    destruct ping as [|message|[[[|] l]|]]; try discriminate Hp; simpl;
      (rewrite nth_error_app2 by lia; rewrite Nat.sub_diag; auto). }
  destruct Hj as [Hj Hposted].
  split; [exact Hposted|]. split; [exact Hj|].
  unfold settledAt. rewrite (run_transcodes later w1 _ _ Hj).
  apply jobRun_keeps. reflexivity.
Qed.

Lemma unready_page_rejects_dispatch_witness :
  settledAt 0 (run [Elapse 90000; OnMessage Samples.lateCompletion]
                 (transcodeToWav true PingTimeout Samples.waterUrl
                    (lit "En-us-water") initial))
  = Some (Rejected (lit "Offscreen document failed to respond within 5 seconds")).
Proof.
  destruct (unready_page_rejects_dispatch initial true PingTimeout
              Samples.waterUrl (lit "En-us-water")
              [Elapse 90000; OnMessage Samples.lateCompletion] eq_refl)
    as [_ [_ H]].
  exact H.
Defined.

(** X9.  A promise of [transcodeToWav] settles once: when a dispatch has
    resolved or rejected, no later event (a timer, a completion message,
    another dispatch) changes how it settled. *)
Theorem dispatch_settles_once
    (w : Worker) (id : nat) (s : Settlement) (later : list Event) :
  settledAt id w = Some s ->
  settledAt id (run later w) = Some s.
Proof.
  unfold settledAt.
  destruct (nth_error (transcodes w) id) as [j|] eqn:Hj; [|discriminate].
  intros Hs. rewrite (run_transcodes later w id j Hj).
  apply jobRun_keeps. exact Hs.
Qed.

Lemma dispatch_settles_once_witness :
  settledAt 0 (run [Elapse 100000]
                 (run (arrivals (onPortMessage Samples.converts Samples.waterRequest))
                    Samples.coldDispatch))
  = Some (Resolved (Some (lit "En-us-water.wav")) Samples.wavBytes).
Proof.
  apply (dispatch_settles_once
           (run (arrivals (onPortMessage Samples.converts Samples.waterRequest))
              Samples.coldDispatch) 0).
  reflexivity.
Defined.

(** A completion message settles a call that is armed with what the
    listener makes of the message. *)
Lemma armed_completion due m :
  isCompletion m = true ->
  messageListener m {| timer := Some due; listening := true; settled := None |}
  = {| timer := None; listening := false; settled := Some (settlementOf m) |}.
Proof.
  unfold isCompletion, messageListener. simpl. intros ->. reflexivity.
Qed.

(** X10.  A completion message that arrives before the 90 seconds are
    over settles the dispatch with the result it carries (resolved with
    the rebuilt bytes, or rejected with the error of the message), clears
    the timer and removes the listener; the deadline passing afterwards
    changes nothing. *)
Theorem completion_in_time_settles
    (w : Worker) (created engineLoaded : bool) (audioUrl baseName : jsstring)
    (evs later : list Event) (m : RuntimeMessage) :
  Forall (fun ev => quiet ev = true) evs ->
  reaches (clock w + 90000) evs = false ->
  isCompletion m = true ->
  let id := length (transcodes w) in
  let w1 := transcodeToWav created (readyPing engineLoaded) audioUrl baseName w in
  let w2 := step (run evs w1) (OnMessage m) in
  nth_error (transcodes w2) id
  = Some {| timer := None; listening := false; settled := Some (settlementOf m) |}
  /\ settledAt id (run later w2) = Some (settlementOf m).
Proof.
  intros Hq Hr Hm id w1 w2.
  pose proof (dispatched_transcode created engineLoaded audioUrl baseName w) as Hj.
  fold w1 in Hj. fold id in Hj.
  pose proof (run_transcodes evs w1 id _ Hj) as Hrun.
  rewrite armed_until_due in Hrun by exact Hq. rewrite Hr in Hrun.
  pose proof (step_transcodes (run evs w1) (OnMessage m) id _ Hrun) as Hstep.
  fold w2 in Hstep. simpl in Hstep. rewrite armed_completion in Hstep by exact Hm.
  split; [exact Hstep|].
  unfold settledAt. rewrite (run_transcodes later w2 id _ Hstep).
  apply jobRun_keeps. reflexivity.
Qed.

Lemma completion_in_time_settles_witness :
  settledAt 0 (run [Elapse 200000]
                 (step (run [Elapse 60000] Samples.coldDispatch)
                    (OnMessage Samples.lateCompletion)))
  = Some (Resolved (Some (lit "En-us-water.wav")) Samples.wavBytes).
Proof.
  assert (Hq : Forall (fun ev => quiet ev = true) [Elapse 60000])
    by (repeat constructor).
  destruct (completion_in_time_settles initial true false Samples.waterUrl
              (lit "En-us-water") [Elapse 60000] [Elapse 200000]
              Samples.lateCompletion Hq eq_refl eq_refl) as [_ H].
  exact H.
Defined.

(** X11.  Completion messages carry no job id.  One completion message is
    taken by every listener that is registered: afterwards no listener is
    left, and every dispatch that was still pending with its listener
    registered has settled with the result of that one message. *)
Theorem completion_settles_every_listener (w : Worker) (m : RuntimeMessage) :
  isCompletion m = true ->
  let w' := step w (OnMessage m) in
  Forall (fun j => listening j = false) (transcodes w')
  /\ (forall id j,
         nth_error (transcodes w) id = Some j ->
         listening j = true -> settled j = None ->
         settledAt id w' = Some (settlementOf m)).
Proof.
  intros Hm w'. split.
  - unfold w'. simpl. apply Forall_forall. intros j' Hin.
    apply in_map_iff in Hin. destruct Hin as [j [<- _]].
    unfold messageListener. unfold isCompletion in Hm. rewrite Hm.
    destruct (listening j) eqn:Hl; simpl; [reflexivity | exact Hl].
  - intros id j Hj Hl Hs. unfold settledAt, w'.
    rewrite (step_transcodes w (OnMessage m) id j Hj). simpl.
    unfold messageListener. unfold isCompletion in Hm. rewrite Hl, Hm. simpl.
    rewrite Hs. reflexivity.
Qed.

Lemma completion_settles_every_listener_witness :
  let w := run [Dispatch false (readyPing true) Samples.waterUrl (lit "other")]
             Samples.coldDispatch in
  settledAt 0 (step w (OnMessage Samples.lateCompletion))
  = Some (Resolved (Some (lit "En-us-water.wav")) Samples.wavBytes)
  /\ settledAt 1 (step w (OnMessage Samples.lateCompletion))
     = Some (Resolved (Some (lit "En-us-water.wav")) Samples.wavBytes).
Proof.
  intros w.
  destruct (completion_settles_every_listener w Samples.lateCompletion eq_refl)
    as [_ H].
  split.
  - apply (H 0 {| timer := Some 90000%Z; listening := true; settled := None |});
      reflexivity.
  - apply (H 1 {| timer := Some 90000%Z; listening := true; settled := None |});
      reflexivity.
Defined.

(** A call whose timer is armed has settled once the clock has reached
    the time the timer is due, whatever else happened. *)
Lemma armed_settles_by_due evs :
  forall j due,
    timer j = Some due -> reaches due evs = true ->
    settled (jobRun evs j) <> None.
Proof.
  induction evs as [|ev evs IH]; intros j due Ht Hr; [discriminate Hr|].
  simpl in Hr. simpl.
  assert (Hkeep : forall j', settled j' <> None -> settled (jobRun evs j') <> None).
  { intros j' Hs. destruct (settled j') as [s|] eqn:E; [|contradiction].
    rewrite (jobRun_keeps evs j' s E). discriminate. }
  destruct ev as [created ping a b | t | m | r]; simpl in Hr |- *.
  - apply (IH j due Ht Hr).
  - unfold fire. rewrite Ht.
    destruct (due <=? t)%Z eqn:Hd.
    + apply Hkeep. unfold settle. simpl. destruct (settled j); discriminate.
    + simpl in Hr. apply (IH j due Ht Hr).
  - unfold messageListener.
    destruct (listening j && JS.eqb (rm_type m) TRANSCODE_COMPLETE).
    + apply Hkeep. unfold settle. simpl. destruct (settled j); discriminate.
    + apply (IH j due Ht Hr).
  - apply (IH j due Ht Hr).
Qed.

(** X12.  No dispatch to a ready page waits for ever: whatever events
    follow it (other dispatches, messages of any kind, in any order), its
    promise has settled by the time the clock has reached 90 seconds
    after the dispatch. *)
Theorem dispatch_settles_within_deadline
    (w : Worker) (created engineLoaded : bool) (audioUrl baseName : jsstring)
    (evs : list Event) :
  reaches (clock w + 90000) evs = true ->
  settledAt (length (transcodes w))
    (run evs (transcodeToWav created (readyPing engineLoaded) audioUrl baseName w))
  <> None.
Proof.
  intros Hr.
  pose proof (dispatched_transcode created engineLoaded audioUrl baseName w) as Hj.
  unfold settledAt. rewrite (run_transcodes evs _ _ _ Hj).
  apply (armed_settles_by_due evs _ (clock w + 90000)%Z); [reflexivity | exact Hr].
Qed.

Lemma dispatch_settles_within_deadline_witness :
  settledAt 0
    (run [OnPortMessage (failure (lit "TypeError: x")); Elapse 95000]
       Samples.coldDispatch)
  <> None.
Proof.
  apply (dispatch_settles_within_deadline initial true false Samples.waterUrl
           (lit "En-us-water")
           [OnPortMessage (failure (lit "TypeError: x")); Elapse 95000]).
  reflexivity.
Defined.

(** X13.  The offscreen page answers every ping as ready, whether or not
    its engine is loaded: the answer carries [ready: true] and the value
    of [loaded].  So a dispatch to a page that answers is never refused
    for readiness: [offscreenReady] becomes true, the request for the
    URL and the base name is posted on the port, and the call is
    pending with its listener registered and its timer armed for 90
    seconds after the dispatch, while the engine may still have to load;
    the state of the engine makes no difference to what the service
    worker does. *)
Theorem answered_ping_is_always_ready
    (e e' : Engine) (w : Worker) (created : bool) (audioUrl baseName : jsstring) :
  let pingOf := fun eng => PingResponse (onRuntimeMessage (Some OFFSCREEN_PING) eng) in
  let w1 := transcodeToWav created (pingOf e) audioUrl baseName w in
  onRuntimeMessage (Some OFFSCREEN_PING) e = Some (true, loaded e)
  /\ pingAccepted (pingOf e) = true
  /\ offscreenReady w1 = true
  /\ posted w1 = posted w ++ [request audioUrl baseName]
  /\ transcodes w1
     = transcodes w ++ [{| timer := Some (clock w + 90000)%Z;
                           listening := true; settled := None |}]
  /\ transcodeToWav created (pingOf e') audioUrl baseName w = w1.
Proof.
  assert (H : forall eng,
             onRuntimeMessage (Some OFFSCREEN_PING) eng = Some (true, loaded eng)).
  { intros eng. unfold onRuntimeMessage. rewrite JSFacts.eqb_refl. reflexivity. }
  cbv zeta. rewrite (H e), (H e').
  split; [reflexivity|]. split; [reflexivity|].
  unfold transcodeToWav, ensureOffscreenAndReady. cbn.
  repeat split; reflexivity.
Qed.

End CoordinatorExtras.

(** ** More on discovery *)

Module DiscoveryExtras.
Import Content JSFacts DiscoveryFacts.

Lemma isPrefix_iff p : forall s, isPrefix p s = true <-> exists rest, s = p ++ rest.
Proof.
  induction p as [|a p IH]; intros s; simpl.
  - split; [intros _; exists s; reflexivity | reflexivity].
  - destruct s as [|b s].
    + split; [discriminate | intros [rest H]; discriminate].
    + rewrite andb_true_iff, N.eqb_eq, IH. split.
      * intros [-> [rest ->]]. exists rest. reflexivity.
      * intros [rest H]. injection H as -> ->. split; [reflexivity | eauto].
Qed.

Lemma endsWith_iff s suffix :
  endsWith s suffix = true <-> exists stem, s = stem ++ suffix.
Proof.
  unfold endsWith. rewrite isPrefix_iff. split.
  - intros [rest H]. exists (rev rest).
    apply (f_equal (@rev N)) in H. rewrite rev_involutive in H.
    rewrite H, rev_app_distr, rev_involutive. reflexivity.
  - intros [stem ->]. exists (rev stem). apply rev_app_distr.
Qed.

(** X14.  A file name passes the extension test exactly when, letters
    compared without case, it is some stem followed by a dot and one of
    the fourteen audio extensions at its very end; an extension in the
    middle of the name does not count. *)
Theorem extension_test_reads_the_end (filename : jsstring) :
  extensionMatches filename = true
  <-> exists stem ext,
        In ext audioExtensions
        /\ map lowerUnit filename = stem ++ 46%N :: ext.
Proof.
  unfold extensionMatches. rewrite existsb_exists. split.
  - intros [ext [Hin He]]. apply endsWith_iff in He. destruct He as [stem He].
    exists stem, ext. split; assumption.
  - intros [stem [ext [Hin He]]]. exists ext. split; [exact Hin|].
    apply endsWith_iff. exists stem. exact He.
Qed.

Lemma resolveDirectUrls_requests_exact w files :
  requests (resolveDirectUrls w files)
  = match files with
    | [] => []
    | _ :: _ => [ImageInfoQuery (joinTitles files)]
    end.
Proof.
  destruct files as [|f files]; [reflexivity|].
  unfold resolveDirectUrls, fetched, bind, parsed, requests.
  destruct (imageInfoQuery w _) as [|ok json]; [reflexivity|].
  destruct json as [pages|]; [|reflexivity]. simpl.
  pose proof (collected_requests pages) as Hr. unfold requests in Hr.
  destruct (collected pages) as [t r]. simpl in *. subst t. reflexivity.
Qed.

Lemma listAndResolve_requests w pageTitle :
  requests (listAndResolve w pageTitle)
  = MediaList pageTitle
    :: match outcome (listAudioFileTitles w pageTitle) with
       | Some (f :: fs) => [ImageInfoQuery (joinTitles (f :: fs))]
       | _ => []
       end.
Proof.
  unfold listAndResolve.
  pose proof (listAudioFileTitles_requests w pageTitle) as Hl.
  unfold requests, outcome, bind in *.
  destruct (listAudioFileTitles w pageTitle) as [t [files|]]; simpl in *; subst t;
    [|reflexivity].
  destruct files as [|f files]; [reflexivity|].
  pose proof (resolveDirectUrls_requests_exact w (f :: files)) as Hr.
  unfold requests in Hr.
  destruct (resolveDirectUrls w (f :: files)) as [t' r']. simpl in *.
  subst t'. reflexivity.
Qed.

Lemma discover_requests w pageTitle :
  requests (discover w pageTitle)
  = requests (listAndResolve w pageTitle)
    ++ match outcome (listAndResolve w pageTitle) with
       | Some [] => [GeneratorQuery pageTitle]
       | _ => []
       end.
Proof.
  unfold discover. unfold requests, outcome, bind.
  destruct (listAndResolve w pageTitle) as [t [[|c cs]|]]; simpl.
  - pose proof (fallback_requests w pageTitle) as Hf. unfold requests in Hf.
    destruct (fallbackActionApiDiscovery w pageTitle) as [t' r']. simpl in *.
    subst t'. reflexivity.
  - reflexivity.
  - rewrite app_nil_r. reflexivity.
Qed.

Lemma extension_test_reads_the_end_witness :
  extensionMatches (lit "En-us-water.OGG") = true.
Proof.
  apply (proj2 (extension_test_reads_the_end (lit "En-us-water.OGG"))).
  exists (lit "en-us-water"), (lit "ogg").
  split; [vm_compute; tauto | reflexivity].
Defined.

(** X15.  For a page title that is not empty the script issues the
    media-list request first, then the image-info query if and only if
    the media list gave at least one audio title, then the generator
    query if and only if the first two stages returned no candidate; so
    it issues between one and three requests, and none for an empty
    title. *)
Theorem discovery_requests_in_order (w : Wiki) (pageTitle : jsstring) :
  fst (main w pageTitle)
  = match pageTitle with
    | [] => []
    | _ :: _ =>
        MediaList pageTitle
        :: match outcome (listAudioFileTitles w pageTitle) with
           | Some (f :: fs) => [ImageInfoQuery (joinTitles (f :: fs))]
           | _ => []
           end
        ++ match outcome (listAndResolve w pageTitle) with
           | Some [] => [GeneratorQuery pageTitle]
           | _ => []
           end
    end
  /\ length (fst (main w pageTitle)) <= 3.
Proof.
  assert (Heq : fst (main w pageTitle)
                = match pageTitle with
                  | [] => []
                  | _ :: _ =>
                      MediaList pageTitle
                      :: match outcome (listAudioFileTitles w pageTitle) with
                         | Some (f :: fs) => [ImageInfoQuery (joinTitles (f :: fs))]
                         | _ => []
                         end
                      ++ match outcome (listAndResolve w pageTitle) with
                         | Some [] => [GeneratorQuery pageTitle]
                         | _ => []
                         end
                  end).
  { destruct pageTitle as [|c t]; [reflexivity|].
    rewrite main_requests by reflexivity.
    rewrite discover_requests, listAndResolve_requests. reflexivity. }
  split; [exact Heq|]. rewrite Heq.
  destruct pageTitle as [|c t]; [simpl; lia|].
  destruct (outcome (listAudioFileTitles w (c :: t))) as [[|f fs]|];
    destruct (outcome (listAndResolve w (c :: t))) as [[|c0 cs]|]; simpl; lia.
Qed.

(** X16.  A failure in the first two stages is not followed by the
    fallback.  When the media-list request fails on the network, or its
    body does not parse, or the image-info query fails or does not parse,
    or a file name cannot be decoded, the exception ends discovery: the
    generator query is not issued and no panel is created. *)
Theorem failed_stage_ends_discovery (w : Wiki) (pageTitle : jsstring) :
  outcome (listAndResolve w pageTitle) = None ->
  main w pageTitle
  = (match pageTitle with
     | [] => []
     | _ :: _ => requests (listAndResolve w pageTitle)
     end, None)
  /\ (mediaList w pageTitle = NetworkError ->
      pageTitle <> [] -> main w pageTitle = ([MediaList pageTitle], None)).
Proof.
  intros Hnone.
  assert (Hmain : main w pageTitle
                  = (match pageTitle with
                     | [] => []
                     | _ :: _ => requests (listAndResolve w pageTitle)
                     end, None)).
  { destruct pageTitle as [|c t]; [reflexivity|].
    unfold main. simpl. unfold discover, bind, requests.
    unfold outcome in Hnone.
    destruct (listAndResolve w (c :: t)) as [tr r]. simpl in Hnone. subst r.
    reflexivity. }
  split; [exact Hmain|].
  intros Hnet Hne. rewrite Hmain. destruct pageTitle as [|c t]; [contradiction|].
  rewrite listAndResolve_requests.
  unfold listAudioFileTitles, fetched, bind, outcome. rewrite Hnet. reflexivity.
Qed.

Lemma failed_stage_ends_discovery_witness :
  main {| mediaList := fun _ => NetworkError;
          imageInfoQuery := fun _ => Response true (Some [Samples.waterPage]);
          generatorQuery := fun _ => Response true (Some [Samples.waterPage]) |}
       (lit "water")
  = ([MediaList (lit "water")], None).
Proof.
  apply (failed_stage_ends_discovery
           {| mediaList := fun _ => NetworkError;
              imageInfoQuery := fun _ => Response true (Some [Samples.waterPage]);
              generatorQuery := fun _ => Response true (Some [Samples.waterPage]) |}
           (lit "water")); [reflexivity | reflexivity | discriminate].
Defined.

(** X17.  A media list answered with a status that is not ok counts as an
    empty list: the image-info query is skipped, the generator query is
    issued, and the panel shows what the fallback found, if
    anything. *)
Theorem refused_media_list_falls_back
    (w : Wiki) (pageTitle : jsstring) (json : option (option (list MediaItem))) :
  pageTitle <> [] ->
  mediaList w pageTitle = Response false json ->
  main w pageTitle
  = ([MediaList pageTitle; GeneratorQuery pageTitle],
     match outcome (fallbackActionApiDiscovery w pageTitle) with
     | Some (c :: cs) => Some (c :: cs)
     | _ => None
     end).
Proof.
  intros Hne Hml. destruct pageTitle as [|c t]; [contradiction|].
  unfold main. simpl.
  unfold discover, listAndResolve, listAudioFileTitles, fetched, bind.
  rewrite Hml. simpl.
  pose proof (fallback_requests w (c :: t)) as Hf. unfold requests in Hf.
  unfold outcome.
  destruct (fallbackActionApiDiscovery w (c :: t)) as [t' r']. simpl in *.
  subst t'. destruct r' as [[|c0 cs]|]; reflexivity.
Qed.

Lemma refused_media_list_falls_back_witness :
  main {| mediaList := fun _ => Response false None;
          imageInfoQuery := fun _ => NetworkError;
          generatorQuery := fun _ => Response true (Some [Samples.waterPage]) |}
       (lit "water")
  = ([MediaList (lit "water"); GeneratorQuery (lit "water")],
     Some [Samples.waterCandidate]).
Proof.
  assert (Hne : lit "water" <> []) by discriminate.
  apply (refused_media_list_falls_back
           {| mediaList := fun _ => Response false None;
              imageInfoQuery := fun _ => NetworkError;
              generatorQuery := fun _ => Response true (Some [Samples.waterPage]) |}
           (lit "water") None Hne eq_refl).
Defined.

(** Every candidate of the loop is the object built from a page and its
    first [imageinfo] entry, which passed the guard. *)
Lemma collectCandidates_made pages :
  forall out c,
    collectCandidates pages = Some out -> In c out ->
    exists pg ii,
      In pg pages /\ hd_error (pg_imageinfo pg) = Some ii
      /\ acceptsEntry ii = true /\ candidateOf pg ii (url c) = Some c
      /\ ii_url ii = Some (url c).
Proof.
  induction pages as [|pg rest IH]; intros out c Hout Hin; simpl in Hout.
  - injection Hout as <-. destruct Hin.
  - assert (Hrest : forall out', collectCandidates rest = Some out' -> In c out' ->
              exists pg0 ii, In pg0 (pg :: rest)
                /\ hd_error (pg_imageinfo pg0) = Some ii
                /\ acceptsEntry ii = true /\ candidateOf pg0 ii (url c) = Some c
                /\ ii_url ii = Some (url c)).
    { intros out' H1 H2. destruct (IH out' c H1 H2) as [pg0 [ii [Hp H]]].
      exists pg0, ii. split; [right; exact Hp | exact H]. }
    destruct (hd_error (pg_imageinfo pg)) as [ii|] eqn:Hhd; [|eauto].
    destruct (acceptsEntry ii) eqn:Hacc; [|eauto].
    destruct (ii_url ii) as [u|] eqn:Hu; [|eauto].
    destruct (candidateOf pg ii u) as [c0|] eqn:Hc0; [|discriminate].
    destruct (collectCandidates rest) as [out'|] eqn:Hout'; [|discriminate].
    simpl in Hout. injection Hout as <-.
    destruct Hin as [<- | Hin]; [|eauto].
    exists pg, ii. split; [left; reflexivity|].
    assert (Hurl : url c0 = u).
    { unfold candidateOf in Hc0. destruct (decodeURIComponent _); [|discriminate].
      injection Hc0 as <-. reflexivity. }
    rewrite Hurl. auto.
Qed.

(** Where an item of the panel comes from. *)
Lemma panel_item_made
    (w : Wiki) (pageTitle : jsstring) (items : list Candidate) (c : Candidate) :
  snd (main w pageTitle) = Some items ->
  In c items ->
  items <> []
  /\ exists pg ii pages ok,
       (imageInfoQuery w
          (joinTitles (match outcome (listAudioFileTitles w pageTitle) with
                       | Some files => files
                       | None => []
                       end)) = Response ok (Some pages)
        \/ generatorQuery w pageTitle = Response ok (Some pages))
       /\ In pg pages
       /\ hd_error (pg_imageinfo pg) = Some ii
       /\ acceptsEntry ii = true
       /\ url c <> []
       /\ title c = pg_title pg
       /\ decodeURIComponent
            (if truthy (lastSegment 47 (url c))
             then lastSegment 47 (url c) else lit "audio")
          = Some (filename c).
Proof.
  intros Hmain Hin.
  assert (Hfrom : forall pages out,
             collectCandidates pages = Some out -> In c out ->
             exists pg ii,
               In pg pages /\ hd_error (pg_imageinfo pg) = Some ii
               /\ acceptsEntry ii = true /\ url c <> []
               /\ title c = pg_title pg
               /\ decodeURIComponent
                    (if truthy (lastSegment 47 (url c))
                     then lastSegment 47 (url c) else lit "audio")
                  = Some (filename c)).
  { intros pages out Hc Hi.
    destruct (collectCandidates_made pages out c Hc Hi)
      as [pg [ii [Hpg [Hhd [Hacc [Hmade Hu]]]]]].
    exists pg, ii. repeat split; try assumption.
    - apply acceptsEntry_iff in Hacc. destruct Hacc as [u [Hu' [Hne _]]].
      rewrite Hu in Hu'. injection Hu' as <-. exact Hne.
    - unfold candidateOf in Hmade. destruct (decodeURIComponent _); [|discriminate].
      injection Hmade as <-. reflexivity.
    - unfold candidateOf in Hmade.
      destruct (decodeURIComponent _) as [name|]; [|discriminate].
      injection Hmade as <-. reflexivity. }
  unfold main in Hmain.
  destruct (truthy pageTitle) eqn:Ht; simpl in Hmain; [|discriminate].
  unfold discover, bind in Hmain.
  unfold listAndResolve, bind in Hmain. unfold outcome.
  destruct (listAudioFileTitles w pageTitle) as [t0 [files|]]; simpl in *;
    [|discriminate].
  assert (Hfb : forall tfb rfb,
             fallbackActionApiDiscovery w pageTitle = (tfb, rfb) ->
             rfb = Some items ->
             exists pages ok,
               generatorQuery w pageTitle = Response ok (Some pages)
               /\ collectCandidates pages = Some items).
  { intros tfb rfb Hf Hr. subst rfb.
    unfold fallbackActionApiDiscovery, fetched, bind, parsed in Hf.
    destruct (generatorQuery w pageTitle) as [|ok json]; [discriminate|].
    destruct json as [pages|]; [|discriminate]. simpl in Hf.
    pose proof (collected_outcome pages) as Hc. unfold outcome in Hc.
    destruct (collected pages) as [t r]. simpl in Hf, Hc.
    injection Hf as _ Hr. rewrite Hr in Hc. exists pages, ok.
    split; [reflexivity | symmetry; exact Hc]. }
  destruct files as [|f files]; simpl in Hmain.
  - destruct (fallbackActionApiDiscovery w pageTitle) as [tfb rfb] eqn:Hf.
    destruct rfb as [[|c0 cs]|]; try discriminate.
    injection Hmain as <-.
    split; [discriminate|].
    destruct (Hfb tfb _ eq_refl eq_refl) as [pages [ok [Hg Hc]]].
    destruct (Hfrom pages _ Hc Hin) as [pg [ii H]].
    exists pg, ii, pages, ok. split; [right; exact Hg | exact H].
  - unfold resolveDirectUrls, fetched, bind, parsed in Hmain.
    destruct (imageInfoQuery w (joinTitles (f :: files))) as [|ok json] eqn:Hq;
      [discriminate|].
    destruct json as [pages|]; [|discriminate]. simpl in Hmain.
    pose proof (collected_outcome pages) as Hc. unfold outcome in Hc.
    destruct (collected pages) as [t r]. simpl in Hmain, Hc.
    destruct r as [[|c0 cs]|]; simpl in Hmain; try discriminate.
    + destruct (fallbackActionApiDiscovery w pageTitle) as [tfb rfb] eqn:Hf.
      destruct rfb as [[|c1 cs1]|]; try discriminate.
      injection Hmain as <-.
      split; [discriminate|].
      destruct (Hfb tfb _ eq_refl eq_refl) as [pages' [ok' [Hg Hc']]].
      destruct (Hfrom pages' _ Hc' Hin) as [pg [ii H]].
      exists pg, ii, pages', ok'. split; [right; exact Hg | exact H].
    + injection Hmain as <-.
      split; [discriminate|].
      destruct (Hfrom pages _ (eq_sym Hc) Hin) as [pg [ii H]].
      exists pg, ii, pages, ok. split; [left; reflexivity | exact H].
Qed.

(** X18.  Whatever the wiki answers, a panel is never created with an
    empty list of items, and every item of a panel was built from the
    first [imageinfo] entry of a page of the image-info response or of
    the generator response; that entry passed the audio test with a
    non-empty URL, the item carries that URL, the title of the page, and
    as file name the decoded last path segment of the URL ([audio] when
    that segment is empty). *)
Theorem panel_items_are_audio
    (w : Wiki) (pageTitle : jsstring) (items : list Candidate) :
  snd (main w pageTitle) = Some items ->
  items <> []
  /\ forall c, In c items ->
       exists pg ii pages ok,
         (imageInfoQuery w
            (joinTitles (match outcome (listAudioFileTitles w pageTitle) with
                         | Some files => files
                         | None => []
                         end)) = Response ok (Some pages)
          \/ generatorQuery w pageTitle = Response ok (Some pages))
         /\ In pg pages
         /\ hd_error (pg_imageinfo pg) = Some ii
         /\ acceptsEntry ii = true
         /\ url c <> []
         /\ title c = pg_title pg
         /\ decodeURIComponent
              (if truthy (lastSegment 47 (url c))
               then lastSegment 47 (url c) else lit "audio")
            = Some (filename c).
Proof.
  intros Hmain. split.
  - unfold main in Hmain.
    destruct (negb (truthy pageTitle)); [discriminate|].
    destruct (discover w pageTitle) as [t [[|c0 cs]|]];
      simpl in Hmain; try discriminate.
    injection Hmain as <-. discriminate.
  - intros c Hin. exact (proj2 (panel_item_made w pageTitle items c Hmain Hin)).
Qed.

Lemma panel_items_are_audio_witness :
  snd (main Samples.waterWiki (lit "water")) = Some [Samples.waterCandidate]
  /\ [Samples.waterCandidate] <> []
  /\ url Samples.waterCandidate <> [].
Proof.
  destruct (panel_items_are_audio Samples.waterWiki (lit "water")
              [Samples.waterCandidate] eq_refl) as [Hne Hall].
  destruct (Hall Samples.waterCandidate (or_introl eq_refl))
    as [pg [ii [pages [ok [_ [_ [_ [_ [Hu _]]]]]]]]].
  split; [reflexivity|]. split; [exact Hne | exact Hu].
Defined.

End DiscoveryExtras.

(** ** More on [sanitizeFilename] *)

Module SanitizeExtras.
Import Background NameShape JSFacts SanitizeFacts.

Lemma dropWhile_suffix p s : exists pre, s = pre ++ dropWhile p s.
Proof.
  induction s as [|c r [pre IH]]; simpl.
  - exists []. reflexivity.
  - destruct (p c).
    + exists (c :: pre). simpl. f_equal. exact IH.
    + exists []. reflexivity.
Qed.

Lemma dropWhile_head p s : startsWith p (dropWhile p s) = false.
Proof.
  induction s as [|c r IH]; simpl; [reflexivity|].
  destruct (p c) eqn:E; [exact IH | simpl; exact E].
Qed.

Lemma dropWhile_id p s : startsWith p s = false -> dropWhile p s = s.
Proof. destruct s as [|c r]; simpl; [reflexivity | intros ->; reflexivity]. Qed.

Lemma trimEnd_prefix s : exists post, s = trimEnd s ++ post.
Proof.
  unfold trimEnd. destruct (dropWhile_suffix isSpace (rev s)) as [pre H].
  exists (rev pre). apply (f_equal (@rev N)) in H.
  rewrite rev_involutive, rev_app_distr in H. exact H.
Qed.

Lemma trimEnd_last s : startsWith isSpace (rev (trimEnd s)) = false.
Proof. unfold trimEnd. rewrite rev_involutive. apply dropWhile_head. Qed.

Lemma singleSpaced_app_r a : forall b, singleSpaced (a ++ b) = true -> singleSpaced b = true.
Proof.
  induction a as [|c a IH]; intros b H; simpl in H; [exact H|].
  apply andb_true_iff in H. apply IH, H.
Qed.

Lemma singleSpaced_app_l a : forall b, singleSpaced (a ++ b) = true -> singleSpaced a = true.
Proof.
  induction a as [|c a IH]; intros b H; [reflexivity|].
  simpl in H |- *. apply andb_true_iff in H. destruct H as [Hc Hr].
  rewrite (IH b Hr), andb_true_r.
  destruct a as [|d a]; simpl in Hc |- *.
  - destruct (isSpace c); simpl in *; [|reflexivity].
    apply andb_true_iff in Hc. destruct Hc as [Hc _]. rewrite Hc. reflexivity.
  - exact Hc.
Qed.

Lemma startsWith_app_l p a b : startsWith p (a ++ b) = false -> startsWith p a = false.
Proof. destruct a; simpl; [reflexivity | trivial]. Qed.

Lemma normalizeWhitespace_head s :
  startsWith isSpace (normalizeWhitespace true s) = false.
Proof.
  induction s as [|c r IH]; simpl; [reflexivity|].
  destruct (isSpace c) eqn:E; [exact IH | simpl; exact E].
Qed.

Lemma normalizeWhitespace_single s :
  forall inRun, singleSpaced (normalizeWhitespace inRun s) = true.
Proof.
  induction s as [|c r IH]; intros inRun; simpl; [reflexivity|].
  destruct (isSpace c) eqn:E.
  - destruct inRun; [apply IH|].
    simpl. rewrite IH, andb_true_r.
    pose proof (normalizeWhitespace_head r) as Hh.
    destruct (normalizeWhitespace true r) as [|d r']; [reflexivity|].
    simpl in Hh. rewrite Hh. reflexivity.
  - simpl. rewrite E, IH. reflexivity.
Qed.

(** The white space of a sanitized name. *)
Lemma sanitizeFilename_spacing name :
  singleSpaced (sanitizeFilename name) = true
  /\ startsWith isSpace (sanitizeFilename name) = false.
Proof.
  unfold sanitizeFilename, substring0.
  set (n := normalizeWhitespace false (replaceInvalid name)).
  assert (Hn : singleSpaced n = true) by apply normalizeWhitespace_single.
  destruct (dropWhile_suffix (N.eqb 46) n) as [dots Hd].
  fold (removeLeadingDots n) in Hd.
  assert (Hr : singleSpaced (removeLeadingDots n) = true).
  { rewrite Hd in Hn. apply (singleSpaced_app_r _ _ Hn). }
  unfold trim, trimStart.
  destruct (dropWhile_suffix isSpace (removeLeadingDots n)) as [sp Hs].
  set (t := dropWhile isSpace (removeLeadingDots n)) in *.
  assert (Ht : singleSpaced t = true).
  { rewrite Hs in Hr. apply (singleSpaced_app_r _ _ Hr). }
  assert (Hth : startsWith isSpace t = false) by apply dropWhile_head.
  destruct (trimEnd_prefix t) as [post Hp].
  assert (He : singleSpaced (trimEnd t) = true).
  { rewrite Hp in Ht. apply (singleSpaced_app_l _ _ Ht). }
  assert (Heh : startsWith isSpace (trimEnd t) = false).
  { rewrite Hp in Hth. apply (startsWith_app_l _ _ _ Hth). }
  pose proof (firstn_skipn 255 (trimEnd t)) as Hf.
  split.
  - rewrite <- Hf in He. apply (singleSpaced_app_l _ _ He).
  - rewrite <- Hf in Heh. apply (startsWith_app_l _ _ _ Heh).
Qed.

(** X19.  Whatever the name, the result of [sanitizeFilename] has at most
    255 code units, contains none of the nine invalid characters, has no
    white space other than single plain spaces, and does not start with
    white space. *)
Theorem sanitized_name_shape (name : jsstring) :
  length (sanitizeFilename name) <= 255
  /\ Forall (fun c => isInvalidChar c = false) (sanitizeFilename name)
  /\ singleSpaced (sanitizeFilename name) = true
  /\ startsWith isSpace (sanitizeFilename name) = false.
Proof.
  split; [apply sanitizeFilename_length|].
  split; [apply sanitizeFilename_valid|].
  apply sanitizeFilename_spacing.
Qed.

Lemma replaceInvalid_id s :
  Forall (fun c => isInvalidChar c = false) s -> replaceInvalid s = s.
Proof.
  unfold replaceInvalid. induction 1 as [|c r Hc Hr IH]; simpl; [reflexivity|].
  rewrite Hc, IH. reflexivity.
Qed.

Lemma normalizeWhitespace_id s :
  forall inRun,
    singleSpaced s = true ->
    (inRun = true -> startsWith isSpace s = false) ->
    normalizeWhitespace inRun s = s.
Proof.
  induction s as [|c r IH]; intros inRun Hs Hh; simpl; [reflexivity|].
  simpl in Hs. apply andb_true_iff in Hs. destruct Hs as [Hc Hr].
  destruct (isSpace c) eqn:E.
  - simpl in Hc. apply andb_true_iff in Hc. destruct Hc as [Hc Hnext].
    apply N.eqb_eq in Hc. subst c.
    destruct inRun; [simpl in Hh; rewrite Hh in E; [discriminate | reflexivity]|].
    f_equal. apply IH; [exact Hr|]. intros _.
    destruct r as [|d r']; [reflexivity|]. simpl.
    apply negb_true_iff in Hnext. exact Hnext.
  - f_equal. apply IH; [exact Hr | discriminate].
Qed.

(** X20.  A name that is already clean (no invalid character, single
    plain spaces only, no white space at either end, no leading dot, at
    most 255 code units) is returned as it is.  So sanitizing is
    idempotent on every name whose sanitized form was not cut (it is
    shorter than 255 code units) and does not start with a dot:
    sanitizing that form again gives it back. *)
Theorem sanitize_fixed_points (name : jsstring) :
  (clean name -> sanitizeFilename name = name)
  /\ (length (sanitizeFilename name) < 255 ->
      startsWith (N.eqb 46) (sanitizeFilename name) = false ->
      sanitizeFilename (sanitizeFilename name) = sanitizeFilename name).
Proof.
  assert (Hfix : forall s, clean s -> sanitizeFilename s = s).
  { intros s [Hv [Hs [Hh [Hl [Hd Hlen]]]]].
    unfold sanitizeFilename.
    rewrite replaceInvalid_id by exact Hv.
    rewrite normalizeWhitespace_id by (exact Hs || discriminate).
    unfold removeLeadingDots. rewrite dropWhile_id by exact Hd.
    unfold trim, trimStart. rewrite dropWhile_id by exact Hh.
    unfold trimEnd. rewrite dropWhile_id by exact Hl. rewrite rev_involutive.
    unfold substring0. apply firstn_all2. exact Hlen. }
  split; [apply Hfix|].
  intros Hlen Hdot. apply Hfix.
  destruct (sanitizeFilename_spacing name) as [Hs Hh].
  pose proof (sanitizeFilename_valid name) as Hv.
  pose proof (sanitizeFilename_length name) as Hl.
  repeat split; try assumption.
  unfold sanitizeFilename, substring0 in Hlen |- *.
  set (t := trim (removeLeadingDots
                    (normalizeWhitespace false (replaceInvalid name)))) in *.
  assert (Ht : firstn 255 t = t).
  { apply firstn_all2. rewrite length_firstn in Hlen. lia. }
  rewrite Ht. unfold t, trim. apply trimEnd_last.
Qed.

Lemma sanitize_fixed_points_witness :
  sanitizeFilename (lit "En-us-water (1).ogg") = lit "En-us-water (1).ogg"
  /\ sanitizeFilename (sanitizeFilename (lit "  a<b>  c.ogg "))
     = sanitizeFilename (lit "  a<b>  c.ogg ").
Proof.
  destruct (sanitize_fixed_points (lit "En-us-water (1).ogg")) as [Hclean _].
  destruct (sanitize_fixed_points (lit "  a<b>  c.ogg ")) as [_ Htwice].
  split.
  - apply Hclean. repeat split; try reflexivity.
    + repeat constructor.
    + vm_compute. lia.
  - apply Htwice; [vm_compute; lia | reflexivity].
Defined.

End SanitizeExtras.

(** ** The listener of download requests *)

Module HandlerExtras.
Import Background Coordinator Handler.

Lemma afterTranscode_shape hw :
  (exists e, afterTranscode hw = ([], Some e))
  \/ exists u f,
       afterTranscode hw = ([CallDownload u f (Some false)], downloadError hw).
Proof.
  unfold afterTranscode.
  destruct (transcodeResult hw) as [filename [|b bs]|message]; eauto.
  destruct (arrayBufferToBase64 (maxArguments hw) (b :: bs)); eauto.
  destruct filename; eauto.
Qed.

(** X21.  Every message gets exactly one response, and it is the last
    thing the listener does; the response says ok only when a download
    was started, just before, without an error; and at most one download
    is started per message. *)
Theorem listener_responds_once (hw : HandlerWorld) (msg : ClientMessage) :
  exists before ok error,
    onMessage hw msg = before ++ [Respond ok error]
    /\ filter isRespond before = []
    /\ length (filter isDownload before) <= 1
    /\ (ok = true ->
        downloadError hw = None
        /\ exists pre u f s, before = pre ++ [CallDownload u f s]).
Proof.
  unfold onMessage, handle.
  destruct (cm_type msg) as [t|];
    [|exists [], false, (Some (lit "Unknown message type")); simpl;
      repeat split; (lia || discriminate)].
  destruct (JS.eqb t DOWNLOAD_AUDIO);
    [|exists [], false, (Some (lit "Unknown message type")); simpl;
      repeat split; (lia || discriminate)].
  set (base := sanitizeFilename (stripExtension (cm_originalFilename msg))).
  destruct (match cm_mode msg with
            | Some mode => JS.eqb mode (lit "convert")
            | None => false
            end).
  - destruct (afterTranscode_shape hw) as [[e He] | [u [f He]]]; rewrite He.
    + exists [CallTranscode (cm_url msg) base], false, (Some (errorToString e)).
      simpl. repeat split; (lia || discriminate).
    + destruct (downloadError hw) as [e|] eqn:Hd.
      * exists [CallTranscode (cm_url msg) base; CallDownload u f (Some false)],
          false, (Some (errorToString e)).
        simpl. repeat split; (lia || discriminate).
      * exists [CallTranscode (cm_url msg) base; CallDownload u f (Some false)],
          true, None.
        simpl. repeat split; try lia.
        exists [CallTranscode (cm_url msg) base], u, f, (Some false). reflexivity.
  - destruct (downloadError hw) as [e|] eqn:Hd.
    + exists [CallDownload (cm_url msg)
                (sanitizeFilename (cm_originalFilename msg)) None],
        false, (Some (errorToString e)).
      simpl. repeat split; (lia || discriminate).
    + exists [CallDownload (cm_url msg)
                (sanitizeFilename (cm_originalFilename msg)) None],
        true, None.
      simpl. repeat split; try lia.
      exists [], (cm_url msg), (sanitizeFilename (cm_originalFilename msg)), None.
      reflexivity.
Qed.

Lemma listener_responds_once_witness :
  exists before ok error,
    onMessage {| transcodeResult := Rejected timeoutMessage;
                 downloadError := None; maxArguments := 100000 |}
              (downloadRequest Samples.waterUrl (lit "En-us-water.ogg") (lit "convert"))
    = before ++ [Respond ok error]
    /\ filter isRespond before = []
    /\ ok = false.
Proof.
  destruct (listener_responds_once
              {| transcodeResult := Rejected timeoutMessage;
                 downloadError := None; maxArguments := 100000 |}
              (downloadRequest Samples.waterUrl (lit "En-us-water.ogg") (lit "convert")))
    as [before [ok [error [Heq [Hr _]]]]].
  exists before, ok, error. split; [exact Heq|]. split; [exact Hr|].
  vm_compute in Heq.
  apply (f_equal (fun l => last l (Respond true None))) in Heq.
  rewrite last_last in Heq. simpl in Heq.
  injection Heq as Hok _. symmetry. exact Hok.
Defined.

(** X22.  In any mode other than [convert] (a missing mode included) the
    source URL itself is handed to the download sink, under the sanitized
    original file name; [transcodeToWav] is not called, whatever state
    the engine is in; and the response is ok exactly when the download
    started. *)
Theorem original_mode_downloads_source
    (hw : HandlerWorld) (url originalFilename : jsstring) (mode : option jsstring) :
  mode <> Some (lit "convert") ->
  onMessage hw {| cm_type := Some DOWNLOAD_AUDIO; cm_url := url;
                  cm_originalFilename := originalFilename; cm_mode := mode |}
  = [CallDownload url (sanitizeFilename originalFilename) None;
     match downloadError hw with
     | None => Respond true None
     | Some e => Respond false (Some (errorToString e))
     end].
Proof.
  intros Hm. unfold onMessage, handle. cbn [cm_type cm_mode cm_url cm_originalFilename].
  rewrite JSFacts.eqb_refl.
  assert (Hc : match mode with
               | Some m => JS.eqb m (lit "convert")
               | None => false
               end = false).
  { destruct mode as [m|]; [|reflexivity].
    destruct (JS.eqb m (lit "convert")) eqn:E; [|reflexivity].
    apply JSFacts.eqb_eq in E. subst m. contradiction. }
  rewrite Hc. destruct (downloadError hw); reflexivity.
Qed.

Lemma original_mode_downloads_source_witness :
  onMessage {| transcodeResult := Rejected (lit "unused");
               downloadError := None; maxArguments := 100000 |}
            (downloadRequest Samples.waterUrl (lit "En-us:  water.ogg") (lit "original"))
  = [CallDownload Samples.waterUrl (lit "En-us_ water.ogg") None;
     Respond true None].
Proof.
  apply (original_mode_downloads_source
           {| transcodeResult := Rejected (lit "unused");
              downloadError := None; maxArguments := 100000 |}
           Samples.waterUrl (lit "En-us:  water.ogg") (Some (lit "original"))).
  discriminate.
Defined.

(** X23.  In convert mode a conversion that fails (the page is not
    ready, the timer of 90 seconds fires, the completion carries an
    error) is answered with ok false and the text of the error, prefixed
    by [Error: ]; nothing is downloaded and the listener does not fall
    back to the original file. *)
Theorem failed_conversion_is_reported
    (hw : HandlerWorld) (url originalFilename message : jsstring) :
  transcodeResult hw = Rejected message ->
  message <> [] ->
  onMessage hw (downloadRequest url originalFilename (lit "convert"))
  = [CallTranscode url (sanitizeFilename (stripExtension originalFilename));
     Respond false (Some (lit "Error: " ++ message))].
Proof.
  intros Hr Hm. unfold onMessage, handle, downloadRequest.
  cbn [cm_type cm_mode cm_url cm_originalFilename].
  rewrite !JSFacts.eqb_refl. unfold afterTranscode. rewrite Hr.
  destruct message as [|c m]; [contradiction|]. reflexivity.
Qed.

Lemma failed_conversion_is_reported_witness :
  onMessage {| transcodeResult := Rejected timeoutMessage;
               downloadError := None; maxArguments := 100000 |}
            (downloadRequest Samples.waterUrl (lit "En-us-water.ogg") (lit "convert"))
  = [CallTranscode Samples.waterUrl (lit "En-us-water");
     Respond false
       (Some (lit "Error: Transcoding timeout - FFmpeg load or conversion took too long"))].
Proof.
  assert (Hne : timeoutMessage <> []) by discriminate.
  apply (failed_conversion_is_reported
           {| transcodeResult := Rejected timeoutMessage;
              downloadError := None; maxArguments := 100000 |}
           Samples.waterUrl (lit "En-us-water.ogg") timeoutMessage eq_refl Hne).
Defined.

Lemma takeWhile_app_stop p a c rest :
  forallb p a = true -> p c = false ->
  takeWhile p (a ++ c :: rest) = a /\ dropWhile p (a ++ c :: rest) = c :: rest.
Proof.
  intros Ha Hc. induction a as [|x a IH]; simpl.
  - rewrite Hc. auto.
  - simpl in Ha. apply andb_true_iff in Ha. destruct Ha as [Hx Ha].
    rewrite Hx. destruct (IH Ha) as [H1 H2]. rewrite H1, H2. auto.
Qed.

Lemma takeWhile_all p a :
  forallb p a = true -> takeWhile p a = a /\ dropWhile p a = [].
Proof.
  induction a as [|x a IH]; simpl; [auto|].
  intros Ha. apply andb_true_iff in Ha. destruct Ha as [Hx Ha].
  rewrite Hx. destruct (IH Ha) as [H1 H2]. rewrite H1, H2. auto.
Qed.

Lemma forallb_rev {A} (p : A -> bool) l : forallb p (rev l) = forallb p l.
Proof.
  induction l as [|x l IH]; simpl; [reflexivity|].
  rewrite forallb_app, IH. simpl. rewrite andb_true_r. apply andb_comm.
Qed.

(** X24.  The base name of a conversion is the original name without its
    last extension: a name that is a stem, a dot and an extension of at
    least one unit without a dot loses the dot and the extension; a name
    without a dot, or whose last dot is its last unit, is kept whole. *)
Theorem stripExtension_cuts_last_extension (stem ext : jsstring) :
  forallb (fun c => negb (c =? 46)%N) ext = true ->
  stripExtension (stem ++ 46%N :: ext)
  = match ext with
    | [] => stem ++ [46%N]
    | _ :: _ => stem
    end
  /\ stripExtension ext = ext.
Proof.
  intros Hext. unfold stripExtension. split.
  - rewrite rev_app_distr. simpl. rewrite <- app_assoc. simpl.
    destruct (takeWhile_app_stop (fun c => negb (c =? 46)%N) (rev ext) 46%N (rev stem))
      as [Ht Hd]; [rewrite forallb_rev; exact Hext | reflexivity|].
    rewrite Ht, Hd.
    destruct ext as [|c e]; [reflexivity|].
    destruct (rev (c :: e)) as [|x r] eqn:Hr.
    + apply (f_equal (@length N)) in Hr. rewrite length_rev in Hr. discriminate.
    + apply rev_involutive.
  - destruct (takeWhile_all (fun c => negb (c =? 46)%N) (rev ext)) as [Ht Hd];
      [rewrite forallb_rev; exact Hext|].
    rewrite Ht, Hd. destruct (rev ext); reflexivity.
Qed.

Lemma stripExtension_cuts_last_extension_witness :
  stripExtension (lit "En-us-water.v2" ++ 46%N :: lit "ogg") = lit "En-us-water.v2"
  /\ stripExtension (lit "ogg") = lit "ogg".
Proof.
  apply (stripExtension_cuts_last_extension (lit "En-us-water.v2") (lit "ogg")).
  reflexivity.
Defined.

Lemma transcode_arrivals jw msg audioBytes out :
  Observed.converted jw = true -> Offscreen.readFile jw = inr out ->
  arrivals (fst (Offscreen.transcode jw msg audioBytes))
  = [OnMessage (Offscreen.completion (Offscreen.outNameOf msg) out)].
Proof.
  unfold Observed.converted, Offscreen.transcode, Offscreen.tryCatch,
    Offscreen.andThen, Offscreen.awaitUnit, Offscreen.await, Offscreen.perform,
    Offscreen.done.
  intros Hc Hr. rewrite Hr in Hc |- *.
  destruct (Offscreen.ffmpegLoad jw); [discriminate|].
  destruct (Offscreen.writeFile jw); [discriminate|].
  destruct (Offscreen.exec jw); [discriminate|].
  destruct (Offscreen.deleteIn jw); [reflexivity|].
  destruct (Offscreen.deleteOut jw); reflexivity.
Qed.

Lemma settlementOf_completion name out :
  out <> [] ->
  settlementOf (Offscreen.completion name out) = Resolved (Some name) out.
Proof.
  intros Hne. unfold settlementOf, Offscreen.completion.
  cbn [rm_ok rm_audioBytes rm_filename negb].
  destruct out as [|o out']; [contradiction|].
  cbn [Offscreen.arrayFrom map].
  change (Z.of_N (Byte.to_N o) :: map (fun b => Z.of_N (Byte.to_N b)) out')
    with (Offscreen.arrayFrom (o :: out')).
  rewrite CoordinatorFacts.newUint8Array_arrayFrom. reflexivity.
Qed.

(** X25.  From the request of the page to the download sink.  When the
    offscreen page is ready, the source gives at least one byte, the
    engine loads, writes, runs and gives back at least one byte, and the
    sink accepts the download, then the completion message settles the
    dispatch, and the listener hands to the sink a data URL that is the
    WAV prefix followed by the base64 of exactly the bytes the engine
    produced, under the sanitized name made of the base name (the
    sanitized original name without its extension, or [audio] when that
    is empty) and [.wav]; it then answers ok. *)
Theorem conversion_end_to_end
    (jw : Offscreen.JobWorld) (hw : HandlerWorld)
    (url originalFilename : jsstring) (created engineLoaded : bool)
    (out : Uint8Array) :
  url <> [] ->
  Offscreen.sourceUnusable jw = false ->
  Observed.converted jw = true ->
  Offscreen.readFile jw = inr out ->
  out <> [] ->
  (chunkSize <= maxArguments hw)%N ->
  downloadError hw = None ->
  let base := sanitizeFilename (stripExtension originalFilename) in
  let w1 := transcodeToWav created (readyPing engineLoaded) url base initial in
  let w2 := run (arrivals (Offscreen.onPortMessage jw (Offscreen.request url base))) w1 in
  settledAt 0 w2 = Some (transcodeResult hw) ->
  posted w1 = [Offscreen.request url base]
  /\ transcodeResult hw
     = Resolved (Some (match base with
                       | [] => lit "audio.wav"
                       | _ :: _ => base ++ lit ".wav"
                       end)) out
  /\ onMessage hw (downloadRequest url originalFilename (lit "convert"))
     = [CallTranscode url base;
        CallDownload
          (lit "data:audio/wav;base64," ++ base64Encode (map Byte.to_N out))
          (sanitizeFilename (match base with
                             | [] => lit "audio.wav"
                             | _ :: _ => base ++ lit ".wav"
                             end))
          (Some false);
        Respond true None].
Proof.
  intros Hurl Hsrc Hconv Hread Hout Hmax Hdl base w1 w2 Hset.
  split; [reflexivity|].
  assert (Hres : transcodeResult hw
                 = Resolved (Some (Offscreen.outNameOf (Offscreen.request url base))) out).
  { destruct (JobExtras.onPortMessage_usable jw url base Hurl Hsrc) as [b [bs Heq]].
    unfold w2 in Hset. rewrite Heq in Hset.
    change (arrivals (Offscreen.FetchSource url
                      :: fst (Offscreen.transcode jw (Offscreen.request url base) (b :: bs))))
      with (arrivals (fst (Offscreen.transcode jw (Offscreen.request url base) (b :: bs))))
      in Hset.
    rewrite (transcode_arrivals jw _ _ out Hconv Hread) in Hset.
    pose proof (CoordinatorFacts.dispatched_transcode created engineLoaded url base initial)
      as Hj.
    fold w1 in Hj. simpl (length (transcodes initial)) in Hj.
    unfold settledAt in Hset.
    rewrite (CoordinatorFacts.run_transcodes _ w1 0 _ Hj) in Hset.
    cbn [jobRun fold_left jobStep] in Hset.
    rewrite CoordinatorExtras.armed_completion in Hset by reflexivity.
    cbn [settled] in Hset.
    rewrite (settlementOf_completion _ out Hout) in Hset.
    injection Hset as <-. reflexivity. }
  assert (Hname : Offscreen.outNameOf (Offscreen.request url base)
                  = match base with
                    | [] => lit "audio.wav"
                    | _ :: _ => base ++ lit ".wav"
                    end).
  { unfold Offscreen.outNameOf, Offscreen.request. simpl.
    destruct base; reflexivity. }
  rewrite Hname in Hres. split; [exact Hres|].
  unfold onMessage, handle, downloadRequest.
  cbn [cm_type cm_mode cm_url cm_originalFilename].
  rewrite !JSFacts.eqb_refl. fold base.
  unfold afterTranscode. rewrite Hres.
  destruct out as [|o out']; [contradiction|].
  rewrite Base64Facts.arrayBufferToBase64_chunked.
  rewrite Base64Facts.chunkedEncoding_spec by (left; exact Hmax).
  rewrite Hdl. reflexivity.
Qed.

Lemma conversion_end_to_end_witness :
  onMessage {| transcodeResult := Resolved (Some (lit "En-us-water.wav")) Samples.wavBytes;
               downloadError := None; maxArguments := 100000 |}
            (downloadRequest Samples.waterUrl (lit "En-us-water.ogg") (lit "convert"))
  = [CallTranscode Samples.waterUrl (lit "En-us-water");
     CallDownload (lit "data:audio/wav;base64,UklGRgD/gA==")
       (lit "En-us-water.wav") (Some false);
     Respond true None].
Proof.
  assert (Hurl : Samples.waterUrl <> []) by discriminate.
  assert (Hout : Samples.wavBytes <> []) by discriminate.
  assert (Hmax : (chunkSize <= 100000)%N) by (vm_compute; discriminate).
  destruct (conversion_end_to_end Samples.converts
              {| transcodeResult := Resolved (Some (lit "En-us-water.wav")) Samples.wavBytes;
                 downloadError := None; maxArguments := 100000 |}
              Samples.waterUrl (lit "En-us-water.ogg") true false Samples.wavBytes
              Hurl eq_refl eq_refl eq_refl Hout Hmax eq_refl eq_refl)
    as [_ [_ H]].
  exact H.
Defined.

End HandlerExtras.

(** ** One download, feedback, language *)

Module PageExtras.
Import Content PageUI.

(** X26.  [downloadFile] sends one message or two.  When the mode can be
    read, the first message carries it, with a timeout of 120 seconds in
    convert mode and 90 otherwise, and a second message is sent exactly
    when the first was rejected.  That second message, like the only
    message sent when the mode cannot be read, asks for the original file
    with the timeout of 90 seconds.  A response that is not ok is shown
    as a failure and is not retried. *)
Theorem downloadFile_retries_only_rejections (ext : Extension) (item : Candidate) :
  fileMessages (downloadFile ext item)
  = match storedMode ext with
    | None => [(messageFor (lit "original") item, 90000%Z)]
    | Some mode =>
        (messageFor mode item, timeoutFor mode)
        :: match answer ext 0 (messageFor mode item) (timeoutFor mode) with
           | SendRejected _ => [(messageFor (lit "original") item, 90000%Z)]
           | SendResolved _ => []
           end
    end
  /\ (forall mode response,
        storedMode ext = Some mode ->
        answer ext 0 (messageFor mode item) (timeoutFor mode)
        = SendResolved response ->
        response <> Some true ->
        last (downloadFile ext item) (FileFeedbackShown FailedMark false)
        = FileFeedbackShown FailedMark false
        /\ length (fileMessages (downloadFile ext item)) = 1).
Proof.
  split.
  - unfold downloadFile. destruct (storedMode ext) as [mode|]; [|reflexivity].
    unfold fileMessages. rewrite flat_map_app.
    destruct (JS.eqb mode (lit "convert")); simpl;
      destruct (answer ext 0 (messageFor mode item) (timeoutFor mode)) as [e|r];
      try reflexivity;
      destruct (responseOk (SendResolved r)); reflexivity.
  - intros mode response Hm Ha Hr. unfold downloadFile. rewrite Hm, Ha.
    assert (Hok : responseOk (SendResolved response) = false).
    { destruct response as [[|]|]; try reflexivity. contradiction. }
    rewrite Hok. unfold fileMessages. rewrite flat_map_app.
    destruct (JS.eqb mode (lit "convert")); split; reflexivity.
Qed.

Lemma downloadFile_retries_only_rejections_witness :
  let ext := {| storedMode := Some (lit "convert");
                answer := fun _ _ _ => SendResolved (Some false) |} in
  length (fileMessages (downloadFile ext Samples.waterCandidate)) = 1.
Proof.
  intros ext.
  destruct (downloadFile_retries_only_rejections ext Samples.waterCandidate)
    as [_ H].
  destruct (H (lit "convert") (Some false) eq_refl eq_refl) as [_ Hlen];
    [discriminate | exact Hlen].
Defined.

Lemma clearTimeout_only id due : clearTimeout id [(id, due)] = [].
Proof. unfold clearTimeout. simpl. rewrite Nat.eqb_refl. reflexivity. Qed.

Lemma screenStep_showing label s ev :
  label <> [] -> showing label s -> showing label (screenStep s ev).
Proof.
  intros Hne [Hn H]. destruct label as [|c l]; [contradiction|].
  destruct ev as [message isSuccess | t]; simpl.
  - split; [simpl; lia|]. right.
    exists (nextTimer s), (time s + 2000)%Z, message,
      (if isSuccess then green else red).
    split; [exact Hn|].
    destruct H as [[Hb Ht] | [id [due [m [color [Hid [Hb [Ht Hd]]]]]]]].
    + unfold showDownloadFeedback. rewrite Hb, Ht. simpl.
      repeat split; lia.
    + destruct id as [|id']; [lia|].
      unfold showDownloadFeedback. rewrite Hb, Ht.
      cbn [button feedbackTimeout originalText textContent timers time nextTimer].
      rewrite clearTimeout_only. simpl.
      repeat split; lia.
  - split; [exact Hn|].
    destruct H as [[Hb Ht] | [id [due [m [color [Hid [Hb [Ht Hd]]]]]]]].
    + left. unfold tick. rewrite Hb, Ht. simpl. auto.
    + unfold tick. rewrite Hb, Ht. simpl.
      destruct (due <=? t)%Z eqn:E; simpl.
      * left. auto.
      * right. exists id, due, m, color. repeat split; try assumption. lia.
Qed.

Lemma screenRun_showing label evs :
  forall s, label <> [] -> showing label s -> showing label (screenRun evs s).
Proof.
  induction evs as [|ev evs IH]; intros s Hne Hs; simpl; [exact Hs|].
  apply IH; [exact Hne|]. apply screenStep_showing; assumption.
Qed.

(** X27.  Feedback always goes away.  On a button with a label that is
    not empty, whatever feedback messages are shown and however they
    overlap in time, there is never more than one timer pending, and two
    seconds after the last of them the button has its label back, is
    blue and enabled again, and no timer or stored property is left. *)
Theorem feedback_is_undone
    (label : jsstring) (next : nat) (now : Z) (evs : list ScreenEvent) (t : Z) :
  label <> [] ->
  1 <= next ->
  let s := screenRun evs (freshScreen label next now) in
  length (timers s) <= 1
  /\ ((time s + 2000 <= t)%Z ->
      button (tick t s) = button (freshScreen label next now)
      /\ timers (tick t s) = []).
Proof.
  intros Hne Hnext s.
  assert (Hs : showing label s).
  { apply screenRun_showing; [exact Hne|]. split; [exact Hnext|]. left. auto. }
  destruct Hs as [Hn [[Hb Ht] | [id [due [m [color [Hid [Hb [Ht Hd]]]]]]]]].
  - split; [rewrite Ht; simpl; lia|]. intros _.
    unfold tick. rewrite Ht, Hb. simpl. auto.
  - split; [rewrite Ht; simpl; lia|]. intros Hlate.
    unfold tick. rewrite Ht, Hb. simpl.
    assert (E : (due <=? t)%Z = true) by (apply Z.leb_le; lia).
    rewrite E. simpl. auto.
Qed.

Lemma feedback_is_undone_witness :
  button (tick 3500
            (screenRun [Show (lit "preparing") true; Tick 1500; Show (lit "failed") false]
               (freshScreen (lit "Download") 1 0)))
  = button (freshScreen (lit "Download") 1 0).
Proof.
  assert (Hne : lit "Download" <> []) by discriminate.
  destruct (feedback_is_undone (lit "Download") 1 0
              [Show (lit "preparing") true; Tick 1500; Show (lit "failed") false]
              3500 Hne (le_n 1)) as [_ H].
  apply H. vm_compute. discriminate.
Defined.

(** X28.  The language of the interface is always one of the seven that
    have a table of texts; it is the language of the host name when that
    name is one of these seven followed by [.wiktionary.org], and English
    for a host whose first label is not such a language. *)
Theorem language_is_supported (hostname lang : jsstring) :
  In (getCurrentLanguage hostname) languages
  /\ (In lang languages ->
      getCurrentLanguage (lang ++ lit ".wiktionary.org") = lang)
  /\ (hostLanguage hostname = None -> getCurrentLanguage hostname = lit "en").
Proof.
  split; [|split].
  - unfold getCurrentLanguage.
    destruct (existsb (JS.eqb match hostLanguage hostname with
                              | Some l => l
                              | None => lit "en"
                              end) languages) eqn:E.
    + apply existsb_exists in E. destruct E as [x [Hx He]].
      apply JSFacts.eqb_eq in He. rewrite He. exact Hx.
    + left. reflexivity.
  - intros Hin. simpl in Hin.
    repeat (destruct Hin as [<- | Hin]; [reflexivity|]). destruct Hin.
  - intros Hn. unfold getCurrentLanguage. rewrite Hn. reflexivity.
Qed.

Lemma language_is_supported_witness :
  getCurrentLanguage (lit "ja" ++ lit ".wiktionary.org") = lit "ja"
  /\ getCurrentLanguage (lit "upload.wikimedia.org") = lit "en".
Proof.
  destruct (language_is_supported (lit "upload.wikimedia.org") (lit "ja"))
    as [_ [Hl Hn]].
  split.
  - apply Hl. simpl. do 5 right. left. reflexivity.
  - apply Hn. reflexivity.
Defined.

End PageExtras.

(** ** The popup *)

Module PopupExtras.
Import Popup.

Lemma find_map_uncheck rs : find checked (map uncheck rs) = None.
Proof. induction rs as [|r rs IH]; simpl; [reflexivity | exact IH]. Qed.

Lemma selectedMode_checkFirst mode rs :
  existsb (fun r => JS.eqb (value r) mode) rs = true ->
  selectedMode (checkFirst mode rs) = mode.
Proof.
  unfold selectedMode. induction rs as [|r rs IH]; simpl; [discriminate|].
  destruct (JS.eqb (value r) mode) eqn:E; simpl.
  - intros _. apply JSFacts.eqb_eq. exact E.
  - exact IH.
Qed.

(** X29.  What is saved is what is loaded.  When the storage can be read
    and written, [saveSettings] leaves in the storage exactly the mode
    that is selected, writing only if that mode differs from the stored
    one; and [loadSettings], in any popup that has a radio for that
    mode, then selects it, and shows the warning exactly when it is
    [convert]. *)
Theorem saved_mode_is_loaded (storage : Storage) (p q : Page) :
  let saved := fst (saveSettings true true storage p) in
  storedMode saved = selectedMode (radios p)
  /\ (selectedMode (radios p) = storedMode storage -> saved = storage)
  /\ (existsb (fun r => JS.eqb (value r) (selectedMode (radios p))) (radios q) = true ->
      selectedMode (radios (loadSettings true saved q)) = selectedMode (radios p)
      /\ warningShown (loadSettings true saved q)
         = JS.eqb (selectedMode (radios p)) (lit "convert")).
Proof.
  intros saved.
  assert (Hs : storedMode saved = selectedMode (radios p)).
  { unfold saved, saveSettings.
    destruct (JS.eqb (selectedMode (radios p)) (storedMode storage)) eqn:E;
      [|reflexivity].
    apply JSFacts.eqb_eq in E. symmetry. exact E. }
  split; [exact Hs|]. split.
  - intros Heq. unfold saved, saveSettings.
    rewrite Heq, JSFacts.eqb_refl. reflexivity.
  - intros Hex. unfold loadSettings. rewrite Hs, Hex.
    unfold updateWarningVisibility, withRadios. simpl.
    rewrite (selectedMode_checkFirst _ _ Hex). auto.
Qed.

Lemma saved_mode_is_loaded_witness :
  let rs := [{| value := lit "original"; checked := false |};
             {| value := lit "convert"; checked := true |}] in
  let fresh := [{| value := lit "original"; checked := true |};
                {| value := lit "convert"; checked := false |}] in
  selectedMode
    (radios (loadSettings true (fst (saveSettings true true None (opened rs 1 0)))
               (opened fresh 1 0)))
  = lit "convert".
Proof.
  intros rs fresh.
  destruct (saved_mode_is_loaded None (opened rs 1 0) (opened fresh 1 0))
    as [_ [_ H]].
  destruct (H eq_refl) as [Hsel _]. exact Hsel.
Defined.

Lemma status_timer_cleared id due : clearTimeout id [(id, due)] = [].
Proof. unfold clearTimeout. simpl. rewrite Nat.eqb_refl. reflexivity. Qed.

Lemma statusStep_oneTimer p ev : oneTimer p -> oneTimer (statusStep p ev).
Proof.
  intros [Hn H]. destruct ev as [message kind duration | t]; simpl.
  - split; [simpl; lia|]. right.
    exists (nextTimer p), (time p + duration)%Z.
    destruct H as [[Hid Ht] | [id [due [Hpos [Hid [Ht Hd]]]]]].
    + unfold showStatus. rewrite Hid, Ht. simpl. auto.
    + destruct id as [|id']; [lia|].
      unfold showStatus. rewrite Hid, Ht.
      cbn [statusTimerId timers status displayed nextTimer time].
      rewrite status_timer_cleared. simpl. auto.
  - split; [exact Hn|].
    destruct H as [[Hid Ht] | [id [due [Hpos [Hid [Ht Hd]]]]]].
    + left. unfold tick. rewrite Ht. simpl. auto.
    + unfold tick. rewrite Ht. simpl.
      destruct (due <=? t)%Z; simpl.
      * left. auto.
      * right. exists id, due. auto.
Qed.

Lemma statusRun_oneTimer evs :
  forall p, oneTimer p -> oneTimer (statusRun evs p).
Proof.
  induction evs as [|ev evs IH]; intros p Hp; simpl; [exact Hp|].
  apply IH, statusStep_oneTimer, Hp.
Qed.

(** X30.  Status messages do not pile up.  However many messages are shown
    and whenever the clock moves, at most one timer is pending, and it is
    the one of the message shown last; when that timer fires the status
    line is hidden and no timer is left. *)
Theorem status_has_one_timer
    (rs : list Radio) (next : nat) (now : Z) (evs : list StatusEvent)
    (message : jsstring) (kind : StatusKind) (duration : Z) :
  1 <= next ->
  let p := showStatus message kind duration (statusRun evs (opened rs next now)) in
  timers p = [(nextTimer p - 1, (time p + duration)%Z)]
  /\ statusTimerId p = Some (nextTimer p - 1)
  /\ statusText (status p) = message
  /\ displayed (status p) = true
  /\ displayed (status (tick (time p + duration) p)) = false
  /\ timers (tick (time p + duration) p) = []
  /\ statusTimerId (tick (time p + duration) p) = None.
Proof.
  intros Hnext p.
  assert (Hq : oneTimer (statusRun evs (opened rs next now))).
  { apply statusRun_oneTimer. split; [exact Hnext|]. left. auto. }
  set (q := statusRun evs (opened rs next now)) in *.
  assert (Ht : timers p = [(nextTimer q, (time q + duration)%Z)]).
  { unfold p, showStatus. simpl.
    destruct Hq as [Hn [[Hid Htq] | [id [due [Hpos [Hid [Htq Hd]]]]]]].
    - rewrite Hid, Htq. reflexivity.
    - destruct id as [|id']; [lia|]. rewrite Hid, Htq, status_timer_cleared.
      reflexivity. }
  assert (Hnp : nextTimer p - 1 = nextTimer q) by (unfold p; simpl; lia).
  assert (Htime : time p = time q) by reflexivity.
  rewrite Hnp, Htime.
  split; [exact Ht|]. split; [reflexivity|]. split; [reflexivity|].
  split; [reflexivity|].
  unfold tick. rewrite Ht. simpl.
  assert (E : (time q + duration <=? time q + duration)%Z = true)
    by (apply Z.leb_refl).
  rewrite E. simpl. auto.
Qed.

Lemma status_has_one_timer_witness :
  let p := showStatus (lit "Settings saved!") SuccessKind 2000
             (statusRun [ShowStatus (lit "Failed to save settings") ErrorKind 3000;
                         StatusTick 500]
                (opened [] 1 0)) in
  timers p = [(2, 2500%Z)] /\ displayed (status (tick 2500 p)) = false.
Proof.
  intros p.
  destruct (status_has_one_timer [] 1 0
              [ShowStatus (lit "Failed to save settings") ErrorKind 3000;
               StatusTick 500]
              (lit "Settings saved!") SuccessKind 2000 (le_n 1))
    as [Ht [_ [_ [_ [Hd _]]]]].
  split; [exact Ht | exact Hd].
Defined.

End PopupExtras.
